(** * Local Suspender: the encrypted state store, the resume-token flow,
      the state lock and the state codec

    A shallow embedding of the parts of the extension that serialise,
    persist and mutate the suspended-tab state:

    - [state-codec.js]: [decodeStateAny], [encodeStateV2] and helpers;
    - [encryption.js]: key records, [persistKeyRecord],
      [setCloudBackupEnabled], [deriveWrappingKey], [unwrapDataKey];
    - [background.js]: the module-level variables, [loadState],
      [saveState], [resetEncryption], [withStateLock];
    - [unsuspend-token-flow.js]: [processUnsuspendTokenMessage].

    JavaScript values are modelled by [JsVal]; numbers by [JsNum], exact
    dyadic rationals extended with NaN and the two infinities (the
    rounding of arithmetic results is outside the model, and -0 is
    identified with 0, which no operation used here can tell apart).
    The conversions between strings and numbers are exact on the integers
    that a double holds exactly, up to 2^53 - 1 in absolute value, and
    left to the host beyond. Operations that can raise run in the result
    type [Res]. *)

From Stdlib Require Import ZArith Bool Lia Decimal DecimalString DecimalZ.
From stdpp Require Import base option list gmap strings sorting.

Set Warnings "-register-all".

Local Open Scope string_scope.
Local Open Scope Z_scope.
Local Open Scope list_scope.

(** ** Results of operations that may raise *)

Inductive Res (A : Type) : Type :=
| Ok (a : A)
| Throw (msg : string).
Arguments Ok {A} a.
Arguments Throw {A} msg.

#[global] Instance res_bind : MBind Res := fun A B k m =>
  match m with
  | Ok a => k a
  | Throw e => Throw e
  end.

#[global] Instance res_ret : MRet Res := fun A a => Ok a.

(** ** Numbers *)

Module Num.

(** [NFrac m k] is the non-integral value (2m+1)/2^(k+1); every finite
    double that is not an integer has exactly one such form. *)
Inductive JsNum : Type :=
| NInt (z : Z)
| NFrac (m : Z) (k : nat)
| NNaN
| NPosInf
| NNegInf.

Definition eqb (a b : JsNum) : bool :=
  match a, b with
  | NInt x, NInt y => Z.eqb x y
  | NFrac m k, NFrac n j => Z.eqb m n && Nat.eqb k j
  | NPosInf, NPosInf => true
  | NNegInf, NNegInf => true
  | _, _ => false                       (* NaN === NaN is false *)
  end.

(** [Number.isFinite] and [Number.isInteger] on a number. *)
Definition isFinite (x : JsNum) : bool :=
  match x with NInt _ | NFrac _ _ => true | _ => false end.

Definition isInteger (x : JsNum) : bool :=
  match x with NInt _ => true | _ => false end.

(** A number is falsy when it is 0 or NaN. *)
Definition truthy (x : JsNum) : bool :=
  match x with
  | NInt z => negb (Z.eqb z 0)
  | NNaN => false
  | _ => true
  end.

(** Numerator and binary exponent of a finite value. *)
Definition dyadic (x : JsNum) : option (Z * nat) :=
  match x with
  | NInt z => Some (z, 0%nat)
  | NFrac m k => Some (2 * m + 1, S k)
  | _ => None
  end.

Fixpoint of_dyadic (p : Z) (e : nat) : JsNum :=
  match e with
  | O => NInt p
  | S e' => if Z.even p then of_dyadic (p / 2) e' else NFrac ((p - 1) / 2) e'
  end.

(** The subtraction [a - b]. *)
Definition sub (a b : JsNum) : JsNum :=
  match a, b with
  | NNaN, _ | _, NNaN => NNaN
  | NPosInf, NPosInf | NNegInf, NNegInf => NNaN
  | NPosInf, _ | _, NNegInf => NPosInf
  | NNegInf, _ | _, NPosInf => NNegInf
  | _, _ =>
      match dyadic a, dyadic b with
      | Some (p, e), Some (q, f) =>
          let g := Nat.max e f in
          of_dyadic (p * 2 ^ Z.of_nat (g - e) - q * 2 ^ Z.of_nat (g - f)) g
      | _, _ => NNaN
      end
  end.

Definition sign (x : JsNum) : option comparison :=
  match x with
  | NInt z => Some (z ?= 0)
  | NFrac m _ => Some (if m <? 0 then Lt else Gt)
  | NNaN => None
  | NPosInf => Some Gt
  | NNegInf => Some Lt
  end.

(** The comparisons [a > b] and [a <= b]; both are false on NaN. *)
Definition gt (a b : JsNum) : bool :=
  match sign (sub a b) with Some Gt => true | _ => false end.

Definition le (a b : JsNum) : bool :=
  match a, b with
  | NPosInf, NPosInf | NNegInf, NNegInf => true
  | _, _ => match sign (sub a b) with Some Lt | Some Eq => true | _ => false end
  end.

(** [Math.max] of two numbers. *)
Definition max (a b : JsNum) : JsNum :=
  match a, b with
  | NNaN, _ | _, NNaN => NNaN
  | _, _ => if gt b a then b else a
  end.

End Num.
Export Num.

(** ** Values *)

Inductive JsVal : Type :=
| JUndef
| JNull
| JBool (b : bool)
| JNum (n : JsNum)
| JStr (s : string)
| JArr (items : list JsVal)
| JObj (fields : list (string * JsVal)).

Inductive JsType : Type := TUndefined | TObject | TBoolean | TNumber | TString.

Definition typeof (v : JsVal) : JsType :=
  match v with
  | JUndef => TUndefined
  | JNull | JArr _ | JObj _ => TObject
  | JBool _ => TBoolean
  | JNum _ => TNumber
  | JStr _ => TString
  end.

Definition is_string (v : JsVal) : bool :=
  match v with JStr _ => true | _ => false end.

Definition is_object_type (v : JsVal) : bool :=
  match typeof v with TObject => true | _ => false end.

Definition isArray (v : JsVal) : bool :=
  match v with JArr _ => true | _ => false end.

(** Truthiness: [undefined], [null], [false], [0], [NaN] and the empty
    string are falsy. *)
Definition js_truthy (v : JsVal) : bool :=
  match v with
  | JUndef | JNull => false
  | JBool b => b
  | JNum n => Num.truthy n
  | JStr s => negb (String.eqb s "")
  | JArr _ | JObj _ => true
  end.

(** [a || b] on values. *)
Definition js_or (a b : JsVal) : JsVal := if js_truthy a then a else b.

(** Strict equality [a === b]. Two arrays or objects are equal only when
    they are the same object; the comparisons made by the code are between
    a stored value and a literal, or a value that arrived in a message, so
    they are never the same object. *)
Definition strict_eq (a b : JsVal) : bool :=
  match a, b with
  | JUndef, JUndef => true
  | JNull, JNull => true
  | JBool x, JBool y => Bool.eqb x y
  | JNum x, JNum y => Num.eqb x y
  | JStr x, JStr y => String.eqb x y
  | _, _ => false
  end.

(** Own data fields of a plain object; an array has no named field among
    those the code reads (it never reads [length] through this function). *)
Fixpoint assoc (fs : list (string * JsVal)) (k : string) : JsVal :=
  match fs with
  | [] => JUndef
  | (k', v) :: rest => if String.eqb k' k then v else assoc rest k
  end.

Definition field (v : JsVal) (k : string) : JsVal :=
  match v with
  | JObj fs => assoc fs k
  | _ => JUndef
  end.

(** [v.k]: a TypeError when [v] is [undefined] or [null]. *)
Definition get_prop (v : JsVal) (k : string) : Res JsVal :=
  match v with
  | JUndef | JNull => Throw "TypeError"
  | _ => Ok (field v k)
  end.

(** [v?.k] *)
Definition opt_prop (v : JsVal) (k : string) : JsVal :=
  match v with
  | JUndef | JNull => JUndef
  | _ => field v k
  end.

(** [v.k = x] on a plain object: replaces the field or appends it. *)
Fixpoint assoc_set (fs : list (string * JsVal)) (k : string) (x : JsVal)
  : list (string * JsVal) :=
  match fs with
  | [] => [(k, x)]
  | (k', v) :: rest =>
      if String.eqb k' k then (k', x) :: rest else (k', v) :: assoc_set rest k x
  end.

Definition set_field (v : JsVal) (k : string) (x : JsVal) : JsVal :=
  match v with
  | JObj fs => JObj (assoc_set fs k x)
  | _ => v
  end.

(** [tuple[i]] and [tuple.length] on an array. *)
Definition index (v : JsVal) (i : nat) : JsVal :=
  match v with
  | JArr l => nth i l JUndef
  | _ => JUndef
  end.

Definition array_length (v : JsVal) : nat :=
  match v with JArr l => length l | _ => 0%nat end.

(** The decimal form of an integer: the property key of an integer below
    10^21 in absolute value ([number_key] below). *)
Definition int_key (z : Z) : string := NilZero.string_of_int (Z.to_int z).

(** [Object.entries] of an array or a plain object. *)
Definition js_entries (v : JsVal) : list (string * JsVal) :=
  match v with
  | JObj fs => fs
  | JArr l => imap (fun i x => (int_key (Z.of_nat i), x)) l
  | _ => []
  end.

(** ** Coercion between numbers and strings

    [Number(v)] is exact on [undefined], [null], booleans, numbers, the
    empty string and the plain decimal integers that a double holds
    exactly, those up to 2^53 - 1 in absolute value; on every other
    string (a longer run of digits is rounded) and on arrays and objects
    it is whatever the host computes, left abstract. [String(n)] writes an
    integer below 10^21 in decimal digits; every other number is written
    as the host does ([1e+21], [1.5], [NaN]), left abstract. *)

Class Coercions := {
  string_to_number : string -> JsNum;
  object_to_number : JsVal -> JsNum;
  number_to_string : JsNum -> string
}.

Definition MAX_SAFE_INTEGER : Z := 9007199254740991.

Section ToNumber.
Context `{Coercions}.

Definition StringToNumber (s : string) : JsNum :=
  if String.eqb s "" then NInt 0
  else match NilZero.int_of_string s with
       | Some d =>
           if Z.abs (Z.of_int d) <=? MAX_SAFE_INTEGER then NInt (Z.of_int d)
           else string_to_number s
       | None => string_to_number s
       end.

Definition ToNumber (v : JsVal) : JsNum :=
  match v with
  | JUndef => NNaN
  | JNull => NInt 0
  | JBool b => NInt (if b then 1 else 0)
  | JNum n => n
  | JStr s => StringToNumber s
  | JArr _ | JObj _ => object_to_number v
  end.

(** The property key a number stands for, [String(n)]. *)
Definition number_key (n : JsNum) : string :=
  match n with
  | NInt z => if Z.abs z <? 10 ^ 21 then int_key z else number_to_string n
  | _ => number_to_string n
  end.

End ToNumber.

#[global] Arguments number_key : simpl never.

(** ** The canonical state

    [{ suspendedTabs }]: a map from property keys (the decimal form of a
    tab id, or whatever key a legacy payload used) to entries. An entry is
    a plain object, given by its fields: every writer of the map stores an
    object literal or an entry the decoder built. *)

Abbreviation Entry := (list (string * JsVal)).

Record State : Type := mkState { suspendedTabs : gmap string Entry }.

Definition emptyState : State := mkState ∅.

(** ** state-codec.js *)

Module Codec.
Section Codec.
Context `{Coercions}.

Definition METHOD_DISCARD : JsNum := NInt 0.
Definition METHOD_PAGE : JsNum := NInt 1.

(** [toFiniteNumber(value, fallback)] *)
Definition toFiniteNumber (value fallback : JsVal) : JsVal :=
  let num := ToNumber value in
  if Num.isFinite num then JNum num else fallback.

(** [decodeMethod(value, fallback)] *)
Definition decodeMethod (value : JsVal) (fallback : string) : string :=
  if strict_eq value (JNum METHOD_DISCARD) || strict_eq value (JStr "discard")
  then "discard"
  else if strict_eq value (JNum METHOD_PAGE) || strict_eq value (JStr "page")
  then "page"
  else fallback.

(** [typeof v === 'string' ? v : ''] *)
Definition string_or_empty (v : JsVal) : JsVal :=
  if is_string v then v else JStr "".

(** The three token fields that only a [page] entry carries. *)
Definition token_fields (method : string) (token issued used : JsVal)
  : list (string * JsVal) :=
  if String.eqb method "page"
  then [("token", token); ("tokenIssuedAt", issued); ("tokenUsed", used)]
  else [].

(** [normalizeEntry(entry)]: [None] is the [null] returned for an entry
    without a usable url. *)
Definition normalizeEntry (entry : JsVal) : Res (option Entry) :=
  if negb (js_truthy entry) || negb (is_object_type entry) then Ok None
  else
    url ← get_prop entry "url";
    if negb (is_string url) || negb (js_truthy url) then Ok None
    else
      m ← get_prop entry "method";
      tok ← get_prop entry "token";
      issued ← get_prop entry "tokenIssuedAt";
      let method :=
        decodeMethod m (if js_truthy (js_or tok issued) then "page" else "discard") in
      title ← get_prop entry "title";
      windowId ← get_prop entry "windowId";
      suspendedAt ← get_prop entry "suspendedAt";
      reason ← get_prop entry "reason";
      favIconUrl ← get_prop entry "favIconUrl";
      used ← get_prop entry "tokenUsed";
      let at_ := toFiniteNumber suspendedAt (JNum (NInt 0)) in
      Ok (Some ([("url", url);
                 ("title", string_or_empty title);
                 ("windowId", toFiniteNumber windowId (JNum (NInt 0)));
                 ("suspendedAt", at_);
                 ("method", JStr method);
                 ("reason", string_or_empty reason);
                 ("favIconUrl", string_or_empty favIconUrl)]
                ++ token_fields method
                     (string_or_empty tok)
                     (toFiniteNumber issued at_)
                     (JBool (js_truthy used)))).

(** The loop of [decodeLegacyState] over [Object.entries(source)]. *)
Fixpoint decodeLegacyEntries (es : list (string * JsVal)) (acc : gmap string Entry)
  : Res (gmap string Entry) :=
  match es with
  | [] => Ok acc
  | (tabId, entry) :: rest =>
      normalized ← normalizeEntry entry;
      decodeLegacyEntries rest
        (match normalized with
         | Some n => <[tabId := n]> acc
         | None => acc
         end)
  end.

(** [decodeLegacyState(raw)] *)
Definition decodeLegacyState (raw : JsVal) : Res State :=
  let source := opt_prop raw "suspendedTabs" in
  if negb (js_truthy source) || negb (is_object_type source)
  then Ok emptyState
  else
    tabs ← decodeLegacyEntries (js_entries source) ∅;
    Ok (mkState tabs).

(** One iteration of the loop of [decodeCompactState]: the key and the
    entry the tuple contributes, or [None] where the loop continues. *)
Definition decodeTuple (tuple : JsVal) : option (string * Entry) :=
  if negb (isArray tuple) || (array_length tuple <? 11)%nat then None
  else
    match toFiniteNumber (index tuple 0) (JNum NNaN) with
    | JNum (NInt tabId) =>
        if tabId <=? 0 then None
        else
          let method := decodeMethod (index tuple 5) "page" in
          let url := string_or_empty (index tuple 1) in
          let at_ := toFiniteNumber (index tuple 4) (JNum (NInt 0)) in
          if negb (js_truthy url) then None
          else
            Some (number_key (NInt tabId),      (* suspendedTabs[tabId] = entry *)
                       ([("url", url);
                         ("title", string_or_empty (index tuple 2));
                         ("windowId", toFiniteNumber (index tuple 3) (JNum (NInt 0)));
                         ("suspendedAt", at_);
                         ("method", JStr method);
                         ("reason", string_or_empty (index tuple 6));
                         ("favIconUrl", string_or_empty (index tuple 10))]
                        ++ token_fields method
                             (string_or_empty (index tuple 7))
                             (toFiniteNumber (index tuple 8) at_)
                             (JBool (strict_eq (index tuple 9) (JNum (NInt 1))
                                     || strict_eq (index tuple 9) (JBool true)))))
    | _ => None          (* not an integer *)
    end.

Definition decodeTuples (tuples : list JsVal) : gmap string Entry :=
  fold_left (fun acc tuple =>
               match decodeTuple tuple with
               | Some (k, entry) => <[k := entry]> acc
               | None => acc
               end) tuples ∅.

(** [decodeCompactState(raw)] *)
Definition decodeCompactState (raw : JsVal) : State :=
  let tabs := opt_prop raw "tabs" in
  let tuples := match tabs with JArr l => l | _ => [] end in
  mkState (decodeTuples tuples).

(** [decodeStateAny(raw)] *)
Definition decodeStateAny (raw : JsVal) : Res State :=
  if negb (js_truthy raw) || negb (is_object_type raw) then Ok emptyState
  else
    v ← get_prop raw "v";
    if strict_eq v (JNum (NInt 2)) then Ok (decodeCompactState raw)
    else decodeLegacyState raw.

(** [encodeTuple(tabId, entry)], called on a normalized entry. *)
Definition encodeTuple (tabId : string) (entry : Entry) : JsVal :=
  let method := decodeMethod (assoc entry "method") "page" in
  let page := String.eqb method "page" in
  JArr [JNum (ToNumber (JStr tabId));
        string_or_empty (assoc entry "url");
        string_or_empty (assoc entry "title");
        toFiniteNumber (assoc entry "windowId") (JNum (NInt 0));
        toFiniteNumber (assoc entry "suspendedAt") (JNum (NInt 0));
        JNum (if String.eqb method "discard" then METHOD_DISCARD else METHOD_PAGE);
        string_or_empty (assoc entry "reason");
        (if page && is_string (assoc entry "token")
         then assoc entry "token" else JStr "");
        (if page
         then toFiniteNumber (assoc entry "tokenIssuedAt") (assoc entry "suspendedAt")
         else JNum (NInt 0));
        JNum (NInt (if page && js_truthy (assoc entry "tokenUsed") then 1 else 0));
        string_or_empty (assoc entry "favIconUrl")].

(** The comparator [(a, b) => Number(a[0]) - Number(b[0])] does not put
    [a] after [b]. Where the comparator is not a consistent order (keys
    that are not numbers) the result of a JavaScript sort is left to the
    implementation; the model uses a stable merge sort throughout. *)
Definition key_order (a b : string * Entry) : Prop :=
  Num.gt (Num.sub (ToNumber (JStr a.1)) (ToNumber (JStr b.1))) (NInt 0) = false.

#[global] Instance key_order_dec a b : Decision (key_order a b).
Proof. unfold key_order. apply _. Defined.

(** The loop of [encodeStateV2] over the sorted entries. *)
Fixpoint encodeEntries (es : list (string * Entry)) : Res (list JsVal) :=
  match es with
  | [] => Ok []
  | (tabId, entry) :: rest =>
      normalized ← normalizeEntry (JObj entry);
      match normalized with
      | None => encodeEntries rest
      | Some n =>
          tuples ← encodeEntries rest;
          Ok (encodeTuple tabId n :: tuples)
      end
  end.

(** [encodeStateV2(state)] *)
Definition encodeStateV2 (state : State) : Res JsVal :=
  let entries := merge_sort key_order (map_to_list (suspendedTabs state)) in
  tabs ← encodeEntries entries;
  Ok (JObj [("v", JNum (NInt 2)); ("tabs", JArr tabs)]).

End Codec.
End Codec.

(** ** The host: cryptography, storage records and settings

    The Web Crypto calls are black boxes. A PBKDF2-derived wrapping key is
    represented by the parameters of the [deriveKey] call that produced
    it, which determine it. [generateKey] and [aes_encrypt] take the
    entropy they consume from a counter in the world. *)

Record WrappingKey : Type := mkWrappingKey {
  wk_passkey : string;
  wk_salt : string;
  wk_iterations : Z
}.

Class Crypto := {
  Key : Type;                                   (* an AES-GCM CryptoKey *)
  Cipher : Type;                                (* an [{ iv, ct }] payload *)
  generateKey : nat -> Key;
  aes_encrypt : Key -> nat -> JsVal -> Cipher;
  aes_decrypt : Key -> Cipher -> Res JsVal;     (* decrypt, then JSON.parse *)
  exportKeyBase64 : Key -> string;
  importKeyBase64 : string -> Res Key;
  random_base64 : nat -> string;                (* a fresh salt or iv, encoded *)
  base64_length : string -> Res nat;            (* [base64ToUint8(s).length]; atob may raise *)
  wrap_key : WrappingKey -> string -> Key -> string;
  unwrap_key : WrappingKey -> string -> string -> Res Key;
  (* Modelled from the spec: settings.js is not among the sources; this is
     [defaultSettings.encryption.iterations]. *)
  default_iterations : Z
}.

(** The key record kept under [encryptionKeyRecord]. *)
Record KeyRecord : Type := mkKeyRecord {
  usingPasskey : bool;
  dataKey : option string;
  encryptedKey : option string;
  keySalt : option string;
  keyIV : option string;
  iterations : option Z;
  cloudBackupEnabled : bool;
  keyVersion : Z;
  updatedAt : Z
}.

(** The part of the settings object the engine reads. *)
Record Settings : Type := mkSettings {
  encryption_enabled : bool;
  encryption_cloudBackupEnabled : bool;
  encryption_iterations : Z
}.

(** Responses of the message handlers. *)
Inductive Response : Type :=
| RespOk                                   (* { ok: true } *)
| RespError (error : string)               (* { ok: false, error } *)
| RespLocked (reason : string)             (* { ok: false, locked: true, reason } *)
| RespSkipped (reason : string).           (* { ok: true, skipped: 'locked', reason } *)

Section Engine.
Context `{Coercions} `{Crypto}.

(** What is stored under [suspenderState]. *)
Inductive Payload : Type :=
| PEncrypted (c : Cipher)                  (* [payload.ct] is set *)
| PPlain (encoded : JsVal).                (* [payload.plain] *)

Record Snapshot : Type := mkSnapshot {
  snap_id : string;
  snap_timestamp : Z;
  snap_tabCount : nat;
  snap_data : Payload
}.

(** chrome.storage: the local, sync and session areas. *)
Record Storage : Type := mkStorage {
  local_state : option Payload;            (* local[STATE_KEY] *)
  local_backups : option (list Snapshot);  (* local.backups *)
  local_keyRecord : option KeyRecord;      (* local[KEY_RECORD_KEY] *)
  sync_keyRecord : option KeyRecord;       (* sync[KEY_RECORD_KEY] *)
  local_settings : Settings;               (* local[SETTINGS_KEY] *)
  session_cryptoKey : option Key;          (* session.cryptoKey *)
  session_pending : option JsVal           (* session.pendingSuspenderState *)
}.

(** The module-level variables of encryption.js and background.js, the
    storage areas, the entropy counter and the clock. *)
Record World : Type := mkWorld {
  cryptoKey : option Key;
  encryptionLocked : bool;
  encryptionLockReason : option string;
  cachedState : option State;
  stateCorruptionReason : option string;
  snapshotDetailsCache : list (string * gmap string Entry);
  storage : Storage;
  entropy : nat;
  clock : Z
}.

Definition set_cryptoKey (k : option Key) (w : World) : World :=
  mkWorld k (encryptionLocked w) (encryptionLockReason w) (cachedState w)
    (stateCorruptionReason w) (snapshotDetailsCache w) (storage w) (entropy w) (clock w).

Definition set_encryptionLock (b : bool) (r : option string) (w : World) : World :=
  mkWorld (cryptoKey w) b r (cachedState w)
    (stateCorruptionReason w) (snapshotDetailsCache w) (storage w) (entropy w) (clock w).

Definition set_cachedState (s : option State) (w : World) : World :=
  mkWorld (cryptoKey w) (encryptionLocked w) (encryptionLockReason w) s
    (stateCorruptionReason w) (snapshotDetailsCache w) (storage w) (entropy w) (clock w).

Definition set_stateCorruptionReason (r : option string) (w : World) : World :=
  mkWorld (cryptoKey w) (encryptionLocked w) (encryptionLockReason w) (cachedState w)
    r (snapshotDetailsCache w) (storage w) (entropy w) (clock w).

Definition set_snapshotDetailsCache (c : list (string * gmap string Entry)) (w : World)
  : World :=
  mkWorld (cryptoKey w) (encryptionLocked w) (encryptionLockReason w) (cachedState w)
    (stateCorruptionReason w) c (storage w) (entropy w) (clock w).

Definition set_storage (s : Storage) (w : World) : World :=
  mkWorld (cryptoKey w) (encryptionLocked w) (encryptionLockReason w) (cachedState w)
    (stateCorruptionReason w) (snapshotDetailsCache w) s (entropy w) (clock w).

Definition set_entropy (n : nat) (w : World) : World :=
  mkWorld (cryptoKey w) (encryptionLocked w) (encryptionLockReason w) (cachedState w)
    (stateCorruptionReason w) (snapshotDetailsCache w) (storage w) n (clock w).

Definition set_local_state (p : option Payload) (s : Storage) : Storage :=
  mkStorage p (local_backups s) (local_keyRecord s) (sync_keyRecord s)
    (local_settings s) (session_cryptoKey s) (session_pending s).

Definition set_local_backups (b : option (list Snapshot)) (s : Storage) : Storage :=
  mkStorage (local_state s) b (local_keyRecord s) (sync_keyRecord s)
    (local_settings s) (session_cryptoKey s) (session_pending s).

Definition set_local_keyRecord (r : option KeyRecord) (s : Storage) : Storage :=
  mkStorage (local_state s) (local_backups s) r (sync_keyRecord s)
    (local_settings s) (session_cryptoKey s) (session_pending s).

Definition set_sync_keyRecord (r : option KeyRecord) (s : Storage) : Storage :=
  mkStorage (local_state s) (local_backups s) (local_keyRecord s) r
    (local_settings s) (session_cryptoKey s) (session_pending s).

Definition set_local_settings (x : Settings) (s : Storage) : Storage :=
  mkStorage (local_state s) (local_backups s) (local_keyRecord s) (sync_keyRecord s)
    x (session_cryptoKey s) (session_pending s).

Definition set_session_cryptoKey (k : option Key) (s : Storage) : Storage :=
  mkStorage (local_state s) (local_backups s) (local_keyRecord s) (sync_keyRecord s)
    (local_settings s) k (session_pending s).

Definition set_session_pending (p : option JsVal) (s : Storage) : Storage :=
  mkStorage (local_state s) (local_backups s) (local_keyRecord s) (sync_keyRecord s)
    (local_settings s) (session_cryptoKey s) p.

(** Computations over the world that may raise; the effects made before an
    exception stay. The storage calls themselves are taken to succeed. *)
Definition M (A : Type) : Type := World -> Res A * World.

Definition ret {A} (a : A) : M A := fun w => (Ok a, w).

Definition bind {A B} (m : M A) (k : A -> M B) : M B :=
  fun w => match m w with
           | (Ok a, w') => k a w'
           | (Throw e, w') => (Throw e, w')
           end.

Definition throw {A} (msg : string) : M A := fun w => (Throw msg, w).

Definition gets {A} (f : World -> A) : M A := fun w => (Ok (f w), w).

Definition modify (f : World -> World) : M unit := fun w => (Ok tt, f w).

Definition lift {A} (r : Res A) : M A := fun w => (r, w).

(** [try { m } catch { h }] *)
Definition try_catch {A} (m : M A) (h : M A) : M A :=
  fun w => match m w with
           | (Ok a, w') => (Ok a, w')
           | (Throw _, w') => h w'
           end.

Definition update_storage (f : Storage -> Storage) : M unit :=
  modify (fun w => set_storage (f (storage w)) w).

End Engine.

Notation "'let!' x ':=' m 'in' k" := (bind m (fun x => k))
  (at level 10, x name, m at level 100, k at level 200, only parsing).
Notation "m ';;' k" := (bind m (fun _ => k))
  (at level 100, k at level 200, right associativity, only parsing).

(** ** encryption.js *)

Section Encryption.
Context `{Coercions} `{Crypto}.

Definition MIN_ITERATIONS : Z := 150000.
Definition KEY_VERSION : Z := 1.

Definition getCryptoKey : M (option Key) := gets cryptoKey.
Definition isEncryptionLocked : M bool := gets encryptionLocked.
Definition getEncryptionLockReason : M (option string) := gets encryptionLockReason.

(** Modelled from the spec: settings.js is not among the sources;
    [ensureSettings] returns the stored settings and [saveSettings] stores
    the settings it is given. *)
Definition ensureSettings : M Settings := gets (fun w => local_settings (storage w)).

Definition saveSettings (s : Settings) : M unit :=
  update_storage (set_local_settings s).

(** [iterations || fallback]: a missing count and 0 are falsy. *)
Definition or_iterations (i : option Z) (fallback : Z) : Z :=
  match i with
  | Some n => if n =? 0 then fallback else n
  | None => fallback
  end.

(** [deriveWrappingKey(passkey, saltBytes, iterations, enforceFloor)] *)
Definition deriveWrappingKey (passkey salt : string) (iterations : option Z)
    (enforceFloor : bool) : WrappingKey :=
  mkWrappingKey passkey salt
    (if enforceFloor
     then Z.max (or_iterations iterations default_iterations) MIN_ITERATIONS
     else or_iterations iterations default_iterations).

Definition markEncryptionLocked (reason : option string) : M unit :=
  modify (set_encryptionLock true reason).

(** [saveKeyToSession(key)]; a failure is only logged. *)
Definition saveKeyToSession (key : Key) : M unit :=
  update_storage (set_session_cryptoKey (Some key)).

(** [clearSessionKey()] *)
Definition clearSessionKey : M unit :=
  modify (set_cryptoKey None) ;;
  update_storage (set_session_cryptoKey None).

(** [persistKeyRecord(record)]: the result is [syncEligible]. *)
Definition persistKeyRecord (record : KeyRecord) : M bool :=
  let syncEligible := cloudBackupEnabled record && usingPasskey record in
  (if syncEligible
   then update_storage (set_sync_keyRecord (Some record))
   else update_storage (set_sync_keyRecord None)) ;;
  update_storage (set_local_keyRecord (Some record)) ;;
  ret syncEligible.

(** [loadKeyRecord(preferCloud)] *)
Definition loadKeyRecord (preferCloud : bool) : M (option KeyRecord) :=
  gets (fun w =>
    let syncRecord := sync_keyRecord (storage w) in
    let localRecord := local_keyRecord (storage w) in
    if preferCloud
    then match syncRecord with Some r => Some r | None => localRecord end
    else match localRecord with Some r => Some r | None => syncRecord end).

(** [clearKeyRecords()] *)
Definition clearKeyRecords : M unit :=
  update_storage (set_sync_keyRecord None) ;;
  update_storage (set_local_keyRecord None).

(** A record as [generateAndPersistDataKey], [removePasskey] and
    [setCloudBackupEnabled] build it for a key kept in the clear. *)
Definition plaintextRecord (b64 : string) (cloud : bool) (now : Z) : KeyRecord :=
  mkKeyRecord false (Some b64) None None None None cloud KEY_VERSION now.

(** [generateAndPersistDataKey(cloudBackupEnabled)] *)
Definition generateAndPersistDataKey (requestedCloudBackup : bool) : M KeyRecord :=
  let! n := gets entropy in
  modify (set_entropy (S n)) ;;
  let key := generateKey n in
  modify (set_cryptoKey (Some key)) ;;
  let! now := gets clock in
  let record := plaintextRecord (exportKeyBase64 key) false now in
  persistKeyRecord record ;;
  (if requestedCloudBackup
   then let! settings := ensureSettings in
        if encryption_cloudBackupEnabled settings
        then saveSettings (mkSettings (encryption_enabled settings) false
                                      (encryption_iterations settings))
        else ret tt
   else ret tt) ;;
  saveKeyToSession key ;;
  modify (set_encryptionLock false None) ;;
  ret record.

(** What [wrapDataKey] returns. *)
Record Wrapped : Type := mkWrapped {
  w_encryptedKey : string;
  w_keySalt : string;
  w_keyIV : string;
  w_iterations : Z
}.

(** [wrapDataKey(passkey)] *)
Definition wrapDataKey (passkey : string) : M Wrapped :=
  let! key := getCryptoKey in
  match key with
  | None => throw "Data key not available to wrap"
  | Some key =>
      let! settings := ensureSettings in
      let! n := gets entropy in
      modify (set_entropy (S (S n))) ;;
      let salt := random_base64 n in
      let iv := random_base64 (S n) in
      let wrappingKey :=
        deriveWrappingKey passkey salt (Some (encryption_iterations settings)) true in
      ret (mkWrapped (wrap_key wrappingKey iv key) salt iv
                     (encryption_iterations settings))
  end.

Definition nonempty (s : option string) : bool :=
  match s with Some x => negb (String.eqb x "") | None => false end.

(** [isValidKeyRecord(record)] *)
Definition isValidKeyRecord (record : KeyRecord) : bool :=
  nonempty (encryptedKey record) && nonempty (keySalt record)
  && nonempty (keyIV record)
  && match base64_length (default "" (keySalt record)),
           base64_length (default "" (keyIV record)) with
     | Ok s, Ok i => Nat.eqb s 16 && Nat.eqb i 12
     | _, _ => false
     end.

(** The wrapping key [unwrapDataKey] derives for a record. *)
Definition unwrapWrappingKey (passkey : string) (record : KeyRecord) : WrappingKey :=
  deriveWrappingKey passkey (default "" (keySalt record))
    (Some (or_iterations (iterations record) default_iterations)) false.

(** [unwrapDataKey(passkey, record)] *)
Definition unwrapDataKey (passkey : string) (record : KeyRecord) : M Key :=
  if negb (isValidKeyRecord record)
  then throw "Encrypted key record is incomplete or invalid"
  else
    let wrappingKey := unwrapWrappingKey passkey record in
    let! key := lift (unwrap_key wrappingKey (default "" (keyIV record))
                                 (default "" (encryptedKey record))) in
    modify (set_cryptoKey (Some key)) ;;
    saveKeyToSession key ;;
    modify (set_encryptionLock false None) ;;
    ret key.

(** [unlockWithPasskey(passkey)] *)
Definition unlockWithPasskey (passkey : string) : M Response :=
  let! settings := ensureSettings in
  let! record := loadKeyRecord (encryption_cloudBackupEnabled settings) in
  match record with
  | None => ret (RespError "not-locked")
  | Some record =>
      if negb (usingPasskey record) then ret (RespError "not-locked")
      else
        let! unwrapped :=
          try_catch (unwrapDataKey passkey record ;; ret true)
                    (markEncryptionLocked (Some "bad-passkey") ;; ret false) in
        if negb unwrapped then ret (RespError "bad-passkey")
        else
          (* upgrade a weak iteration count after a successful unwrap *)
          let recordIterations :=
            or_iterations (iterations record) (encryption_iterations settings) in
          (if recordIterations <? MIN_ITERATIONS
           then try_catch
                  (let! wrapped := wrapDataKey passkey in
                   let! now := gets clock in
                   persistKeyRecord
                     (mkKeyRecord (usingPasskey record) (dataKey record)
                        (Some (w_encryptedKey wrapped)) (Some (w_keySalt wrapped))
                        (Some (w_keyIV wrapped)) (Some (w_iterations wrapped))
                        (cloudBackupEnabled record) (keyVersion record) now) ;;
                   ret tt)
                  (ret tt)
           else ret tt) ;;
          ret RespOk
  end.

(** [setCloudBackupEnabled(enabled)] *)
Definition setCloudBackupEnabled (requested : bool) : M Response :=
  let! settings := ensureSettings in
  let! loaded := loadKeyRecord requested in
  let! key := getCryptoKey in
  let! now := gets clock in
  let record :=
    match loaded, key with
    | None, Some key => Some (plaintextRecord (exportKeyBase64 key) false now)
    | _, _ => loaded
    end in
  if requested && match record with
                  | None => true
                  | Some r => negb (usingPasskey r)
                  end
  then ret (RespError "passkey-required")
  else
    saveSettings (mkSettings (encryption_enabled settings) requested
                             (encryption_iterations settings)) ;;
    match record with
    | Some r =>
        persistKeyRecord
          (mkKeyRecord (usingPasskey r) (dataKey r) (encryptedKey r) (keySalt r)
             (keyIV r) (iterations r) requested (keyVersion r) (updatedAt r)) ;;
        ret RespOk
    | None =>
        (if negb requested then clearKeyRecords else ret tt) ;;
        ret RespOk
    end.

End Encryption.

(** ** background.js: the state store *)

Section StateStore.
Context `{Coercions} `{Crypto}.

Definition hasCryptoKey (w : World) : bool := bool_decide (is_Some (cryptoKey w)).

Definition stateIsLocked (w : World) : bool :=
  encryptionLocked w || negb (hasCryptoKey w).

(** [markStateCorrupt(reason = 'corrupt-state')] *)
Definition markStateCorrupt (reason : string) : M unit :=
  modify (set_stateCorruptionReason (Some reason)).

Definition clearStateCorruption : M unit :=
  modify (set_stateCorruptionReason None).

(** [!!stateCorruptionReason] *)
Definition stateIsCorrupt (w : World) : bool := nonempty (stateCorruptionReason w).

Definition stateLockReason (w : World) : option string :=
  if stateIsCorrupt w then stateCorruptionReason w else encryptionLockReason w.

(** [reason || fallback] *)
Definition reason_or (reason : option string) (fallback : string) : string :=
  match reason with
  | Some r => if String.eqb r "" then fallback else r
  | None => fallback
  end.

Definition stateWriteBlockedReason (w : World) : option string :=
  if stateIsCorrupt w then Some (reason_or (stateLockReason w) "corrupt-state")
  else if stateIsLocked w then Some (reason_or (stateLockReason w) "locked")
  else None.

Definition stateIsWritable (w : World) : bool :=
  negb (nonempty (stateWriteBlockedReason w)).

(** [lockedMutationResponse({ skip })] *)
Definition lockedMutationResponse (skip : bool) (w : World) : Response :=
  let reason := reason_or (stateWriteBlockedReason w) "locked" in
  if skip then RespSkipped reason else RespLocked reason.

Definition clearLegacyPendingState : M unit :=
  update_storage (set_session_pending None).

Definition clearSnapshotDetailsCache : M unit :=
  modify (set_snapshotDetailsCache []).

(** [encryptPayload(data)] *)
Definition encryptPayload (data : JsVal) : M Payload :=
  let! key := getCryptoKey in
  match key with
  | None => throw "Encryption key not available"
  | Some key =>
      let! n := gets entropy in
      modify (set_entropy (S n)) ;;
      ret (PEncrypted (aes_encrypt key n data))
  end.

(** [decryptPayload(payload)] *)
Definition decryptPayload (c : Cipher) : M JsVal :=
  let! key := getCryptoKey in
  match key with
  | None => throw "Encryption key not available"
  | Some key => lift (aes_decrypt key c)
  end.

(** [cachedState = cachedState || { suspendedTabs: {} }] *)
Definition ensurePlaceholder : M unit :=
  modify (fun w => set_cachedState (Some (default emptyState (cachedState w))) w).

Definition readCache : M State := gets (fun w => default emptyState (cachedState w)).

(** [loadState()]: the result is the object [cachedState] refers to. *)
Definition loadState : M State :=
  let! locked := gets stateIsLocked in
  if locked then ensurePlaceholder ;; readCache
  else
    let! cached := gets cachedState in
    match cached with
    | Some st => ret st
    | None =>
        let! payload := gets (fun w => local_state (storage w)) in
        (match payload with
         | Some (PEncrypted c) =>
             try_catch
               (let! decryptedState := decryptPayload c in
                let! st := lift (Codec.decodeStateAny decryptedState) in
                modify (set_cachedState (Some st)) ;;
                clearStateCorruption)
               (markStateCorrupt "corrupt-state" ;;
                ensurePlaceholder)
         | Some (PPlain encoded) =>
             if js_truthy encoded
             then clearStateCorruption ;;
                  let! st := lift (Codec.decodeStateAny encoded) in
                  modify (set_cachedState (Some st))
             else clearStateCorruption ;;
                  modify (set_cachedState (Some emptyState))
         | None =>
             clearStateCorruption ;;
             modify (set_cachedState (Some emptyState))
         end) ;;
        readCache
    end.

(** [saveStateInternal(state)] *)
Definition saveStateInternal (state : State) : M unit :=
  let! blockedReason := gets stateWriteBlockedReason in
  if nonempty blockedReason then throw (default "" blockedReason)
  else
    let! encodedState := lift (Codec.encodeStateV2 state) in
    let! settings := ensureSettings in
    if encryption_enabled settings
    then let! encrypted := encryptPayload encodedState in
         update_storage (set_local_state (Some encrypted))
    else update_storage (set_local_state (Some (PPlain encodedState))).

(** [saveState(state)]; the wait on the reconciliation gate is over at once
    when no reconciliation is in flight. *)
Definition saveState (state : State) : M unit :=
  modify (set_cachedState (Some state)) ;;
  saveStateInternal state.

(** [handleStorageChanged(changes, areaName)] for a change of
    [local[STATE_KEY]]. *)
Definition handleStorageChanged : M unit :=
  modify (set_cachedState None) ;;
  clearStateCorruption.

(** [reconcilePendingStateAfterUnlock()] *)
Definition reconcilePendingStateAfterUnlock : M unit :=
  let! payload := gets (fun w => local_state (storage w)) in
  let! merged :=
    match payload with
    | Some (PEncrypted c) =>
        try_catch
          (let! decrypted := decryptPayload c in
           let! st := lift (Codec.decodeStateAny decrypted) in
           clearStateCorruption ;;
           ret (Some st))
          (markStateCorrupt "corrupt-state" ;;
           ensurePlaceholder ;;
           ret None)
    | Some (PPlain encoded) =>
        if js_truthy encoded
        then clearStateCorruption ;;
             let! st := lift (Codec.decodeStateAny encoded) in
             ret (Some st)
        else clearStateCorruption ;; ret (Some emptyState)
    | None => clearStateCorruption ;; ret (Some emptyState)
    end in
  match merged with
  | None => ret tt
  | Some merged =>
      modify (set_cachedState (Some merged)) ;;
      try_catch (saveStateInternal merged) (markStateCorrupt "corrupt-state")
  end.

(** [resetEncryption()] *)
Definition resetEncryption : M Response :=
  clearSessionKey ;;
  clearKeyRecords ;;
  clearStateCorruption ;;
  clearSnapshotDetailsCache ;;
  modify (set_cachedState None) ;;
  update_storage (fun s => set_local_backups None (set_local_state None s)) ;;
  clearLegacyPendingState ;;
  let! settings := ensureSettings in
  generateAndPersistDataKey (encryption_cloudBackupEnabled settings) ;;
  modify (set_cachedState (Some emptyState)) ;;
  saveState emptyState ;;
  ret RespOk.

(** [withStateLock(fn)] in a run where no other holder is in flight: the
    wait on the previous holder is over at once, [fn] runs, and the lock is
    released when [fn] settles. The promise chain itself is [Lock] below. *)
Definition withStateLock {A} (fn : M A) : M A := fn.

(** [delete state.suspendedTabs[tabId]] on the object [loadState] returned,
    which is the cached one. *)
Definition deleteEntry (key : string) (state : State) : State :=
  mkState (delete key (suspendedTabs state)).

(** [handleTabRemoved(tabId)], the part that touches the state. *)
Definition handleTabRemoved (tabId : Z) : M unit :=
  let! writable := gets stateIsWritable in
  if negb writable then ret tt
  else
    try_catch
      (withStateLock
         (let! writable := gets stateIsWritable in
          if negb writable then ret tt
          else
            let! state := loadState in
            if bool_decide (is_Some (suspendedTabs state !! number_key (NInt tabId)))
            then let state' := deleteEntry (number_key (NInt tabId)) state in
                 modify (set_cachedState (Some state')) ;;
                 saveState state'
            else ret tt))
      (ret tt).

End StateStore.

(** ** unsuspend-token-flow.js

    [processUnsuspendTokenMessage] receives its collaborators as
    arguments; [stateIsWritable], [lockedMutationResponse],
    [withStateLock], [loadState] and [saveState] are the ones background.js
    passes. [resumeSuspendedTab] stays an argument: it is the one await
    outside the lock, and whatever other handlers do to the world while it
    is pending is part of it. *)

Section TokenFlow.
Context `{Coercions} `{Crypto}.

(** The chrome.tabs calls [resumeSuspendedTab] makes; [false] when the
    call rejects. *)
Record TabsApi : Type := mkTabsApi {
  tabs_activate : Z -> M bool;                 (* update(tabId, { active: true }) *)
  tabs_reload : Z -> M bool;                   (* reload(tabId) *)
  tabs_navigate : Z -> JsVal -> bool -> M bool (* update(tabId, { url, active? }) *)
}.

(** [resumeSuspendedTab(tabId, metadata, { focus, reloadIfDiscarded })] *)
Definition resumeSuspendedTab (api : TabsApi) (tabId : Z) (metadata : option Entry)
    (focus reloadIfDiscarded : bool) : M bool :=
  match metadata with
  | None => ret false
  | Some metadata =>
      if strict_eq (assoc metadata "method") (JStr "discard")
      then if focus then tabs_activate api tabId
           else if reloadIfDiscarded then tabs_reload api tabId
           else ret true
      else tabs_navigate api tabId (assoc metadata "url") focus
  end.

(** [tokenTtlMs && issuedAt && now() - issuedAt > tokenTtlMs] *)
Definition tokenExpired (entry : Entry) (tokenTtlMs now : JsNum) : bool :=
  let issuedAt := js_or (assoc entry "tokenIssuedAt") (assoc entry "suspendedAt") in
  Num.truthy tokenTtlMs && js_truthy issuedAt
  && Num.gt (Num.sub now (ToNumber issuedAt)) tokenTtlMs.

(** What the first lock-guarded callback returns. *)
Inductive Prepared : Type :=
| PrepReject (r : Response)
| PrepOk (entry : Entry).                  (* { ok: true, entry: { ...entry } } *)

(** The first callback: validate the token and consume it. The state
    [loadState] returns is the cached object, so the assignment to
    [entry.tokenUsed] is an update of the cache. *)
Definition reserveToken (tabId : Z) (token : JsVal) (tokenTtlMs : JsNum)
    (now : World -> JsNum) : M Prepared :=
  let! writable := gets stateIsWritable in
  if negb writable
  then let! r := gets (lockedMutationResponse false) in ret (PrepReject r)
  else
    let! state := loadState in
    match suspendedTabs state !! number_key (NInt tabId) with
    | None => ret (PrepReject (RespError "invalid-token"))
    | Some entry =>
        if negb (strict_eq (assoc entry "token") token)
        then ret (PrepReject (RespError "invalid-token"))
        else if js_truthy (assoc entry "tokenUsed")
        then ret (PrepReject (RespError "used"))
        else
          let! t := gets now in
          if tokenExpired entry tokenTtlMs t
          then ret (PrepReject (RespError "expired"))
          else
            let entry' := assoc_set entry "tokenUsed" (JBool true) in
            let state' :=
              mkState (<[number_key (NInt tabId) := entry']> (suspendedTabs state)) in
            modify (set_cachedState (Some state')) ;;
            saveState state' ;;
            ret (PrepOk entry')
    end.

(** The second callback: delete the entry. *)
Definition finalizeToken (tabId : Z) : M Response :=
  let! writable := gets stateIsWritable in
  if negb writable then gets (lockedMutationResponse false)
  else
    let! state := loadState in
    let state' := deleteEntry (number_key (NInt tabId)) state in
    modify (set_cachedState (Some state')) ;;
    saveState state' ;;
    ret RespOk.

(** [processUnsuspendTokenMessage({ tabId, token, tokenTtlMs, ..., now })] *)
Definition processUnsuspendTokenMessage (resume : Z -> Entry -> M bool)
    (tabId : Z) (token : JsVal) (tokenTtlMs : JsNum) (now : World -> JsNum)
  : M Response :=
  let! writable := gets stateIsWritable in
  if negb writable then gets (lockedMutationResponse false)
  else
    let! prepareResult := withStateLock (reserveToken tabId token tokenTtlMs now) in
    match prepareResult with
    | PrepReject r => ret r
    | PrepOk entry =>
        let! resumed := resume tabId entry in
        if negb resumed then ret (RespError "resume-failed")
        else withStateLock (finalizeToken tabId)
    end.

(** [TOKEN_TTL_MS] and the call made for an [UNSUSPEND_TOKEN] message. *)
Definition TOKEN_TTL_MS : JsNum := NInt (24 * 60 * 60 * 1000).

Definition handleUnsuspendToken (api : TabsApi) (tabId : Z) (token : JsVal)
  : M Response :=
  processUnsuspendTokenMessage
    (fun id entry => resumeSuspendedTab api id (Some entry) true false)
    tabId token TOKEN_TTL_MS (fun w => NInt (clock w)).

End TokenFlow.

(** ** background.js: the state lock

    [let stateLock = Promise.resolve()] and [withStateLock(fn)]. Promises
    are numbered in the order they are created; promise 0 is the initial,
    resolved one. A callback is a resumption: between two awaits it runs
    atomically on the shared store and decides how it goes on. *)

Module Lock.
Section Lock.
Context {St : Type}.

Inductive Body : Type :=
| Return                                      (* the callback returns *)
| Raise                                       (* the callback throws *)
| Await (step : St -> St) (next : St -> Body).   (* run up to the next await *)

(** A call of [withStateLock(fn)]. *)
Inductive Task : Type :=
| Waiting (prev release : nat) (fn : Body)    (* at [await prev] *)
| Running (release : nat) (rest : Body)       (* inside [await fn()] *)
| Settled (release : nat) (ok : bool).        (* after [finally { release() }] *)

Record Config : Type := mkConfig {
  store : St;
  stateLock : nat;            (* the promise the variable [stateLock] holds *)
  resolved : gset nat;        (* the promises resolved so far *)
  tasks : list Task;          (* the calls, in the order they were made *)
  bodies : list Body          (* the callback each call was given *)
}.

Definition init (s : St) : Config := mkConfig s 0 {[ 0%nat ]} [] [].

Inductive Event : Type :=
| Call (fn : Body)          (* withStateLock(fn) up to [await prev] *)
| Resume (k : nat)          (* [await prev] is over: [fn()] starts *)
| Exec (k : nat)            (* the callback runs up to its next await *)
| Finish (k : nat).         (* the callback settles; [finally] releases *)

(** One step of the event loop; [None] when the event is not enabled. *)
Definition fire (ev : Event) (c : Config) : option Config :=
  match ev with
  | Call fn =>
      let prev := stateLock c in
      let release := S prev in
      Some (mkConfig (store c) release (resolved c)
              (tasks c ++ [Waiting prev release fn]) (bodies c ++ [fn]))
  | Resume k =>
      match tasks c !! k with
      | Some (Waiting prev release fn) =>
          if bool_decide (prev ∈ resolved c)
          then Some (mkConfig (store c) (stateLock c) (resolved c)
                       (<[k := Running release fn]> (tasks c)) (bodies c))
          else None
      | _ => None
      end
  | Exec k =>
      match tasks c !! k with
      | Some (Running release (Await step next)) =>
          Some (mkConfig (step (store c)) (stateLock c) (resolved c)
                  (<[k := Running release (next (store c))]> (tasks c)) (bodies c))
      | _ => None
      end
  | Finish k =>
      match tasks c !! k with
      | Some (Running release Return) =>
          Some (mkConfig (store c) (stateLock c) ({[ release ]} ∪ resolved c)
                  (<[k := Settled release true]> (tasks c)) (bodies c))
      | Some (Running release Raise) =>
          Some (mkConfig (store c) (stateLock c) ({[ release ]} ∪ resolved c)
                  (<[k := Settled release false]> (tasks c)) (bodies c))
      | _ => None
      end
  end.

(** A schedule: the events in the order the event loop takes them. *)
Fixpoint run (sched : list Event) (c : Config) : option Config :=
  match sched with
  | [] => Some c
  | ev :: rest =>
      match fire ev c with
      | Some c' => run rest c'
      | None => None
      end
  end.

(** A callback run alone, from start to end. *)
Fixpoint run_body (b : Body) (s : St) : St :=
  match b with
  | Return | Raise => s
  | Await step next => run_body (next s) (step s)
  end.

(** The callbacks run one after the other. *)
Definition serial (fns : list Body) (s : St) : St :=
  fold_left (fun s fn => run_body fn s) fns s.

(** The callbacks a schedule hands to [withStateLock], in order. *)
Definition callbacks (sched : list Event) : list Body :=
  omap (fun ev => match ev with Call fn => Some fn | _ => None end) sched.

Definition is_running (t : Task) : bool :=
  match t with Running _ _ => true | _ => false end.

Definition is_settled (t : Task) : bool :=
  match t with Settled _ _ => true | _ => false end.

Definition has_started (t : Task) : bool :=
  match t with Waiting _ _ _ => false | _ => true end.

(** The invariant of the lock, for a run that started from the store
    [s0]: [d] callbacks have settled, promises 0 to [d] are resolved, and
    the call at position [d], if any, holds the lock or is next to get
    it. [after d] is the store after the first [d] callbacks have run one
    after the other. *)
Definition after (s0 : St) (d : nat) (c : Config) : St :=
  serial (take d (bodies c)) s0.

Definition task_inv (s0 : St) (d : nat) (c : Config) (k : nat) (t : Task) : Prop :=
  ∃ fn, bodies c !! k = Some fn ∧
    match t with
    | Settled rel _ => (k < d)%nat ∧ rel = S k
    | Running rel rest =>
        k = d ∧ rel = S k
        ∧ run_body rest (store c) = run_body fn (after s0 d c)
    | Waiting prev rel fn' =>
        (d ≤ k)%nat ∧ prev = k ∧ rel = S k ∧ fn' = fn
        ∧ (k = d → store c = after s0 d c)
    end.

Definition inv_at (s0 : St) (d : nat) (c : Config) : Prop :=
  stateLock c = length (tasks c)
  ∧ length (bodies c) = length (tasks c)
  ∧ (d ≤ length (tasks c))%nat
  ∧ (∀ p, p ∈ resolved c ↔ (p ≤ d)%nat)
  ∧ (∀ k t, tasks c !! k = Some t → task_inv s0 d c k t)
  ∧ (d = length (tasks c) → store c = after s0 d c).

Definition inv (s0 : St) (c : Config) : Prop := ∃ d, inv_at s0 d c.

End Lock.

Arguments Body : clear implicits.
Arguments Task : clear implicits.
Arguments Config : clear implicits.
Arguments Event : clear implicits.

End Lock.

(** ** Vocabulary of the statements *)

Section Vocabulary.
Context `{Coercions}.

Definition has_field (e : Entry) (k : string) : bool :=
  existsb (fun p => String.eqb p.1 k) e.

Definition nonempty_string (v : JsVal) : bool :=
  match v with JStr s => negb (String.eqb s "") | _ => false end.

Definition is_finite_val (v : JsVal) : bool :=
  match v with JNum x => Num.isFinite x | _ => false end.

(** A well-formed entry: a non-empty string url; method [discard] and none
    of the three token fields, or method [page] and all three. *)
Definition entry_ok (e : Entry) : bool :=
  nonempty_string (assoc e "url")
  && (if strict_eq (assoc e "method") (JStr "discard")
      then negb (has_field e "token" || has_field e "tokenIssuedAt"
                 || has_field e "tokenUsed")
      else strict_eq (assoc e "method") (JStr "page")
           && has_field e "token" && has_field e "tokenIssuedAt"
           && has_field e "tokenUsed").

Definition tabs_ok (m : gmap string Entry) : Prop :=
  ∀ k e, m !! k = Some e → entry_ok e = true.


(** Every key is the decimal form of a tab id: a positive integer that a
    double holds exactly. *)
Definition tab_id_keys (m : gmap string Entry) : Prop :=
  ∀ k, is_Some (m !! k) → ∃ z, 0 < z ≤ 9007199254740991 ∧ k = int_key z.

(** A valid canonical state: ids that are positive integers, as tab ids
    are (up to 2^53 - 1, written in decimal digits), and entries with a
    non-empty string url. *)
Definition valid_entry (e : Entry) : Prop := nonempty_string (assoc e "url") = true.

Definition valid_state (st : State) : Prop :=
  ∀ k e, suspendedTabs st !! k = Some e →
         (∃ z, 0 < z ≤ 9007199254740991 ∧ k = int_key z) ∧ valid_entry e.

(** The entry after normalization. *)
Definition norm_entry (e : Entry) : Entry :=
  match Codec.normalizeEntry (JObj e) with
  | Ok (Some n) => n
  | _ => []
  end.

(** The older, keyed-object form of a state: the state object as it is. *)
Definition legacy_form (st : State) : JsVal :=
  JObj [("suspendedTabs",
         JObj (prod_map id JObj <$> map_to_list (suspendedTabs st)))].

End Vocabulary.

(** The vocabulary of the statements about the store and the token flow. *)

Section StoreVocabulary.
Context `{Coercions} `{Crypto}.

(** The entry with its token consumed, and the state that holds it. *)
Definition consume (e : Entry) : Entry := assoc_set e "tokenUsed" (JBool true).

Definition reserved (key : string) (st : State) (e : Entry) : State :=
  mkState (<[key := consume e]> (suspendedTabs st)).

(** [entry.tokenIssuedAt || entry.suspendedAt] *)
Definition issuedAt (e : Entry) : JsVal :=
  js_or (assoc e "tokenIssuedAt") (assoc e "suspendedAt").

(** The world after a [saveState(st)] that went through, [raw] being the
    encoded state. *)
Definition saved (st : State) (raw : JsVal) (w : World) : World :=
  let w1 := set_cachedState (Some st) w in
  if encryption_enabled (local_settings (storage w))
  then match cryptoKey w with
       | Some key =>
           set_storage
             (set_local_state (Some (PEncrypted (aes_encrypt key (entropy w) raw)))
                              (storage w))
             (set_entropy (S (entropy w)) w1)
       | None => w1
       end
  else set_storage (set_local_state (Some (PPlain raw)) (storage w)) w1.

(** Loads of the state and attempts to write it. *)
Inductive WriteAttempt : Type :=
| ALoad
| ASave (st : State)
| ASaveInternal (st : State)
| ATabRemoved (tabId : Z)
| AToken (resume : Z -> Entry -> M bool) (tabId : Z) (token : JsVal)
         (tokenTtlMs : JsNum) (now : World -> JsNum).

Inductive Outcome : Type :=
| OValue                     (* returned without a response *)
| ORaised (msg : string)
| OResponse (r : Response).

Definition outcome_of {A} (f : A -> Outcome) (r : Res A) : Outcome :=
  match r with
  | Ok a => f a
  | Throw msg => ORaised msg
  end.

Definition attempt (a : WriteAttempt) (w : World) : Outcome * World :=
  match a with
  | ALoad => let (r, w') := loadState w in (outcome_of (fun _ => OValue) r, w')
  | ASave st => let (r, w') := saveState st w in (outcome_of (fun _ => OValue) r, w')
  | ASaveInternal st =>
      let (r, w') := saveStateInternal st w in (outcome_of (fun _ => OValue) r, w')
  | ATabRemoved tabId =>
      let (r, w') := handleTabRemoved tabId w in (outcome_of (fun _ => OValue) r, w')
  | AToken resume tabId token ttl now =>
      let (r, w') := processUnsuspendTokenMessage resume tabId token ttl now w in
      (outcome_of OResponse r, w')
  end.

Fixpoint run_attempts (l : list WriteAttempt) (w : World) : list Outcome * World :=
  match l with
  | [] => ([], w)
  | a :: rest =>
      let (o, w') := attempt a w in
      let (os, w'') := run_attempts rest w' in
      (o :: os, w'')
  end.

(** The attempt was refused for the given reason: a write raised it, a
    handler answered with it, and a load or a silent handler returned. *)
Definition refused (reason : string) (a : WriteAttempt) (o : Outcome) : bool :=
  match a, o with
  | (ALoad | ATabRemoved _), OValue => true
  | (ASave _ | ASaveInternal _), ORaised msg => String.eqb msg reason
  | AToken _ _ _ _ _, OResponse (RespLocked r) => String.eqb r reason
  | _, _ => false
  end.

Fixpoint all_refused (reason : string) (l : list WriteAttempt) (os : list Outcome)
  : bool :=
  match l, os with
  | [], [] => true
  | a :: l', o :: os' => refused reason a o && all_refused reason l' os'
  | _, _ => false
  end.

(** A world marked corrupt whose cache is set. *)
Definition corrupt_inv (w : World) : Prop :=
  stateCorruptionReason w = Some "corrupt-state" ∧ is_Some (cachedState w).

End StoreVocabulary.

(** ** A concrete host, for evaluating the model *)

(** Every conversion that the model leaves to the host gives [NaN]; the
    examples convert plain integers only. *)
Definition plainCoercions : Coercions :=
  {| string_to_number := fun _ => NNaN;
     object_to_number := fun _ => NNaN;
     number_to_string := fun _ => "NaN" |}.

(** Keys are numbered; a ciphertext names the key that made it, and
    decrypting with another key fails. *)
Definition symbolicCrypto : Crypto :=
  {| Key := nat;
     Cipher := nat * JsVal;
     generateKey := fun n => n;
     aes_encrypt := fun k _ v => (k, v);
     aes_decrypt := fun k c =>
       if Nat.eqb k c.1 then Ok c.2 else Throw "OperationError";
     exportKeyBase64 := fun k => int_key (Z.of_nat k);
     importKeyBase64 := fun s =>
       match NilZero.int_of_string s with
       | Some d => Ok (Z.to_nat (Z.of_int d))
       | None => Throw "DataError"
       end;
     random_base64 := fun n => int_key (Z.of_nat n);
     base64_length := fun s => Ok (String.length s);
     wrap_key := fun _ _ k => int_key (Z.of_nat k);
     unwrap_key := fun _ _ enc =>
       match NilZero.int_of_string enc with
       | Some d => Ok (Z.to_nat (Z.of_int d))
       | None => Throw "OperationError"
       end;
     default_iterations := 600000 |}.

(** The scenario of the specification: entry 1 with token [t1] issued at
    1000, not used; time to live 100000; the time is 2000. *)
Definition demoEntry : Entry :=
  [("url", JStr "https://example.org/"); ("title", JStr "Example");
   ("windowId", JNum (NInt 1)); ("suspendedAt", JNum (NInt 1000));
   ("method", JStr "page"); ("reason", JStr "manual"); ("favIconUrl", JStr "");
   ("token", JStr "t1"); ("tokenIssuedAt", JNum (NInt 1000));
   ("tokenUsed", JBool false)].

Definition demoState : State := mkState {[ "1" := demoEntry ]}.

Definition demoSettings : Settings := mkSettings true false 600000.

Definition demoStorage : @Storage symbolicCrypto :=
  @mkStorage symbolicCrypto None None None None demoSettings None None.

Definition demoWorld : @World symbolicCrypto :=
  @mkWorld symbolicCrypto (Some 7%nat) false None (Some demoState) None []
    demoStorage 0 2000.

Definition demoTtl : JsNum := NInt 100000.
Definition demoNow : @World symbolicCrypto -> JsNum := fun w => NInt (clock w).

(** A resume that succeeds, one that fails, and one during which another
    handler replaces the entry of tab 1 by one with another token. *)
Definition resumeOk : Z -> Entry -> @M symbolicCrypto bool :=
  fun _ _ w => (Ok true, w).

Definition resumeFails : Z -> Entry -> @M symbolicCrypto bool :=
  fun _ _ w => (Ok false, w).


Definition otherEntry : Entry :=
  [("url", JStr "https://example.net/"); ("title", JStr "Other");
   ("windowId", JNum (NInt 1)); ("suspendedAt", JNum (NInt 1500));
   ("method", JStr "page"); ("reason", JStr "manual"); ("favIconUrl", JStr "");
   ("token", JStr "t2"); ("tokenIssuedAt", JNum (NInt 1500));
   ("tokenUsed", JBool false)].

Definition resumeWhileReplaced : Z -> Entry -> @M symbolicCrypto bool :=
  fun _ _ w => (Ok true, set_cachedState (Some (mkState {[ "1" := otherEntry ]})) w).



(** A world whose stored state was encrypted under another key, and a
    world marked corrupt. *)
Definition foreignStorage : @Storage symbolicCrypto :=
  @mkStorage symbolicCrypto (Some (@PEncrypted symbolicCrypto (8%nat, JNull)))
    None None None demoSettings None None.

Definition foreignWorld : @World symbolicCrypto :=
  @mkWorld symbolicCrypto (Some 7%nat) false None None None [] foreignStorage 0 2000.

Definition corruptWorld : @World symbolicCrypto :=
  @mkWorld symbolicCrypto (Some 7%nat) false None (Some emptyState)
    (Some "corrupt-state") [] foreignStorage 0 2000.

(** A key record wrapped under a passkey with 1000 iterations, and a
    record of a key kept in the clear. *)
Definition weakRecord : KeyRecord :=
  mkKeyRecord true None (Some "wrapped") (Some "0123456789abcdef")
    (Some "0123456789ab") (Some 1000) false 1 0.

Definition clearRecord : KeyRecord :=
  mkKeyRecord false (Some "7") None None None None false 1 0.

Definition clearKeyWorld : @World symbolicCrypto :=
  @mkWorld symbolicCrypto (Some 7%nat) false None (Some emptyState) None []
    (@mkStorage symbolicCrypto None None (Some clearRecord) None demoSettings
       (Some 7%nat) None)
    0 2000.

(** Two handlers that each read the counter, await, and write back one
    more than they read (the read-modify-write that loses an update
    without the lock), and a schedule that runs them under it. *)
Definition increment : Lock.Body nat :=
  Lock.Await (fun s => s) (fun seen => Lock.Await (fun _ => S seen) (fun _ => Lock.Return)).

Definition twoIncrements : list (Lock.Event nat) :=
  [Lock.Call increment; Lock.Call increment;
   Lock.Resume 0; Lock.Exec 0; Lock.Exec 0; Lock.Finish 0;
   Lock.Resume 1; Lock.Exec 1; Lock.Exec 1; Lock.Finish 1].

(** Unfolds the operations of the monad and the small accessors. *)
Ltac munfold :=
  cbv [bind gets modify throw ret lift try_catch update_storage withStateLock
       ensureSettings saveSettings getCryptoKey isEncryptionLocked
       getEncryptionLockReason markEncryptionLocked saveKeyToSession
       clearSessionKey persistKeyRecord loadKeyRecord clearKeyRecords
       markStateCorrupt clearStateCorruption clearLegacyPendingState
       clearSnapshotDetailsCache encryptPayload decryptPayload
       ensurePlaceholder readCache];
  simpl.

(** * More of the extension

    Key management, snapshots and the other handlers, with the hosts and
    the vocabulary of their statements. *)

(** A version 2 payload as stored: tab 7 parked on a page, tab 3
    discarded, and a tuple too short to be read. *)
Definition demoPayload : JsVal :=
  JObj [("v", JNum (NInt 2));
        ("tabs",
         JArr [JArr [JNum (NInt 7); JStr "https://example.org/a"; JStr "A";
                     JNum (NInt 1); JNum (NInt 1000); JNum (NInt 1); JStr "manual";
                     JStr "t7"; JNum (NInt 1000); JNum (NInt 0); JStr ""];
               JArr [JNum (NInt 3); JStr "https://example.org/b"; JStr "B";
                     JNum (NInt 1); JNum (NInt 900); JNum (NInt 0); JStr "auto";
                     JStr ""; JNum (NInt 0); JNum (NInt 0); JStr ""];
               JArr [JNum (NInt 9); JStr "https://example.org/c"]])].

(** The state that payload decodes to. *)
Definition demoDecoded : State :=
  mkState
    (<[ "7" := [("url", JStr "https://example.org/a"); ("title", JStr "A");
                ("windowId", JNum (NInt 1)); ("suspendedAt", JNum (NInt 1000));
                ("method", JStr "page"); ("reason", JStr "manual");
                ("favIconUrl", JStr ""); ("token", JStr "t7");
                ("tokenIssuedAt", JNum (NInt 1000)); ("tokenUsed", JBool false)] ]>
     (<[ "3" := [("url", JStr "https://example.org/b"); ("title", JStr "B");
                 ("windowId", JNum (NInt 1)); ("suspendedAt", JNum (NInt 900));
                 ("method", JStr "discard"); ("reason", JStr "auto");
                 ("favIconUrl", JStr "")] ]> ∅)).

(** ** encryption.js: the remaining key management *)

Section KeyManagement.
Context `{Coercions} `{Crypto}.

(** [restoreKeyFromSession()]: [import_jwk] is the import of the stored
    jwk, which may reject; a failure is only logged. *)
Definition restoreKeyFromSession (import_jwk : Key -> Res Key) : M unit :=
  try_catch
    (let! jwk := gets (fun w => session_cryptoKey (storage w)) in
     match jwk with
     | Some jwk =>
         let! key := lift (import_jwk jwk) in
         modify (set_cryptoKey (Some key)) ;;
         modify (set_encryptionLock false None)
     | None => ret tt
     end)
    (ret tt).

(** [{ ...settings, encryption: { ...settings.encryption,
    cloudBackupEnabled: false } }] *)
Definition withoutCloudBackup (settings : Settings) : Settings :=
  mkSettings (encryption_enabled settings) false (encryption_iterations settings).

(** [record.cloudBackupEnabled = value] *)
Definition set_cloudBackupEnabled (value : bool) (r : KeyRecord) : KeyRecord :=
  mkKeyRecord (usingPasskey r) (dataKey r) (encryptedKey r) (keySalt r) (keyIV r)
    (iterations r) value (keyVersion r) (updatedAt r).

(** [retryImportPlaintextKey()] *)
Definition retryImportPlaintextKey : M Response :=
  let! settings := ensureSettings in
  let! record := loadKeyRecord (encryption_cloudBackupEnabled settings) in
  match record with
  | None => ret (RespError "no-plaintext-record")
  | Some record =>
      if usingPasskey record || negb (nonempty (dataKey record))
      then ret (RespError "no-plaintext-record")
      else
        try_catch
          (let! key := lift (importKeyBase64 (default "" (dataKey record))) in
           modify (set_cryptoKey (Some key)) ;;
           modify (set_encryptionLock false None) ;;
           saveKeyToSession key ;;
           ret RespOk)
          (markEncryptionLocked (Some "corrupt-key") ;;
           ret (RespError "corrupt-key"))
  end.

(** [initializeEncryption()] *)
Definition initializeEncryption (import_jwk : Key -> Res Key) : M unit :=
  let! settings := ensureSettings in
  let! key := getCryptoKey in
  (if bool_decide (is_Some key) then ret tt else restoreKeyFromSession import_jwk) ;;
  let! key := getCryptoKey in
  if bool_decide (is_Some key) then modify (set_encryptionLock false None)
  else
    let! record := loadKeyRecord (encryption_cloudBackupEnabled settings) in
    match record with
    | None =>
        generateAndPersistDataKey (encryption_cloudBackupEnabled settings) ;;
        ret tt
    | Some record =>
        if usingPasskey record
        then if nonempty (encryptedKey record) && nonempty (keySalt record)
                && nonempty (keyIV record)
             then markEncryptionLocked (Some "passkey-required")
             else markEncryptionLocked (Some "corrupt-key")
        else if nonempty (dataKey record)
        then try_catch
               (let! key := lift (importKeyBase64 (default "" (dataKey record))) in
                modify (set_cryptoKey (Some key)) ;;
                modify (set_encryptionLock false None) ;;
                saveKeyToSession key ;;
                (if encryption_cloudBackupEnabled settings
                 then saveSettings (withoutCloudBackup settings)
                 else ret tt) ;;
                (if cloudBackupEnabled record
                 then persistKeyRecord (set_cloudBackupEnabled false record) ;; ret tt
                 else ret tt))
               (markEncryptionLocked (Some "corrupt-key"))
        else markEncryptionLocked (Some "corrupt-key")
    end.

(** [setPasskey(passkey)] *)
Definition setPasskey (passkey : string) : M Response :=
  if String.eqb passkey "" then ret (RespError "missing-passkey")
  else
    let! locked := isEncryptionLocked in
    let! key := getCryptoKey in
    if locked || negb (bool_decide (is_Some key)) then ret (RespError "locked")
    else
      let! settings := ensureSettings in
      let! wrapped := wrapDataKey passkey in
      let! now := gets clock in
      persistKeyRecord
        (mkKeyRecord true None (Some (w_encryptedKey wrapped))
           (Some (w_keySalt wrapped)) (Some (w_keyIV wrapped))
           (Some (w_iterations wrapped))
           (encryption_cloudBackupEnabled settings) KEY_VERSION now) ;;
      ret RespOk.

(** [removePasskey()] *)
Definition removePasskey : M Response :=
  let! locked := isEncryptionLocked in
  let! key := getCryptoKey in
  match key with
  | Some key =>
      if locked then ret (RespError "locked")
      else
        let! settings := ensureSettings in
        (if encryption_cloudBackupEnabled settings
         then saveSettings (withoutCloudBackup settings)
         else ret tt) ;;
        let! now := gets clock in
        persistKeyRecord (plaintextRecord (exportKeyBase64 key) false now) ;;
        ret RespOk
  | None => ret (RespError "locked")
  end.

(** What [getEncryptionStatusPayload] returns. *)
Record EncryptionStatus : Type := mkEncryptionStatus {
  status_locked : bool;
  status_reason : option string;
  status_usingPasskey : bool;
  status_cloudBackupEnabled : bool;
  status_syncEligible : bool;
  status_syncBlockedReason : option string;
  status_hasKeyRecord : bool
}.

(** [getEncryptionStatusPayload(settings, record)] *)
Definition getEncryptionStatusPayload (settings : Settings) (record : option KeyRecord)
    (w : World) : EncryptionStatus :=
  let passkey := match record with Some r => usingPasskey r | None => false end in
  let locked := encryptionLocked w || (negb (bool_decide (is_Some (cryptoKey w))) && passkey) in
  let syncEligible :=
    match record with
    | Some r => cloudBackupEnabled r && usingPasskey r
    | None => false
    end in
  mkEncryptionStatus
    locked
    (if locked
     then if nonempty (encryptionLockReason w) then encryptionLockReason w
          else if passkey then Some "passkey-required" else None
     else None)
    passkey
    (encryption_cloudBackupEnabled settings)
    syncEligible
    (if encryption_cloudBackupEnabled settings && negb syncEligible
     then Some "passkey-required" else None)
    (bool_decide (is_Some record)).

(** The [GET_ENCRYPTION_STATUS] case of [handleMessage]. *)
Definition handleGetEncryptionStatus : M EncryptionStatus :=
  let! settings := ensureSettings in
  let! record := loadKeyRecord (encryption_cloudBackupEnabled settings) in
  gets (getEncryptionStatusPayload settings record).

(** [result?.ok] *)
Definition response_ok (r : Response) : bool :=
  match r with RespOk | RespSkipped _ => true | _ => false end.

(** [unlockAndReconcile(passkey)] of background.js *)
Definition unlockAndReconcile (passkey : string) : M Response :=
  let! result := unlockWithPasskey passkey in
  if response_ok result
  then reconcilePendingStateAfterUnlock ;;
       let! corrupt := gets stateIsCorrupt in
       if corrupt then ret (RespError "corrupt-state") else ret result
  else ret result.

(** The [RETRY_IMPORT_KEY] case of [handleMessage]. *)
Definition handleRetryImportKey : M Response :=
  let! result := retryImportPlaintextKey in
  (if response_ok result then reconcilePendingStateAfterUnlock else ret tt) ;;
  ret result.

(** The key-management requests a page can send, and [init]. *)
Inductive KeyOp : Type :=
| OpInitialize (import_jwk : Key -> Res Key)
| OpUnlock (passkey : string)
| OpRetryImport
| OpSetPasskey (passkey : string)
| OpRemovePasskey
| OpSetCloudBackup (enabled : bool)
| OpReset.

Definition run_key_op (op : KeyOp) (w : World) : World :=
  match op with
  | OpInitialize import_jwk => (initializeEncryption import_jwk w).2
  | OpUnlock passkey => (unlockAndReconcile passkey w).2
  | OpRetryImport => (handleRetryImportKey w).2
  | OpSetPasskey passkey => (setPasskey passkey w).2
  | OpRemovePasskey => (removePasskey w).2
  | OpSetCloudBackup enabled => (setCloudBackupEnabled enabled w).2
  | OpReset => (resetEncryption w).2
  end.

Definition run_key_ops (ops : list KeyOp) (w : World) : World :=
  fold_left (fun w op => run_key_op op w) ops w.

(** The sync area holds no key record, or one that is wrapped under a
    passkey and marked for cloud backup. *)
Definition sync_guarded (w : World) : Prop :=
  ∀ r, sync_keyRecord (storage w) = Some r →
       usingPasskey r = true ∧ cloudBackupEnabled r = true.

(** The record [setPasskey(passkey)] builds in world [w] for the key
    [key]: the fields [wrapDataKey] returns, and the stored preference. *)
Definition wrappedRecord (passkey : string) (key : Key) (w : World) : KeyRecord :=
  let n := encryption_iterations (local_settings (storage w)) in
  let salt := random_base64 (entropy w) in
  let iv := random_base64 (S (entropy w)) in
  mkKeyRecord true None
    (Some (wrap_key (deriveWrappingKey passkey salt (Some n) true) iv key))
    (Some salt) (Some iv) (Some n)
    (encryption_cloudBackupEnabled (local_settings (storage w))) KEY_VERSION (clock w).

(** What an operation may do to the sync area: leave it, empty it, or
    store a guarded record. *)
Definition sync_step (w w' : World) : Prop :=
  sync_keyRecord (storage w') = sync_keyRecord (storage w)
  ∨ sync_keyRecord (storage w') = None
  ∨ ∃ r, sync_keyRecord (storage w') = Some r
         ∧ usingPasskey r = true ∧ cloudBackupEnabled r = true.

End KeyManagement.

(** A host whose salts and ivs have the lengths the record check asks
    for, and whose wrapped key opens only under the wrapping key that made
    it. *)
Definition wrapping_tag (wk : WrappingKey) : string :=
  wk_passkey wk +:+ "/" +:+ wk_salt wk +:+ "/" +:+ int_key (wk_iterations wk) +:+ "/".

Definition authenticCrypto : Crypto :=
  {| Key := nat;
     Cipher := nat * JsVal;
     generateKey := fun n => n;
     aes_encrypt := fun k _ v => (k, v);
     aes_decrypt := fun k c =>
       if Nat.eqb k c.1 then Ok c.2 else Throw "OperationError";
     exportKeyBase64 := fun k => int_key (Z.of_nat k);
     importKeyBase64 := fun s =>
       match NilZero.int_of_string s with
       | Some d => Ok (Z.to_nat (Z.of_int d))
       | None => Throw "DataError"
       end;
     random_base64 := fun n =>
       if Nat.even n then "0123456789abcdef" else "0123456789ab";
     base64_length := fun s => Ok (String.length s);
     wrap_key := fun wk _ k => wrapping_tag wk +:+ int_key (Z.of_nat k);
     unwrap_key := fun wk _ enc =>
       let tag := wrapping_tag wk in
       if String.prefix tag enc
       then match NilZero.int_of_string
                    (String.substring (String.length tag)
                       (String.length enc - String.length tag) enc) with
            | Some d => Ok (Z.to_nat (Z.of_int d))
            | None => Throw "OperationError"
            end
       else Throw "OperationError";
     default_iterations := 600000 |}.

(** An unlocked world with key 7 kept in the clear, for the given
    iteration count of the settings. *)
Definition keyWorld (iterations : Z) : @World authenticCrypto :=
  @mkWorld authenticCrypto (Some 7%nat) false None (Some emptyState) None []
    (@mkStorage authenticCrypto None None
       (Some (mkKeyRecord false (Some "7") None None None None false 1 0))
       None (mkSettings true false iterations) (Some 7%nat) None)
    0 2000.

(** The same world after a restart: the key is gone from memory and from
    the session. *)
Definition restarted (w : @World authenticCrypto) : @World authenticCrypto :=
  @mkWorld authenticCrypto None false None None None []
    (@set_session_cryptoKey authenticCrypto None (storage w)) (entropy w) (clock w).

(** ** background.js: snapshots and the cache of snapshot details *)

Section Snapshots.
Context `{Coercions} `{Crypto}.

Definition SNAPSHOT_RETENTION_DAYS : Z := 7.
Definition SNAPSHOT_MAX : nat := 20.
Definition SNAPSHOT_DETAILS_CACHE_LIMIT : nat := 10.

(** [Date.now() - SNAPSHOT_RETENTION_DAYS * 24 * 60 * 60 * 1000] *)
Definition snapshot_cutoff (now : Z) : Z :=
  now - SNAPSHOT_RETENTION_DAYS * 24 * 60 * 60 * 1000.

(** [filtered.sort((a, b) => (b.timestamp || 0) - (a.timestamp || 0))]:
    the sort is stable, so a snapshot goes before the first one that is
    not newer than it. *)
Fixpoint insert_newest_first (s : Snapshot) (l : list Snapshot) : list Snapshot :=
  match l with
  | [] => [s]
  | t :: r =>
      if snap_timestamp s <? snap_timestamp t
      then t :: insert_newest_first s r
      else s :: l
  end.

Definition sort_newest_first (l : list Snapshot) : list Snapshot :=
  foldr insert_newest_first [] l.

(** [pruneSnapshots(list)] at time [now] *)
Definition pruneSnapshots (now : Z) (snapshots : list Snapshot) : list Snapshot :=
  let cutoff := snapshot_cutoff now in
  let filtered := filter (fun item => cutoff <= snap_timestamp item) snapshots in
  take SNAPSHOT_MAX (sort_newest_first filtered).

(** [backups.find(b => b.id === snapshotId)] *)
Definition find_snapshot (snapshotId : string) (backups : list Snapshot)
  : option Snapshot :=
  List.find (fun b => String.eqb (snap_id b) snapshotId) backups.

(** [getSnapshotById(snapshotId)] *)
Definition getSnapshotById (snapshotId : string) : M (option Snapshot) :=
  let! stored := gets (fun w => default [] (local_backups (storage w))) in
  let! now := gets clock in
  let backups := pruneSnapshots now stored in
  let snapshot := find_snapshot snapshotId backups in
  (if negb (length backups =? length stored)%nat
   then update_storage (set_local_backups (Some backups)) ;;
        clearSnapshotDetailsCache
   else ret tt) ;;
  ret snapshot.

(** [SnapshotService.getSnapshots()], in a run where no other holder of
    the snapshot lock is in flight: the summaries [{ id, timestamp,
    tabCount }]. *)
Definition getSnapshots : M (list (string * Z * nat)) :=
  let! stored := gets (fun w => default [] (local_backups (storage w))) in
  let! now := gets clock in
  let pruned := pruneSnapshots now stored in
  (if negb (length pruned =? length stored)%nat
   then update_storage (set_local_backups (Some pruned)) ;;
        clearSnapshotDetailsCache
   else ret tt) ;;
  ret ((fun b => (snap_id b, snap_timestamp b, snap_tabCount b)) <$> pruned).

(** [getSnapshotData(snapshot)] *)
Definition getSnapshotData (snapshot : option Snapshot) : M State :=
  match snapshot with
  | None => throw "Snapshot missing data"
  | Some snapshot =>
      match snap_data snapshot with
      | PEncrypted c =>
          let! state := decryptPayload c in
          lift (Codec.decodeStateAny state)
      | PPlain encoded =>
          if js_truthy encoded then lift (Codec.decodeStateAny encoded)
          else throw "Invalid snapshot format"
      end
  end.

(** [cloneSuspendedTabsMap(tabsMap)]: a copy of the map and of its
    entries; as a value, the map. *)
Definition cloneSuspendedTabsMap (tabsMap : gmap string Entry) : gmap string Entry :=
  tabsMap.

(** The operations of the JavaScript [Map] that holds the cache, on the
    list of its entries in insertion order. *)
Definition cache_get (c : list (string * gmap string Entry)) (k : string)
  : option (gmap string Entry) :=
  snd <$> List.find (fun p => String.eqb p.1 k) c.

Definition cache_delete (c : list (string * gmap string Entry)) (k : string)
  : list (string * gmap string Entry) :=
  List.filter (fun p => negb (String.eqb p.1 k)) c.

(** [Map.prototype.set]: an existing key keeps its place. *)
Fixpoint cache_set (c : list (string * gmap string Entry)) (k : string)
    (v : gmap string Entry) : list (string * gmap string Entry) :=
  match c with
  | [] => [(k, v)]
  | (k', v') :: r =>
      if String.eqb k' k then (k, v) :: r else (k', v') :: cache_set r k v
  end.

(** [while (cache.size > LIMIT) cache.delete(cache.keys().next().value)];
    the fuel bounds the iterations, and the size does. *)
Fixpoint evict_oldest (fuel : nat) (c : list (string * gmap string Entry))
  : list (string * gmap string Entry) :=
  match fuel with
  | O => c
  | S fuel =>
      if (SNAPSHOT_DETAILS_CACHE_LIMIT <? length c)%nat
      then match c with
           | (oldestKey, _) :: _ => evict_oldest fuel (cache_delete c oldestKey)
           | [] => c
           end
      else c
  end.

(** [readSnapshotDetailsCache(snapshotId)] *)
Definition readSnapshotDetailsCache (snapshotId : string)
  : M (option (gmap string Entry)) :=
  let! c := gets snapshotDetailsCache in
  match cache_get c snapshotId with
  | None => ret None
  | Some cached =>
      modify (set_snapshotDetailsCache
                (cache_set (cache_delete c snapshotId) snapshotId cached)) ;;
      ret (Some (cloneSuspendedTabsMap cached))
  end.

(** [setSnapshotDetailsCache(snapshotId, tabsMap)] *)
Definition setSnapshotDetailsCache (snapshotId : string) (tabsMap : gmap string Entry)
  : M unit :=
  modify (fun w =>
    let c := cache_set (snapshotDetailsCache w) snapshotId
               (cloneSuspendedTabsMap tabsMap) in
    set_snapshotDetailsCache (evict_oldest (length c) c) w).

(** [try { m } catch (err) { h(err.message) }] *)
Definition try_catch_with {A} (m : M A) (h : string -> M A) : M A :=
  fun w => match m w with
           | (Ok a, w') => (Ok a, w')
           | (Throw msg, w') => h msg w'
           end.

(** The answers to [GET_SNAPSHOT_DETAILS]. *)
Inductive DetailsResponse : Type :=
| DetailsTabs (tabs : gmap string Entry)       (* { ok: true, tabs } *)
| DetailsError (error : string)                (* { ok: false, error } *)
| DetailsLocked (reason : option string).      (* { ok: false, locked: true, reason } *)

(** The [GET_SNAPSHOT_DETAILS] case of [handleMessage]. *)
Definition handleGetSnapshotDetails (snapshotId : string) : M DetailsResponse :=
  let! locked := gets stateIsLocked in
  if locked
  then let! reason := getEncryptionLockReason in ret (DetailsLocked reason)
  else
    try_catch_with
      (let! cachedTabs := readSnapshotDetailsCache snapshotId in
       match cachedTabs with
       | Some tabs => ret (DetailsTabs tabs)
       | None =>
           let! snapshot := getSnapshotById snapshotId in
           match snapshot with
           | None => ret (DetailsError "not-found")
           | Some s =>
               let! state := getSnapshotData (Some s) in
               setSnapshotDetailsCache (snap_id s) (suspendedTabs state) ;;
               ret (DetailsTabs (suspendedTabs state))
           end
       end)
      (fun msg => ret (DetailsError msg)).

(** The uses of the cache, and a run of them from the empty cache. *)
Inductive CacheOp : Type :=
| CacheSet (snapshotId : string) (tabsMap : gmap string Entry)
| CacheRead (snapshotId : string)
| CacheClear.

Definition run_cache_op (op : CacheOp) (w : World) : World :=
  match op with
  | CacheSet snapshotId tabsMap => (setSnapshotDetailsCache snapshotId tabsMap w).2
  | CacheRead snapshotId => (readSnapshotDetailsCache snapshotId w).2
  | CacheClear => (clearSnapshotDetailsCache w).2
  end.

Definition run_cache_ops (ops : list CacheOp) (w : World) : World :=
  fold_left (fun w op => run_cache_op op w) ops w.

(** The cache holds no id twice and at most the limit. *)
Definition cache_ok (c : list (string * gmap string Entry)) : Prop :=
  NoDup c.*1 ∧ (length c ≤ SNAPSHOT_DETAILS_CACHE_LIMIT)%nat.

(** Newest first: no snapshot is older than one that follows it. *)
Definition newest_first (l : list Snapshot) : Prop :=
  StronglySorted (fun a b => snap_timestamp b <= snap_timestamp a) l.

(** Within the retention period at time [now]. *)
Definition retained (now : Z) (s : Snapshot) : Prop :=
  snapshot_cutoff now <= snap_timestamp s.

End Snapshots.

(** Twenty-one plain snapshots, numbered by their time stamps 0 to 20,
    oldest first. *)
Definition manySnapshots : list (@Snapshot symbolicCrypto) :=
  (fun n => @mkSnapshot symbolicCrypto (int_key (Z.of_nat n)) (Z.of_nat n) 0
              (@PPlain symbolicCrypto JNull))
  <$> seq 0 21.

(** A snapshot of the scenario's state, encrypted under key 7, and the
    world of the scenario with that snapshot stored. *)
Definition demoSnapshot : @Snapshot symbolicCrypto :=
  @mkSnapshot symbolicCrypto "s1" 1500 1
    (@PEncrypted symbolicCrypto
       (7%nat,
        match @Codec.encodeStateV2 plainCoercions demoState with
        | Ok raw => raw
        | Throw _ => JNull
        end)).

Definition snapshotWorld : @World symbolicCrypto :=
  @set_storage symbolicCrypto
    (@set_local_backups symbolicCrypto (Some [demoSnapshot]) demoStorage) demoWorld.

(** Twelve stores of details, for the snapshots numbered 0 to 11. *)
Definition twelveStores : list CacheOp :=
  (fun n => CacheSet (int_key (Z.of_nat n)) ∅) <$> seq 0 12.

(** ** background.js: validation against the open tabs, resuming, and
    the snapshots of the state *)

(** A tab as [chrome.tabs.query] reports it; [tab_url] is [None] when
    the url is withheld from the extension. *)
Record Tab : Type := mkTab {
  tab_id : Z;
  tab_url : option string;
  tab_incognito : bool;
  tab_discarded : bool
}.

Section Validation.
Context `{Coercions} `{Crypto}.

(** What the browser answers. *)
Record Host : Type := mkHost {
  tabs_query : M (list Tab);                (* chrome.tabs.query({}) *)
  suspended_page : string;                  (* chrome.runtime.getURL('suspended.html') *)
  url_protocol : string -> option string;   (* new URL(url).protocol; None when it throws *)
  random_uuid : nat -> string               (* crypto.randomUUID() *)
}.

(** The keys and entries of [state.suspendedTabs] in the order in which
    [Object.keys] and [Object.entries] list them: integer keys ascending.
    The keys of the state are tab ids; keys of another form, which only a
    legacy payload can bring, follow the same numeric order here, where
    JavaScript has them in insertion order. *)
Definition state_entries (state : State) : list (string * Entry) :=
  merge_sort Codec.key_order (map_to_list (suspendedTabs state)).

(** [isSafeUrl(url)] *)
Definition SAFE_PROTOCOLS : list string := ["http:"; "https:"; "file:"; "ftp:"].

Definition isSafeUrl (host : Host) (url : JsVal) : bool :=
  match url with
  | JStr s =>
      if String.eqb s "" then false
      else match url_protocol host s with
           | Some protocol => bool_decide (protocol ∈ SAFE_PROTOCOLS)
           | None => false
           end
  | _ => false
  end.

(** [new Map(allTabs.map(t => [t.id, t])).get(tabId)]: the last tab of
    that id; tab ids are integers. *)
Definition tab_lookup (allTabs : list Tab) (tabId : JsNum) : option Tab :=
  match tabId with
  | NInt z => last (filter (fun t => tab_id t = z) allTabs)
  | _ => None
  end.

(** The loop of [validateState] over the tab ids: the state after the
    deletions made so far, and [changed] or the exception raised. *)
Fixpoint validate_entries (host : Host) (allTabs : list Tab) (keys : list string)
    (state : State) (changed : bool) : Res bool * State :=
  match keys with
  | [] => (Ok changed, state)
  | key :: rest =>
      let tabId := StringToNumber key in
      let prop := number_key tabId in
      let prune := validate_entries host allTabs rest (deleteEntry prop state) true in
      match tab_lookup allTabs tabId with
      | None => prune
      | Some tab =>
          if tab_incognito tab then prune
          else
            match suspendedTabs state !! prop with
            | None => (Throw "TypeError", state)               (* entry.url *)
            | Some entry =>
                if negb (isSafeUrl host (assoc entry "url")) then prune
                else if strict_eq (assoc entry "method") (JStr "discard")
                then if negb (tab_discarded tab) then prune
                     else validate_entries host allTabs rest state changed
                else if strict_eq (assoc entry "method") (JStr "page")
                then match tab_url tab with
                     | None => (Throw "TypeError", state)      (* tab.url.startsWith *)
                     | Some url =>
                         if negb (String.prefix (suspended_page host) url) then prune
                         else validate_entries host allTabs rest state changed
                     end
                else prune
            end
      end
  end.

(** [validateState(state)]. At each of its call sites [state] is the
    object [cachedState] refers to, so the deletions made before an
    exception show in the cache. *)
Definition validateState (host : Host) (state : State) : M unit :=
  let tabIds := (state_entries state).*1 in
  if bool_decide (tabIds = []) then ret tt
  else
    let! allTabs := tabs_query host in
    match validate_entries host allTabs tabIds state false with
    | (Ok changed, state') => if changed then saveState state' else ret tt
    | (Throw msg, state') => modify (set_cachedState (Some state')) ;; throw msg
    end.

(** ** Resuming *)

(** [resumeSuspendedTab] on the number [Number(tabIdStr)]: chrome.tabs
    rejects an id that is not an integer, and the rejection is caught. *)
Definition resumeSuspendedTabAt (api : TabsApi) (tabId : JsNum) (entry : Entry)
    (focus reloadIfDiscarded : bool) : M bool :=
  match tabId with
  | NInt z => resumeSuspendedTab api z (Some entry) focus reloadIfDiscarded
  | _ =>
      if strict_eq (assoc entry "method") (JStr "discard")
         && negb focus && negb reloadIfDiscarded
      then ret true else ret false
  end.

(** The [RESUME_TAB] case of [handleMessage]. *)
Definition handleResumeTab (api : TabsApi) (tabId : JsVal) : M Response :=
  let! writable := gets stateIsWritable in
  if negb writable then gets (lockedMutationResponse false)
  else
    (match tabId with
     | JNum (NInt z) =>
         withStateLock
           (let! writable := gets stateIsWritable in
            if negb writable then ret tt
            else
              let! state := loadState in
              match suspendedTabs state !! number_key (NInt z) with
              | Some entry =>
                  let! resumed := resumeSuspendedTab api z (Some entry) true false in
                  if resumed then saveState (deleteEntry (number_key (NInt z)) state)
                  else ret tt
              | None =>
                  try_catch (tabs_activate api z ;; ret tt) (ret tt)
              end)
     | _ => ret tt
     end) ;;
    ret RespOk.

(** The loop of the [RESUME_ALL] case over the entries listed before it
    starts; [state] is the loaded object. *)
Fixpoint resume_entries (api : TabsApi) (entries : list (string * Entry))
    (state : State) : M State :=
  match entries with
  | [] => ret state
  | (tabIdStr, entry) :: rest =>
      let tabId := StringToNumber tabIdStr in
      let! resumed := resumeSuspendedTabAt api tabId entry false true in
      resume_entries api rest
        (if resumed then deleteEntry (number_key tabId) state else state)
  end.

(** The [RESUME_ALL] case of [handleMessage]. *)
Definition handleResumeAll (api : TabsApi) : M Response :=
  let! writable := gets stateIsWritable in
  if negb writable then gets (lockedMutationResponse false)
  else
    withStateLock
      (let! writable := gets stateIsWritable in
       if negb writable then ret tt
       else
         let! state := loadState in
         let! state' := resume_entries api (state_entries state) state in
         saveState state') ;;
    ret RespOk.

(** ** Snapshots of the state *)

Definition is_encrypted (p : Payload) : bool :=
  match p with PEncrypted _ => true | PPlain _ => false end.

(** The second part of [SnapshotService.createSnapshot()], once the
    state lock is released: the snapshot of [state] is built and stored. *)
Definition storeSnapshot (host : Host) (state : State) : M unit :=
  if bool_decide (suspendedTabs state = ∅) then ret tt
  else
    let! encodedState := lift (Codec.encodeStateV2 state) in
    let! settings := ensureSettings in
    let! locked := gets stateIsLocked in
    if encryption_enabled settings && locked then ret tt
    else
      let! snapshotData :=
        (if encryption_enabled settings then encryptPayload encodedState
         else ret (PPlain encodedState)) in
      let! n := gets entropy in
      modify (set_entropy (S n)) ;;
      let! now := gets clock in
      let snapshot :=
        mkSnapshot (random_uuid host n) now (size (suspendedTabs state))
          snapshotData in
      let! existing := gets (fun w => default [] (local_backups (storage w))) in
      let backups := pruneSnapshots now (existing ++ [snapshot]) in
      update_storage (set_local_backups (Some backups)) ;;
      clearSnapshotDetailsCache.

(** [SnapshotService.createSnapshot()], in a run where no other holder of
    the snapshot lock is in flight. The object [loadState] returned is the
    cached one, with the deletions of [validateState]. *)
Definition createSnapshot (host : Host) : M unit :=
  try_catch
    (let! state :=
       withStateLock
         (let! loaded := loadState in
          validateState host loaded ;;
          readCache) in
     storeSnapshot host state)
    (ret tt).

(** [SnapshotService.restoreSnapshot(snapshotId)] *)
Definition restoreSnapshot (host : Host) (snapshotId : string) : M bool :=
  withStateLock
    (let! backups := gets (fun w => default [] (local_backups (storage w))) in
     match find_snapshot snapshotId backups with
     | None => throw "Snapshot not found"
     | Some snapshot =>
         let! locked := gets stateIsLocked in
         if is_encrypted (snap_data snapshot) && locked
         then throw "Encryption key required to restore this snapshot"
         else
           let! restoredState := getSnapshotData (Some snapshot) in
           modify (set_cachedState (Some restoredState)) ;;
           validateState host restoredState ;;
           let! cached := readCache in
           saveState cached ;;
           clearSnapshotDetailsCache
     end) ;;
  ret true.

(** The answers to [RESTORE_SNAPSHOT]. *)
Inductive RestoreResponse : Type :=
| RestoreOk                                    (* { ok: true } *)
| RestoreError (error : string)                (* { ok: false, error } *)
| RestoreLocked (reason : option string).      (* { ok: false, locked: true, reason } *)

(** The [RESTORE_SNAPSHOT] case of [handleMessage]. *)
Definition handleRestoreSnapshot (host : Host) (snapshotId : string)
  : M RestoreResponse :=
  let! locked := gets stateIsLocked in
  if locked
  then let! reason := getEncryptionLockReason in ret (RestoreLocked reason)
  else
    try_catch_with
      (restoreSnapshot host snapshotId ;; ret RestoreOk)
      (fun msg => ret (RestoreError msg)).

(** ** Vocabulary of the statements *)

(** The open tabs confirm the entry under [key]: its tab is open and not
    incognito, its url is safe, and the tab is in the form the entry's
    method says. *)
Definition confirmed (host : Host) (allTabs : list Tab) (key : string) (entry : Entry)
  : bool :=
  match tab_lookup allTabs (StringToNumber key) with
  | None => false
  | Some tab =>
      negb (tab_incognito tab)
      && isSafeUrl host (assoc entry "url")
      && (if strict_eq (assoc entry "method") (JStr "discard") then tab_discarded tab
          else if strict_eq (assoc entry "method") (JStr "page")
          then match tab_url tab with
               | Some url => String.prefix (suspended_page host) url
               | None => false
               end
          else false)
  end.

(** The entries of a state that the open tabs confirm. *)
Definition confirmed_part (host : Host) (allTabs : list Tab) (state : State) : State :=
  mkState (filter (fun p => confirmed host allTabs p.1 p.2 = true) (suspendedTabs state)).

(** The browser lists its tabs without touching the extension's own
    variables and storage. *)
Definition query_outside (host : Host) : Prop :=
  ∀ w, (tabs_query host w).2 = w.


(** Every open tab reports its url. *)
Definition urls_known (allTabs : list Tab) : Prop :=
  Forall (fun t => is_Some (tab_url t)) allTabs.

(** The browser calls answer without touching the extension's own
    variables and storage. *)
Definition api_outside (api : TabsApi) : Prop :=
  (∀ z w, ∃ b, tabs_activate api z w = (Ok b, w))
  ∧ (∀ z w, ∃ b, tabs_reload api z w = (Ok b, w))
  ∧ (∀ z u f w, ∃ b, tabs_navigate api z u f w = (Ok b, w)).

(** [RESUME_ALL] does not resume the entry under [key] in the world
    [w]: the browser call fails. *)
Definition resume_fails (api : TabsApi) (w : World) (key : string) (entry : Entry)
  : bool :=
  match (resumeSuspendedTabAt api (StringToNumber key) entry false true w).1 with
  | Ok resumed => negb resumed
  | Throw _ => true
  end.

End Validation.

(** ** A browser of the scenario *)

(** The protocol of an http or https url. *)
Definition demoProtocol (url : string) : option string :=
  if String.prefix "https://" url then Some "https:"
  else if String.prefix "http://" url then Some "http:"
  else if String.prefix "javascript:" url then Some "javascript:"
  else None.

(** Tab 1 shows the suspended page, tab 2 is discarded, tab 3 is an
    incognito window's. *)
Definition demoTabs : list Tab :=
  [mkTab 1 (Some "chrome-extension://abc/suspended.html#t1") false false;
   mkTab 2 (Some "https://example.net/") false true;
   mkTab 3 (Some "https://example.com/") true true].

Definition demoHost : @Host symbolicCrypto :=
  @mkHost symbolicCrypto (fun w => (Ok demoTabs, w))
    "chrome-extension://abc/suspended.html" demoProtocol
    (fun n => String.append "snapshot-" (int_key (Z.of_nat n))).

Definition discardedEntry (url : string) : Entry :=
  [("url", JStr url); ("title", JStr ""); ("windowId", JNum (NInt 1));
   ("suspendedAt", JNum (NInt 1000)); ("method", JStr "discard");
   ("reason", JStr "auto"); ("favIconUrl", JStr "")].

(** A state with the entry of the scenario, a discarded tab, an entry of
    the incognito tab, one of a tab that is closed, and one whose url is
    a script. *)
Definition crowdedState : State :=
  mkState (<[ "1" := demoEntry ]>
           (<[ "2" := discardedEntry "https://example.net/" ]>
            (<[ "3" := discardedEntry "https://example.com/" ]>
             (<[ "4" := discardedEntry "https://example.org/x" ]>
              (<[ "5" := discardedEntry "javascript:alert(1)" ]> ∅))))).

Definition crowdedWorld : @World symbolicCrypto :=
  @set_cachedState symbolicCrypto (Some crowdedState) demoWorld.

(** Tab calls that succeed on the tabs with an even id. *)
Definition evenTabsApi : @TabsApi symbolicCrypto :=
  @mkTabsApi symbolicCrypto
    (fun z w => (Ok (Z.even z), w))
    (fun z w => (Ok (Z.even z), w))
    (fun z _ _ w => (Ok (Z.even z), w)).

(** The world of the scenario with its snapshot stored and another state
    in the cache, and the same world marked corrupt. *)
Definition restoreWorld : @World symbolicCrypto :=
  @set_cachedState symbolicCrypto (Some crowdedState) snapshotWorld.

Definition corruptRestoreWorld : @World symbolicCrypto :=
  @set_stateCorruptionReason symbolicCrypto (Some "corrupt-state")
    (@set_cachedState symbolicCrypto (Some emptyState) snapshotWorld).



(** ** Proof automation *)

(** Closes a goal [∃ a w', m w = (Ok a, w') ∧ P] once [m w] is evaluated. *)
Ltac ex_run := eexists _, _; (split; [reflexivity|]); simpl; try done.

(** [simpl] that leaves the larger operations folded, and [munfold] with
    it. *)
Ltac ksimpl :=
  with_strategy opaque
    [wrapDataKey unwrapDataKey unlockWithPasskey generateAndPersistDataKey
     resetEncryption reconcilePendingStateAfterUnlock initializeEncryption
     setPasskey removePasskey retryImportPlaintextKey setCloudBackupEnabled
     restoreKeyFromSession loadState saveState saveStateInternal
     getSnapshotData getSnapshotById getSnapshots readSnapshotDetailsCache
     setSnapshotDetailsCache handleGetSnapshotDetails]
    simpl.

Ltac kunfold :=
  cbv [bind gets modify throw ret lift try_catch update_storage withStateLock
       ensureSettings saveSettings getCryptoKey isEncryptionLocked
       getEncryptionLockReason markEncryptionLocked saveKeyToSession
       clearSessionKey persistKeyRecord loadKeyRecord clearKeyRecords
       markStateCorrupt clearStateCorruption clearLegacyPendingState
       clearSnapshotDetailsCache encryptPayload decryptPayload
       ensurePlaceholder readCache];
  ksimpl.

(** Case analysis on every scrutinee that stands in the way. *)
Ltac split_matches :=
  repeat (ksimpl;
          match goal with
          | |- context [match ?x with _ => _ end] =>
              lazymatch x with
              | context [match _ with _ => _ end] => fail
              | _ => destruct x eqn:?
              end
          end).

Ltac sync_cases :=
  split_matches; ksimpl; eauto 10;
  try (right; right; eexists; split; [reflexivity|]; simpl; by auto).

(** [kunfold] that leaves the validation, the resuming and the snapshot
    operations folded as well. *)
Ltac vsimpl :=
  with_strategy opaque
    [validateState validate_entries restoreSnapshot createSnapshot storeSnapshot
     resume_entries
     handleResumeAll handleResumeTab resumeSuspendedTab resumeSuspendedTabAt
     state_entries pruneSnapshots number_key]
    ksimpl.

Ltac vunfold :=
  cbv [bind gets modify throw ret lift try_catch try_catch_with update_storage
       withStateLock ensureSettings getCryptoKey isEncryptionLocked
       getEncryptionLockReason clearSnapshotDetailsCache readCache];
  vsimpl.

(** * Theorems *)

(** ** Facts about the codec *)

Section CodecFacts.
Context `{Coercions}.
Import Codec.

Lemma decodeMethod_cases v fb :
  decodeMethod v fb = "discard" ∨ decodeMethod v fb = "page" ∨ decodeMethod v fb = fb.
Proof.
  unfold decodeMethod.
  destruct (_ || _); [by left|]. destruct (_ || _); [by right; left|by right; right].
Qed.

Lemma decodeMethod_known v fb :
  fb = "discard" ∨ fb = "page" →
  decodeMethod v fb = "discard" ∨ decodeMethod v fb = "page".
Proof. intros Hfb. destruct (decodeMethod_cases v fb) as [?|[?| ->]]; auto. Qed.

Lemma nonempty_string_guard v :
  negb (is_string v) || negb (js_truthy v) = false → nonempty_string v = true.
Proof.
  destruct v as [| | | |s| |]; simpl; try discriminate.
  by destruct (String.eqb s "").
Qed.

Lemma guard_nonempty_string v :
  nonempty_string v = true → negb (is_string v) || negb (js_truthy v) = false.
Proof.
  destruct v as [| | | |s| |]; simpl; try discriminate.
  by destruct (String.eqb s "").
Qed.

Lemma string_or_empty_string v : is_string (string_or_empty v) = true.
Proof. unfold string_or_empty. by destruct (is_string v) eqn:E. Qed.

Lemma string_or_empty_id v : is_string v = true → string_or_empty v = v.
Proof. intros E. unfold string_or_empty. by rewrite E. Qed.

Lemma string_or_empty_idem v : string_or_empty (string_or_empty v) = string_or_empty v.
Proof. apply string_or_empty_id, string_or_empty_string. Qed.

Lemma toFiniteNumber_finite x fb :
  is_finite_val fb = true → is_finite_val (toFiniteNumber x fb) = true.
Proof.
  intros Hfb. unfold toFiniteNumber. by destruct (Num.isFinite (ToNumber x)) eqn:E.
Qed.

Lemma toFiniteNumber_id v fb : is_finite_val v = true → toFiniteNumber v fb = v.
Proof.
  destruct v as [| | |x| | |]; try done. simpl. intros Hx.
  unfold toFiniteNumber. simpl. by rewrite Hx.
Qed.

(** The shape both decoders build. *)
Lemma built_entry_ok url title W A method reason fav tok I U :
  nonempty_string url = true →
  method = "discard" ∨ method = "page" →
  entry_ok ([("url", url); ("title", title); ("windowId", W); ("suspendedAt", A);
             ("method", JStr method); ("reason", reason); ("favIconUrl", fav)]
            ++ token_fields method tok I U) = true.
Proof.
  intros Hurl [-> | ->]; unfold entry_ok; simpl; by rewrite Hurl.
Qed.

Lemma normalizeEntry_spec e :
  ∃ n, normalizeEntry e = Ok n ∧ (∀ x, n = Some x → entry_ok x = true).
Proof.
  unfold normalizeEntry.
  destruct (negb (js_truthy e) || negb (is_object_type e)) eqn:Hguard; [by eexists|].
  assert (Hget : ∀ k, get_prop e k = Ok (field e k)) by (by destruct e).
  rewrite !Hget. simpl.
  destruct (negb (is_string (field e "url")) || _) eqn:Hurl; [by eexists|].
  simpl. eexists; split; [reflexivity|]. intros x [= <-].
  apply built_entry_ok; [by apply nonempty_string_guard|].
  apply decodeMethod_known. case_match; auto.
Qed.





Lemma tabs_ok_empty : tabs_ok ∅.
Proof. intros k e. by rewrite lookup_empty. Qed.


Lemma tabs_ok_insert k e m :
  entry_ok e = true → tabs_ok m → tabs_ok (<[k := e]> m).
Proof.
  intros He Hm k' e'. rewrite lookup_insert.
  case_decide; [by intros [= <-]|apply Hm].
Qed.



Lemma decodeLegacyEntries_spec es acc :
  tabs_ok acc → ∃ m, decodeLegacyEntries es acc = Ok m ∧ tabs_ok m.
Proof.
  revert acc. induction es as [|[k e] es IH]; intros acc Hacc; simpl; [eauto|].
  destruct (normalizeEntry_spec e) as (n & -> & Hn). simpl.
  apply IH. destruct n as [n|]; [|done]. apply tabs_ok_insert; auto.
Qed.

(** *** Round trip *)

(** The decimal form of a positive integer that a double holds exactly
    is read back by [Number], and is the key [String] writes for it. *)
Lemma ToNumber_int_key z :
  0 < z ≤ 9007199254740991 → ToNumber (JStr (int_key z)) = NInt z.
Proof.
  intros Hz. simpl. unfold StringToNumber, int_key.
  assert (Hisi : NilZero.int_of_string (NilZero.string_of_int (Z.to_int z))
                 = Some (Z.to_int z)).
  { apply NilZero.isi; destruct z as [|p|p]; try lia; simpl; intros [= Hp];
      by apply DecimalPos.Unsigned.to_uint_nonnil in Hp. }
  destruct (String.eqb_spec (NilZero.string_of_int (Z.to_int z)) "") as [E|_].
  { rewrite E in Hisi. discriminate. }
  rewrite Hisi, DecimalZ.of_to.
  destruct (Z.leb_spec (Z.abs z) MAX_SAFE_INTEGER) as [_|Hbig]; [done|].
  unfold MAX_SAFE_INTEGER in Hbig. lia.
Qed.

Lemma number_key_int_key z :
  0 < z ≤ 9007199254740991 → number_key (NInt z) = int_key z.
Proof.
  intros Hz. unfold number_key.
  destruct (Z.ltb_spec (Z.abs z) (10 ^ 21)) as [_|Hbig]; [done|]. lia.
Qed.

Lemma tuple_roundtrip z url title W A method reason fav tok I b :
  0 < z ≤ 9007199254740991 →
  nonempty_string url = true → is_string title = true →
  is_finite_val W = true → is_finite_val A = true →
  method = "discard" ∨ method = "page" →
  is_string reason = true → is_string fav = true →
  is_string tok = true → is_finite_val I = true →
  let n := [("url", url); ("title", title); ("windowId", W);
            ("suspendedAt", A); ("method", JStr method);
            ("reason", reason); ("favIconUrl", fav)]
           ++ token_fields method tok I (JBool b) in
  decodeTuple (encodeTuple (int_key z) n) = Some (int_key z, n).
Proof.
  intros Hz Hurl Htitle HW HA Hm Hreason Hfav Htok HI n.
  assert (Hus : is_string url = true) by (by destruct url).
  assert (Hut : js_truthy url = true) by (by destruct url).
  pose proof (ToNumber_int_key z Hz) as Hk; simpl in Hk.
  destruct Hm as [-> | ->]; subst n; unfold encodeTuple, decodeTuple; simpl;
    rewrite !(string_or_empty_id url), !(string_or_empty_id title),
      !(string_or_empty_id reason), !(string_or_empty_id fav) by done;
    rewrite !(toFiniteNumber_id W), !(toFiniteNumber_id A) by done;
    rewrite Hk; unfold toFiniteNumber at 1; simpl;
    (destruct (Z.leb_spec z 0); [lia|]); rewrite Hut; simpl;
    rewrite (number_key_int_key z Hz).
  - done.
  - rewrite Htok, (string_or_empty_id tok), !(toFiniteNumber_id I) by done.
    by destruct b.
Qed.

Lemma normalizeEntry_valid z e :
  0 < z ≤ 9007199254740991 → valid_entry e →
  normalizeEntry (JObj e) = Ok (Some (norm_entry e))
  ∧ decodeTuple (encodeTuple (int_key z) (norm_entry e))
    = Some (int_key z, norm_entry e).
Proof.
  intros Hz Hurl. unfold norm_entry, normalizeEntry. simpl.
  rewrite (guard_nonempty_string _ Hurl). simpl. split; [done|].
  set (fb := if js_truthy _ then "page" else "discard").
  set (A := toFiniteNumber (assoc e "suspendedAt") (JNum (NInt 0))).
  assert (HA : is_finite_val A = true) by (by apply toFiniteNumber_finite).
  apply tuple_roundtrip; auto using string_or_empty_string, toFiniteNumber_finite.
  apply decodeMethod_known. subst fb. case_match; auto.
Qed.

Lemma encodeEntries_valid (L : list (string * Entry)) :
  (∀ k e, (k, e) ∈ L
          → (∃ z, 0 < z ≤ 9007199254740991 ∧ k = int_key z) ∧ valid_entry e) →
  ∃ ts, encodeEntries L = Ok ts
        ∧ omap decodeTuple ts = prod_map id norm_entry <$> L.
Proof.
  induction L as [|[k e] L IH]; intros HL; simpl; [by exists []|].
  destruct (HL k e) as [(z & Hz & ->) He]; [left|].
  destruct (normalizeEntry_valid z e Hz He) as (Hn & Hdec).
  destruct IH as (ts & Hts1 & Hts2).
  { intros k' e' Hin. apply HL. by right. }
  rewrite Hn. simpl. rewrite Hts1. simpl.
  eexists. split; [done|].
  change (omap decodeTuple (?t :: ts))
    with (match decodeTuple t with
          | Some y => y :: omap decodeTuple ts
          | None => omap decodeTuple ts
          end).
  by rewrite Hdec, Hts2.
Qed.

Lemma decodeTuples_list_to_map ts :
  decodeTuples ts = list_to_map (rev (omap decodeTuple ts)).
Proof.
  unfold decodeTuples.
  assert (Hgen : ∀ acc,
    fold_left (fun acc tuple =>
               match decodeTuple tuple with
               | Some (k, entry) => <[k := entry]> acc
               | None => acc
               end) ts acc
    = (list_to_map (rev (omap decodeTuple ts)) : gmap string Entry) ∪ acc).
  { induction ts as [|t ts IH]; intros acc; simpl.
    - by rewrite (left_id_L ∅ (∪)).
    - rewrite IH. destruct (decodeTuple t) as [[k e]|]; [|done].
      simpl. rewrite list_to_map_app. simpl.
      rewrite insert_empty, <-(assoc_L (∪)), <-insert_union_singleton_l. done. }
  rewrite Hgen. by rewrite (right_id_L ∅ (∪)).
Qed.

Lemma list_to_map_rev_fmap (f : Entry → Entry) (L : list (string * Entry))
    (m : gmap string Entry) :
  L ≡ₚ map_to_list m →
  list_to_map (rev (prod_map id f <$> L)) = f <$> m.
Proof.
  intros HL.
  transitivity (list_to_map (prod_map id f <$> map_to_list m) : gmap string Entry);
    [|by rewrite list_to_map_fmap, list_to_map_to_list].
  apply list_to_map_proper.
  - assert (Hk : (prod_map id f <$> L).*1 = L.*1).
    { clear HL. induction L as [|[k e] L IH]; simpl; [done|]. by f_equal. }
    rewrite <-Permutation_rev, Hk, HL. apply NoDup_fst_map_to_list.
  - by rewrite <-Permutation_rev, HL.
Qed.

Lemma decodeLegacyEntries_valid (L : list (string * Entry)) acc :
  (∀ k e, (k, e) ∈ L → valid_entry e) →
  decodeLegacyEntries (prod_map id JObj <$> L) acc
  = Ok ((list_to_map (rev (prod_map id norm_entry <$> L)) : gmap string Entry) ∪ acc).
Proof.
  revert acc. induction L as [|[k e] L IH]; intros acc HL; simpl.
  - by rewrite (left_id_L ∅ (∪)).
  - destruct (normalizeEntry_valid 1 e) as (Hn & _); [lia|apply (HL k); left|].
    rewrite Hn. simpl. rewrite IH by (intros k' e' Hin; apply (HL k'); by right).
    rewrite list_to_map_app. simpl.
    by rewrite insert_empty, <-(assoc_L (∪)), <-insert_union_singleton_l.
Qed.

(** Normalization is a projection: an entry in canonical shape is its own
    normal form, so a state the decoder produced is reproduced exactly. *)
Lemma norm_entry_idem e :
  valid_entry e → norm_entry (norm_entry e) = norm_entry e.
Proof.
  intros Hurl. unfold norm_entry at 2 3. unfold normalizeEntry. simpl.
  rewrite (guard_nonempty_string _ Hurl). simpl.
  set (fb := if js_truthy _ then "page" else "discard").
  assert (Hm : decodeMethod (assoc e "method") fb = "discard"
             ∨ decodeMethod (assoc e "method") fb = "page").
  { apply decodeMethod_known. subst fb. case_match; auto. }
  set (A := toFiniteNumber (assoc e "suspendedAt") (JNum (NInt 0))).
  assert (HA : is_finite_val A = true) by (by apply toFiniteNumber_finite).
  set (W := toFiniteNumber (assoc e "windowId") (JNum (NInt 0))).
  assert (HW : is_finite_val W = true) by (by apply toFiniteNumber_finite).
  set (I := toFiniteNumber (assoc e "tokenIssuedAt") A).
  assert (HI : is_finite_val I = true) by (by apply toFiniteNumber_finite).
  unfold valid_entry in Hurl.
  assert (Hus : is_string (assoc e "url") = true) by (by destruct (assoc e "url")).
  assert (Hut : js_truthy (assoc e "url") = true) by (by destruct (assoc e "url")).
  destruct Hm as [Hm | Hm]; rewrite Hm; unfold norm_entry, normalizeEntry; simpl;
    rewrite Hus, Hut; simpl;
    rewrite !string_or_empty_idem;
    rewrite !(toFiniteNumber_id W), !(toFiniteNumber_id A) by done.
  - done.
  - rewrite !(toFiniteNumber_id I) by done.
    assert (Hp : ∀ fb', decodeMethod (JStr "page") fb' = "page") by done.
    rewrite Hp. simpl. by destruct (js_truthy (assoc e "tokenUsed")).
Qed.

End CodecFacts.

(** C9: codec round trip. For every valid canonical state (non-empty
    string urls, and ids that are positive integers up to 2^53 - 1, the
    integers a tab id can be), encoding never raises and decoding the
    result gives the same ids with every entry in its normal form; the older keyed-object form of the same state decodes
    to the same canonical state; and normalization keeps the url and
    leaves an entry that is already normal as it is. *)
Theorem codec_roundtrip `{Coercions} (st : State) :
  valid_state st →
  (∃ raw st', Codec.encodeStateV2 st = Ok raw ∧ Codec.decodeStateAny raw = Ok st'
              ∧ suspendedTabs st' = norm_entry <$> suspendedTabs st)
  ∧ (∃ st', Codec.decodeStateAny (legacy_form st) = Ok st'
            ∧ suspendedTabs st' = norm_entry <$> suspendedTabs st)
  ∧ (∀ k e, suspendedTabs st !! k = Some e →
            norm_entry (norm_entry e) = norm_entry e
            ∧ assoc (norm_entry e) "url" = assoc e "url").
Proof.
  intros Hst. split; [|split].
  - unfold Codec.encodeStateV2.
    set (L := merge_sort Codec.key_order (map_to_list (suspendedTabs st))).
    assert (HL : L ≡ₚ map_to_list (suspendedTabs st)) by apply merge_sort_Permutation.
    destruct (encodeEntries_valid L) as (ts & Hts & Hdec).
    { intros k e Hin. apply Hst. apply elem_of_map_to_list. by rewrite <-HL. }
    rewrite Hts. simpl. eexists _, _. split; [reflexivity|].
    split; [reflexivity|]. simpl.
    rewrite decodeTuples_list_to_map, Hdec. by apply list_to_map_rev_fmap.
  - unfold legacy_form, Codec.decodeStateAny. simpl.
    unfold Codec.decodeLegacyState. simpl.
    rewrite decodeLegacyEntries_valid.
    + simpl. eexists. split; [reflexivity|]. simpl.
      rewrite (right_id_L ∅ (∪)). by apply list_to_map_rev_fmap.
    + intros k e Hin. by apply (Hst k), elem_of_map_to_list.
  - intros k e Hke. destruct (Hst k e Hke) as [_ He].
    split; [by apply norm_entry_idem|].
    unfold norm_entry, Codec.normalizeEntry. simpl.
    by rewrite (guard_nonempty_string _ He).
Qed.


Section CodecExamples.
#[local] Existing Instance plainCoercions.

(** The state of the scenario, through [codec_roundtrip]: its entry is in
    normal form, and decoding its encoding gives the state back. *)
Lemma codec_roundtrip_witness :
  ∃ raw, Codec.encodeStateV2 demoState = Ok raw
         ∧ Codec.decodeStateAny raw = Ok demoState.
Proof.
  destruct (codec_roundtrip demoState) as ((raw & st' & Henc & Hdec & Hst) & _).
  - intros k e Hke. unfold demoState in Hke. simpl in Hke.
    apply lookup_singleton_Some in Hke as [<- <-].
    split; [|reflexivity]. exists 1. split; [lia|reflexivity].
  - exists raw. split; [exact Henc|]. rewrite Hdec. f_equal.
    destruct st' as [m]. simpl in Hst. rewrite Hst. vm_compute. reflexivity.
Defined.


(** The older form of the scenario's state, evaluated. *)
Example legacy_decodes :
  Codec.decodeStateAny (legacy_form demoState) = Ok demoState.
Proof. vm_compute. reflexivity. Qed.

(** A tuple with id 0 and an entry without url are dropped, evaluated. *)
Example malformed_dropped :
  Codec.decodeStateAny
    (JObj [("v", JNum (NInt 2));
           ("tabs", JArr [JArr [JNum (NInt 0); JStr "https://example.org/"];
                          JArr [JNum (NInt 3); JStr ""];
                          JNull])])
  = Ok emptyState.
Proof. vm_compute. reflexivity. Qed.

End CodecExamples.

(** ** Facts about the state store *)

#[local] Arguments loadState : simpl never.
#[local] Arguments saveState : simpl never.
#[local] Arguments saveStateInternal : simpl never.
#[local] Arguments stateIsWritable : simpl never.
#[local] Arguments stateWriteBlockedReason : simpl never.
#[local] Arguments lockedMutationResponse : simpl never.
#[local] Arguments reserveToken : simpl never.
#[local] Arguments finalizeToken : simpl never.
#[local] Arguments processUnsuspendTokenMessage : simpl never.
#[local] Arguments tokenExpired : simpl never.
#[local] Arguments int_key : simpl never.

Section StoreFacts.
Context `{Coercions} `{Crypto}.

Lemma encodeEntries_total (L : list (string * Entry)) :
  ∃ ts, Codec.encodeEntries L = Ok ts.
Proof.
  induction L as [|[k e] L [ts IH]]; simpl; [by eexists|].
  destruct (normalizeEntry_spec (JObj e)) as (n & -> & _). simpl.
  destruct n; rewrite IH; simpl; by eexists.
Qed.

Lemma encodeStateV2_total (st : State) : ∃ raw, Codec.encodeStateV2 st = Ok raw.
Proof.
  unfold Codec.encodeStateV2.
  destruct (encodeEntries_total
              (merge_sort Codec.key_order (map_to_list (suspendedTabs st))))
    as [ts ->].
  simpl. by eexists.
Qed.

Lemma encodeStateV2_empty :
  Codec.encodeStateV2 emptyState = Ok (JObj [("v", JNum (NInt 2)); ("tabs", JArr [])]).
Proof. unfold Codec.encodeStateV2. simpl. by rewrite map_to_list_empty. Qed.

Lemma reason_or_nonempty r d : d ≠ "" → nonempty (Some (reason_or r d)) = true.
Proof.
  intros Hd. unfold reason_or. destruct r as [r|]; simpl.
  - destruct (String.eqb_spec r ""); simpl; by apply negb_true_iff, String.eqb_neq.
  - by apply negb_true_iff, String.eqb_neq.
Qed.

Lemma blocked_nonempty w :
  nonempty (stateWriteBlockedReason w) = bool_decide (is_Some (stateWriteBlockedReason w)).
Proof.
  unfold stateWriteBlockedReason.
  destruct (stateIsCorrupt w); [by rewrite reason_or_nonempty|].
  destruct (stateIsLocked w); [by rewrite reason_or_nonempty|done].
Qed.

Lemma writable_iff w :
  stateIsWritable w = true ↔ stateWriteBlockedReason w = None.
Proof.
  unfold stateIsWritable. rewrite blocked_nonempty.
  destruct (stateWriteBlockedReason w); simpl; naive_solver.
Qed.

Lemma blocked_reason w r :
  stateWriteBlockedReason w = Some r →
  nonempty (Some r) = true ∧ stateIsWritable w = false
  ∧ lockedMutationResponse false w = RespLocked r.
Proof.
  intros Hr. assert (Hn : nonempty (Some r) = true).
  { rewrite <-Hr, blocked_nonempty, Hr. done. }
  split; [done|]. split.
  - unfold stateIsWritable. by rewrite Hr, Hn.
  - unfold lockedMutationResponse. rewrite Hr. unfold reason_or.
    simpl in Hn. by destruct (String.eqb r "").
Qed.

Lemma writable_unlocked w :
  stateIsWritable w = true →
  stateIsCorrupt w = false ∧ stateIsLocked w = false ∧ is_Some (cryptoKey w).
Proof.
  rewrite writable_iff. unfold stateWriteBlockedReason.
  destruct (stateIsCorrupt w); [done|].
  destruct (stateIsLocked w) eqn:Hl; [done|]. intros _.
  split; [done|]. split; [done|].
  unfold stateIsLocked, hasCryptoKey in Hl.
  apply orb_false_iff in Hl as [_ Hk]. apply negb_false_iff in Hk.
  by apply bool_decide_eq_true in Hk.
Qed.

(** A blocked [saveState] raises the blocking reason after it has replaced
    the cache; nothing reaches storage. *)
Lemma saveState_blocked st w r :
  stateWriteBlockedReason w = Some r →
  saveState st w = (Throw r, set_cachedState (Some st) w).
Proof.
  intros Hr. destruct (blocked_reason w r Hr) as (Hn & _ & _).
  unfold saveState, saveStateInternal. munfold.
  change (stateWriteBlockedReason (set_cachedState (Some st) w))
    with (stateWriteBlockedReason w).
  by rewrite Hr, Hn.
Qed.

Lemma saveState_writable st w :
  stateIsWritable w = true →
  ∃ raw, Codec.encodeStateV2 st = Ok raw ∧ saveState st w = (Ok tt, saved st raw w).
Proof.
  intros Hw. destruct (encodeStateV2_total st) as [raw Hraw]. exists raw.
  split; [done|].
  destruct (writable_unlocked w Hw) as (_ & _ & [key Hkey]).
  apply writable_iff in Hw.
  unfold saveState, saveStateInternal, saved. munfold.
  change (stateWriteBlockedReason (set_cachedState (Some st) w))
    with (stateWriteBlockedReason w).
  rewrite Hw, Hraw. simpl.
  destruct (encryption_enabled (local_settings (storage w))); [|done].
  cbn. by rewrite Hkey.
Qed.

Lemma saved_blocked st raw w :
  stateWriteBlockedReason (saved st raw w) = stateWriteBlockedReason w.
Proof.
  unfold saved. destruct (encryption_enabled _); [destruct (cryptoKey w)|]; done.
Qed.

Lemma saved_cached st raw w : cachedState (saved st raw w) = Some st.
Proof.
  unfold saved. destruct (encryption_enabled _); [destruct (cryptoKey w)|]; done.
Qed.



End StoreFacts.

(** ** Facts about the resume-token flow *)

Section TokenFacts.
Context `{Coercions} `{Crypto}.




(** The reserve phase on a matching, unused, unexpired token. *)
Lemma reserveToken_ok tabId token ttl now w w0 st e :
  stateIsWritable w = true →
  loadState w = (Ok st, w0) →
  stateIsWritable w0 = true →
  suspendedTabs st !! number_key (NInt tabId) = Some e →
  strict_eq (assoc e "token") token = true →
  js_truthy (assoc e "tokenUsed") = false →
  tokenExpired e ttl (now w0) = false →
  ∃ raw, reserveToken tabId token ttl now w
         = (Ok (PrepOk (consume e)),
            saved (reserved (number_key (NInt tabId)) st e) raw w0).
Proof.
  intros Hw Hload Hw0 He Htok Hused Hexp.
  destruct (saveState_writable (reserved (number_key (NInt tabId)) st e)
              (set_cachedState (Some (reserved (number_key (NInt tabId)) st e)) w0))
    as (raw & _ & Hsave); [done|].
  exists raw. unfold reserveToken. munfold.
  rewrite Hw. simpl. rewrite Hload. simpl.
  rewrite He, Htok, Hused. simpl. rewrite Hexp. simpl.
  unfold reserved, consume in Hsave. rewrite Hsave. done.
Qed.

(** The finalize phase deletes whatever entry the key holds. *)
Lemma finalizeToken_ok tabId w w0 st :
  stateIsWritable w = true →
  loadState w = (Ok st, w0) →
  stateIsWritable w0 = true →
  ∃ raw, finalizeToken tabId w
         = (Ok RespOk, saved (deleteEntry (number_key (NInt tabId)) st) raw w0).
Proof.
  intros Hw Hload Hw0.
  destruct (saveState_writable (deleteEntry (number_key (NInt tabId)) st)
              (set_cachedState (Some (deleteEntry (number_key (NInt tabId)) st)) w0))
    as (raw & _ & Hsave); [done|].
  exists raw. unfold finalizeToken. munfold.
  rewrite Hw. simpl. rewrite Hload. simpl.
  rewrite Hsave. done.
Qed.

Lemma saved_writable st raw w :
  stateIsWritable w = true → stateIsWritable (saved st raw w) = true.
Proof. rewrite !writable_iff, saved_blocked. done. Qed.


(** The flow on a world that is not writable. *)
Lemma process_blocked resume tabId token ttl now w r :
  stateWriteBlockedReason w = Some r →
  processUnsuspendTokenMessage resume tabId token ttl now w = (Ok (RespLocked r), w).
Proof.
  intros Hr. destruct (blocked_reason w r Hr) as (_ & Hw & Hresp).
  unfold processUnsuspendTokenMessage. munfold. rewrite Hw. simpl. by rewrite Hresp.
Qed.






End TokenFacts.

(** ** The resume-token protocol *)


(** C8, as the code has it: after a successful resume the finalize phase
    runs under the lock again, checks again that the state is writable,
    loads the state and deletes whatever entry the item id holds at that
    time, without looking at its token; when the state is no longer
    writable it deletes nothing and answers with the blocked-write
    response. *)
Theorem finalize_deletes_without_validation `{Coercions} `{Crypto}
    (tabId : Z) (w : World) :
  (∀ st w0, stateIsWritable w = true → loadState w = (Ok st, w0) →
            stateIsWritable w0 = true →
            ∃ w', finalizeToken tabId w = (Ok RespOk, w')
                  ∧ cachedState w' = Some (deleteEntry (number_key (NInt tabId)) st)
                  ∧ suspendedTabs (deleteEntry (number_key (NInt tabId)) st)
                    !! number_key (NInt tabId)
                    = None)
  ∧ (∀ r, stateWriteBlockedReason w = Some r →
          finalizeToken tabId w = (Ok (RespLocked r), w)).
Proof.
  split.
  - intros st w0 Hw Hload Hw0.
    destruct (finalizeToken_ok tabId w w0 st Hw Hload Hw0) as (raw & Hfin).
    eexists. split; [exact Hfin|]. split; [apply saved_cached|].
    apply lookup_delete_eq.
  - intros r Hr. destruct (blocked_reason w r Hr) as (_ & Hw & Hresp).
    unfold finalizeToken. munfold. rewrite Hw. simpl. by rewrite Hresp.
Qed.

Section TokenExamples.
#[local] Existing Instance plainCoercions.
#[local] Existing Instance symbolicCrypto.

(** The replay of the scenario, evaluated: after a failed resume the same
    token is answered [used]; after a successful one, [invalid-token]. *)
Example replay_after_failure :
  (processUnsuspendTokenMessage resumeOk 1 (JStr "t1") demoTtl demoNow
     (processUnsuspendTokenMessage resumeFails 1 (JStr "t1") demoTtl demoNow demoWorld).2).1
  = Ok (RespError "used").
Proof. vm_compute. reflexivity. Qed.

Example replay_after_success :
  (processUnsuspendTokenMessage resumeOk 1 (JStr "t1") demoTtl demoNow
     (processUnsuspendTokenMessage resumeOk 1 (JStr "t1") demoTtl demoNow demoWorld).2).1
  = Ok (RespError "invalid-token").
Proof. vm_compute. reflexivity. Qed.



(** The finalize phase on the scenario, through
    [finalize_deletes_without_validation]. *)
Lemma finalize_deletes_without_validation_witness :
  (∃ w', finalizeToken 1 demoWorld = (Ok RespOk, w')
         ∧ cachedState w' = Some (deleteEntry (number_key (NInt 1)) demoState)
         ∧ suspendedTabs (deleteEntry (number_key (NInt 1)) demoState)
           !! number_key (NInt 1) = None)
  ∧ finalizeToken 1 corruptWorld = (Ok (RespLocked "corrupt-state"), corruptWorld).
Proof.
  split.
  - apply (proj1 (finalize_deletes_without_validation 1 demoWorld)
             demoState demoWorld);
      vm_compute; reflexivity.
  - apply (proj2 (finalize_deletes_without_validation 1 corruptWorld)).
    vm_compute. reflexivity.
Defined.

(** C8 as stated fails: while the resume of tab 1 is pending its entry is
    replaced by one whose token is [t2]; the finalize phase of the flow
    for token [t1] deletes that entry all the same. *)
Lemma finalize_revalidation_counterexample :
  let w1 := (reserveToken 1 (JStr "t1") demoTtl demoNow demoWorld).2 in
  let w2 := (resumeWhileReplaced 1 (consume demoEntry) w1).2 in
  let out := processUnsuspendTokenMessage resumeWhileReplaced 1 (JStr "t1")
               demoTtl demoNow demoWorld in
  (suspendedTabs <$> cachedState w2) = Some {[ "1" := otherEntry ]}
  ∧ strict_eq (assoc otherEntry "token") (JStr "t1") = false
  ∧ out.1 = Ok RespOk
  ∧ (suspendedTabs <$> cachedState out.2) = Some ∅.
Proof. repeat split; vm_compute; reflexivity. Qed.

End TokenExamples.

(** ** Blocked writes and corruption *)

Section BlockedFacts.
Context `{Coercions} `{Crypto}.

Lemma blocked_when w :
  stateIsLocked w = true ∨ stateIsCorrupt w = true →
  ∃ r, stateWriteBlockedReason w = Some r.
Proof.
  intros Hb. unfold stateWriteBlockedReason.
  destruct (stateIsCorrupt w); [by eexists|].
  destruct Hb as [-> | ?]; [by eexists|done].
Qed.

Lemma saveStateInternal_blocked st w r :
  stateWriteBlockedReason w = Some r → saveStateInternal st w = (Throw r, w).
Proof.
  intros Hr. destruct (blocked_reason w r Hr) as (Hn & _ & _).
  unfold saveStateInternal. munfold. by rewrite Hr, Hn.
Qed.

Lemma handleTabRemoved_blocked tabId w r :
  stateWriteBlockedReason w = Some r → handleTabRemoved tabId w = (Ok tt, w).
Proof.
  intros Hr. destruct (blocked_reason w r Hr) as (_ & Hw & _).
  unfold handleTabRemoved. munfold. by rewrite Hw.
Qed.

Lemma corrupt_inv_blocked w :
  corrupt_inv w → stateWriteBlockedReason w = Some "corrupt-state".
Proof.
  intros [Hr _]. unfold stateWriteBlockedReason, stateIsCorrupt, stateLockReason,
    stateIsCorrupt. by rewrite Hr.
Qed.

Lemma loadState_corrupt w :
  corrupt_inv w → ∃ st, loadState w = (Ok st, w).
Proof.
  intros [Hr [st Hc]]. exists st. unfold loadState. munfold.
  destruct (stateIsLocked w); simpl; rewrite Hc; simpl; [|done].
  f_equal. destruct w; simpl in *; by subst.
Qed.

Lemma attempt_corrupt a w :
  corrupt_inv w →
  ∃ o w', attempt a w = (o, w') ∧ refused "corrupt-state" a o = true
          ∧ corrupt_inv w' ∧ storage w' = storage w.
Proof.
  intros Hinv. pose proof (corrupt_inv_blocked w Hinv) as Hb.
  destruct a as [|st|st|tabId|resume tabId token ttl now]; simpl.
  - destruct (loadState_corrupt w Hinv) as [st ->]. by eexists _, _.
  - rewrite (saveState_blocked st w _ Hb). eexists _, _. split; [done|].
    split; [done|]. split; [|done]. destruct Hinv as [Hr _]. by split; [|eexists].
  - rewrite (saveStateInternal_blocked st w _ Hb). by eexists _, _.
  - rewrite (handleTabRemoved_blocked tabId w _ Hb). by eexists _, _.
  - rewrite (process_blocked resume tabId token ttl now w _ Hb). by eexists _, _.
Qed.

Lemma run_attempts_corrupt l w :
  corrupt_inv w →
  ∃ os w', run_attempts l w = (os, w') ∧ all_refused "corrupt-state" l os = true
           ∧ corrupt_inv w' ∧ storage w' = storage w.
Proof.
  revert w. induction l as [|a l IH]; intros w Hinv; simpl; [by eexists _, _|].
  destruct (attempt_corrupt a w Hinv) as (o & w1 & -> & Ho & Hinv1 & Hs1).
  destruct (IH w1 Hinv1) as (os & w2 & -> & Hos & Hinv2 & Hs2).
  eexists _, _. split; [done|]. simpl. rewrite Ho, Hos. split; [done|].
  split; [done|]. by rewrite Hs2.
Qed.

(** A failed decryption in [loadState]. *)
Lemma loadState_decrypt_fails w c msg :
  stateIsLocked w = false →
  cachedState w = None →
  local_state (storage w) = Some (PEncrypted c) →
  (decryptPayload c w).1 = Throw msg →
  loadState w
  = (Ok emptyState,
     set_cachedState (Some emptyState)
       (set_stateCorruptionReason (Some "corrupt-state") w)).
Proof.
  intros Hl Hc Hp Hd. unfold loadState. munfold. rewrite Hl, Hc. simpl.
  rewrite Hp. revert Hd. unfold decryptPayload. munfold.
  destruct (cryptoKey w) as [key|]; simpl.
  - intros ->. simpl. by rewrite Hc.
  - intros _. by rewrite Hc.
Qed.

(** [resetEncryption] from any world. *)
Lemma resetEncryption_result w :
  ∃ w', resetEncryption w = (Ok RespOk, w')
        ∧ stateCorruptionReason w' = None
        ∧ stateWriteBlockedReason w' = None
        ∧ cachedState w' = Some emptyState
        ∧ cryptoKey w' = Some (generateKey (entropy w))
        ∧ local_backups (storage w') = None
        ∧ snapshotDetailsCache w' = []
        ∧ sync_keyRecord (storage w') = None
        ∧ local_keyRecord (storage w')
          = Some (plaintextRecord (exportKeyBase64 (generateKey (entropy w))) false
                    (clock w))
        ∧ local_state (storage w')
          = Some (if encryption_enabled (local_settings (storage w))
                  then PEncrypted
                         (aes_encrypt (generateKey (entropy w)) (S (entropy w))
                            (JObj [("v", JNum (NInt 2)); ("tabs", JArr [])]))
                  else PPlain (JObj [("v", JNum (NInt 2)); ("tabs", JArr [])])).
Proof.
  unfold resetEncryption, generateAndPersistDataKey, saveState, saveStateInternal.
  munfold.
  destruct (encryption_cloudBackupEnabled (local_settings (storage w))) eqn:Hcloud;
    simpl; rewrite ?Hcloud; simpl;
    unfold stateWriteBlockedReason, stateIsCorrupt, stateIsLocked, hasCryptoKey;
    simpl; rewrite encodeStateV2_empty; simpl;
    destruct (encryption_enabled (local_settings (storage w))) eqn:Hen; simpl;
    eexists; (split; [reflexivity|]); simpl; rewrite ?Hen; done.
Qed.

End BlockedFacts.

(** C7, as the code has it: when encryption is locked or the state is
    marked corrupt, [saveState] raises an exception whose message is the
    blocking reason, after it has replaced the cached state, and stores
    nothing; the structured blocked-write result
    [{ ok: false, locked: true, reason }] is what [lockedMutationResponse]
    builds, and what the token flow answers, without calling [saveState]
    and without any change; [handleTabRemoved] returns silently. *)
Theorem blocked_write_raises `{Coercions} `{Crypto} (w : World) (st : State) :
  stateIsLocked w = true ∨ stateIsCorrupt w = true →
  ∃ r, stateWriteBlockedReason w = Some r
       ∧ saveState st w = (Throw r, set_cachedState (Some st) w)
       ∧ storage (saveState st w).2 = storage w
       ∧ saveStateInternal st w = (Throw r, w)
       ∧ lockedMutationResponse false w = RespLocked r
       ∧ (∀ resume tabId token ttl now,
            processUnsuspendTokenMessage resume tabId token ttl now w
            = (Ok (RespLocked r), w))
       ∧ (∀ tabId, handleTabRemoved tabId w = (Ok tt, w)).
Proof.
  intros Hb. destruct (blocked_when w Hb) as [r Hr]. exists r.
  destruct (blocked_reason w r Hr) as (_ & _ & Hresp).
  split; [done|]. rewrite (saveState_blocked st w r Hr).
  split; [done|]. split; [done|].
  split; [by apply saveStateInternal_blocked|]. split; [done|].
  split; [intros; by apply process_blocked|intros; by eapply handleTabRemoved_blocked].
Qed.

(** C4, as the code has it: corruption is sticky under loads and write
    attempts. When the decryption of the stored state fails in [loadState],
    the load returns the empty placeholder and marks the state corrupt;
    from then on, through any sequence of loads, [saveState] and
    [saveStateInternal] calls, token flows and tab removals, every attempt
    is refused with reason [corrupt-state], [stateIsWritable] stays false
    and the storage is not touched. The marker is cleared by
    [handleStorageChanged], and by [resetEncryption], which also drops the
    stored state and the snapshots, generates a new key and leaves a
    writable, empty, persisted state. *)
Theorem corruption_sticky `{Coercions} `{Crypto} (w : World) (c : Cipher)
    (msg : string) :
  stateIsLocked w = false →
  cachedState w = None →
  local_state (storage w) = Some (PEncrypted c) →
  (decryptPayload c w).1 = Throw msg →
  ∃ w1,
    loadState w = (Ok emptyState, w1)
    ∧ stateWriteBlockedReason w1 = Some "corrupt-state"
    ∧ stateIsWritable w1 = false
    ∧ (∀ attempts,
         ∃ outcomes w2,
           run_attempts attempts w1 = (outcomes, w2)
           ∧ all_refused "corrupt-state" attempts outcomes = true
           ∧ stateWriteBlockedReason w2 = Some "corrupt-state"
           ∧ stateIsWritable w2 = false
           ∧ storage w2 = storage w)
    ∧ (∀ w2, stateCorruptionReason (handleStorageChanged w2).2 = None)
    ∧ (∀ w2,
         ∃ w3,
           resetEncryption w2 = (Ok RespOk, w3)
           ∧ stateCorruptionReason w3 = None
           ∧ stateIsWritable w3 = true
           ∧ cachedState w3 = Some emptyState
           ∧ cryptoKey w3 = Some (generateKey (entropy w2))
           ∧ local_backups (storage w3) = None
           ∧ local_state (storage w3)
             = Some (if encryption_enabled (local_settings (storage w2))
                     then PEncrypted
                            (aes_encrypt (generateKey (entropy w2)) (S (entropy w2))
                               (JObj [("v", JNum (NInt 2)); ("tabs", JArr [])]))
                     else PPlain (JObj [("v", JNum (NInt 2)); ("tabs", JArr [])]))).
Proof.
  intros Hl Hc Hp Hd.
  rewrite (loadState_decrypt_fails w c msg Hl Hc Hp Hd).
  set (w1 := set_cachedState _ _).
  assert (Hinv : corrupt_inv w1) by (by split; [|eexists]).
  exists w1. split; [done|].
  pose proof (corrupt_inv_blocked w1 Hinv) as Hb.
  split; [done|]. split; [by apply (blocked_reason w1 _ Hb)|].
  split; [|split].
  - intros attempts.
    destruct (run_attempts_corrupt attempts w1 Hinv) as (os & w2 & Hrun & Hos & Hinv2 & Hs).
    exists os, w2. pose proof (corrupt_inv_blocked w2 Hinv2) as Hb2.
    split; [done|]. split; [done|]. split; [done|].
    split; [by apply (blocked_reason w2 _ Hb2)|]. by rewrite Hs.
  - done.
  - intros w2.
    destruct (resetEncryption_result w2)
      as (w3 & Hr & Hcor & Hblk & Hcache & Hkey & Hbk & _ & _ & _ & Hst).
    exists w3. split; [done|]. split; [done|].
    split; [by apply writable_iff|]. done.
Qed.

(** ** Key records *)

(** C5: cloud-backup eligibility. When the key record in effect is not
    wrapped under a passkey, or there is none, [setCloudBackupEnabled(true)]
    answers [passkey-required] and changes nothing: the stored preference,
    false before, is false after, and nothing is written to the sync area.
    [persistKeyRecord] stores a record in the sync area only when the
    record has both [cloudBackupEnabled] and [usingPasskey], and removes
    the sync record otherwise; a record of a key kept in the clear, as the
    code builds it, never reaches the sync area. *)
Theorem cloud_backup_requires_passkey `{Coercions} `{Crypto} (w : World) :
  (∀ r, (loadKeyRecord true w).1 = Ok (Some r) → usingPasskey r = false) →
  setCloudBackupEnabled true w = (Ok (RespError "passkey-required"), w)
  ∧ (encryption_cloudBackupEnabled (local_settings (storage w)) = false →
     encryption_cloudBackupEnabled
       (local_settings (storage (setCloudBackupEnabled true w).2)) = false)
  ∧ sync_keyRecord (storage (setCloudBackupEnabled true w).2)
    = sync_keyRecord (storage w)
  ∧ (∀ r w0,
       sync_keyRecord (storage (persistKeyRecord r w0).2)
       = if cloudBackupEnabled r && usingPasskey r then Some r else None)
  ∧ (∀ b64 cloud now w0,
       sync_keyRecord (storage (persistKeyRecord (plaintextRecord b64 cloud now) w0).2)
       = None).
Proof.
  intros Hrec.
  assert (Hcall : setCloudBackupEnabled true w = (Ok (RespError "passkey-required"), w)).
  { unfold setCloudBackupEnabled. revert Hrec. munfold.
    destruct (sync_keyRecord (storage w)) as [r|].
    - intros Hr. rewrite (Hr r eq_refl). done.
    - destruct (local_keyRecord (storage w)) as [r|].
      + intros Hr. rewrite (Hr r eq_refl). done.
      + intros _. by destruct (cryptoKey w). }
  rewrite Hcall. split; [done|]. split; [done|]. split; [done|]. split.
  - intros r w0. unfold persistKeyRecord. munfold.
    by destruct (cloudBackupEnabled r && usingPasskey r).
  - intros b64 cloud now w0. unfold persistKeyRecord. munfold.
    by rewrite andb_false_r.
Qed.

(** C6, as the code has it: [unwrapDataKey] derives the wrapping key with
    the stored iteration count as it is, also below the floor, and with
    the default count when the record has none; the floor of 150000 is
    applied where a key is wrapped. *)
Theorem unwrap_uses_stored_iterations `{Crypto} (passkey : string)
    (record : KeyRecord) :
  wk_iterations (unwrapWrappingKey passkey record)
  = or_iterations (iterations record) default_iterations
  ∧ (∀ n, iterations record = Some n → n ≠ 0 →
          wk_iterations (unwrapWrappingKey passkey record) = n)
  ∧ (∀ w, isValidKeyRecord record = true →
          (unwrapDataKey passkey record w).1
          = unwrap_key (unwrapWrappingKey passkey record)
              (default "" (keyIV record)) (default "" (encryptedKey record)))
  ∧ (∀ salt i, MIN_ITERATIONS <= wk_iterations (deriveWrappingKey passkey salt i true))
  ∧ (∀ w key,
       cryptoKey w = Some key →
       ∃ wrapped w',
         wrapDataKey passkey w = (Ok wrapped, w')
         ∧ w_encryptedKey wrapped
           = wrap_key (mkWrappingKey passkey (w_keySalt wrapped)
                         (Z.max (or_iterations
                                   (Some (encryption_iterations (local_settings (storage w))))
                                   default_iterations)
                                MIN_ITERATIONS))
               (w_keyIV wrapped) key).
Proof.
  assert (Hor : ∀ i, or_iterations (Some (or_iterations i default_iterations))
                       default_iterations
                     = or_iterations i default_iterations).
  { intros [n|]; simpl; [destruct (Z.eqb_spec n 0) as [->|Hn]; simpl|].
    - by destruct (default_iterations =? 0).
    - by apply Z.eqb_neq in Hn as ->.
    - by destruct (default_iterations =? 0). }
  assert (Hit : wk_iterations (unwrapWrappingKey passkey record)
                = or_iterations (iterations record) default_iterations)
    by apply Hor.
  split; [exact Hit|]. split; [|split; [|split]].
  - intros n Hn Hn0. rewrite Hit, Hn. simpl. by apply Z.eqb_neq in Hn0 as ->.
  - intros w Hvalid. unfold unwrapDataKey. rewrite Hvalid. munfold.
    by destruct (unwrap_key _ _ _).
  - intros salt i. simpl. lia.
  - intros w key Hkey. unfold wrapDataKey. munfold. rewrite Hkey. simpl.
    by eexists _, _.
Qed.

Section RecordExamples.
#[local] Existing Instance plainCoercions.
#[local] Existing Instance symbolicCrypto.

(** Enabling cloud backup while the key is kept in the clear, through
    [cloud_backup_requires_passkey]. *)
Lemma cloud_backup_requires_passkey_witness :
  setCloudBackupEnabled true clearKeyWorld
  = (Ok (RespError "passkey-required"), clearKeyWorld)
  ∧ encryption_cloudBackupEnabled
      (local_settings (storage (setCloudBackupEnabled true clearKeyWorld).2)) = false.
Proof.
  destruct (cloud_backup_requires_passkey clearKeyWorld) as (Hcall & Hpref & _).
  - intros r. vm_compute. by intros [= <-].
  - split; [exact Hcall|]. apply Hpref. reflexivity.
Defined.

(** The unwrap of a record with a stored count of 1000, through
    [unwrap_uses_stored_iterations]. *)
Lemma unwrap_uses_stored_iterations_witness :
  wk_iterations (unwrapWrappingKey "secret" weakRecord) = 1000.
Proof.
  apply (proj1 (proj2 (unwrap_uses_stored_iterations "secret" weakRecord)) 1000);
    [reflexivity|lia].
Defined.

(** C6 as stated fails: the record is wrapped under a passkey with a
    stored count of 1000, below the floor, and the wrapping key of the
    unwrap is derived with 1000 iterations, not with 150000. *)
Lemma unwrap_floor_counterexample :
  usingPasskey weakRecord = true
  ∧ iterations weakRecord = Some 1000
  ∧ 1000 < MIN_ITERATIONS
  ∧ isValidKeyRecord weakRecord = true
  ∧ wk_iterations (unwrapWrappingKey "secret" weakRecord) = 1000
  ∧ wk_iterations (unwrapWrappingKey "secret" weakRecord) ≠ Z.max 1000 MIN_ITERATIONS.
Proof. repeat split; try (vm_compute; reflexivity). vm_compute. discriminate. Qed.

End RecordExamples.

Section StoreExamples.
#[local] Existing Instance plainCoercions.
#[local] Existing Instance symbolicCrypto.

(** A blocked [saveState], through [blocked_write_raises]. *)
Lemma blocked_write_raises_witness :
  saveState demoState corruptWorld
  = (Throw "corrupt-state", set_cachedState (Some demoState) corruptWorld)
  ∧ lockedMutationResponse false corruptWorld = RespLocked "corrupt-state".
Proof.
  destruct (blocked_write_raises corruptWorld demoState)
    as (r & Hr & Hsave & _ & _ & Hresp & _); [right; reflexivity|].
  assert (r = "corrupt-state") as -> by (vm_compute in Hr; congruence).
  by split.
Defined.

(** C7 as stated fails: on a state marked corrupt, [saveState] does not
    return a result; it raises. *)
Lemma saveState_raises_counterexample :
  stateIsCorrupt corruptWorld = true
  ∧ (saveState demoState corruptWorld).1 = Throw "corrupt-state"
  ∧ ∀ v, (saveState demoState corruptWorld).1 ≠ Ok v.
Proof. repeat split; try (vm_compute; reflexivity). intros v. vm_compute. discriminate. Qed.

(** A failed decryption, through [corruption_sticky]: the stored state of
    [foreignWorld] was encrypted under another key. *)
Lemma corruption_sticky_witness :
  ∃ w1, loadState foreignWorld = (Ok emptyState, w1)
        ∧ stateWriteBlockedReason w1 = Some "corrupt-state"
        ∧ (run_attempts [ASave demoState; ALoad; ATabRemoved 1] w1).1
          = [ORaised "corrupt-state"; OValue; OValue].
Proof.
  destruct (corruption_sticky foreignWorld (8%nat, JNull) "OperationError")
    as (w1 & Hload & Hb & _ & _); [vm_compute; reflexivity..|].
  exists w1. split; [exact Hload|]. split; [exact Hb|].
  replace w1 with (loadState foreignWorld).2 by (by rewrite Hload).
  vm_compute. reflexivity.
Defined.

(** C4 as stated fails: after the failed decryption the stored state is
    replaced from outside and the change is notified; no reset has taken
    place, yet the state is writable again and [saveState] goes through. *)
Lemma corruption_cleared_counterexample :
  let w1 := (loadState foreignWorld).2 in
  let w2 := set_storage
              (set_local_state (Some (PEncrypted (9%nat, JNull))) (storage w1)) w1 in
  let w3 := (handleStorageChanged w2).2 in
  stateWriteBlockedReason w1 = Some "corrupt-state"
  ∧ stateIsWritable w3 = true
  ∧ (saveState demoState w3).1 = Ok tt
  ∧ local_state (storage (saveState demoState w3).2) ≠ local_state (storage w2).
Proof. repeat split; try (vm_compute; reflexivity). vm_compute. discriminate. Qed.

End StoreExamples.

(** ** The state lock *)

Module LockFacts.
Import Lock.
Section Invariant.
Context {St : Type} (s0 : St).

#[local] Abbreviation Config := (Config St).
#[local] Abbreviation inv := (inv s0).
#[local] Abbreviation inv_at := (inv_at s0).
#[local] Abbreviation after := (after s0).

Lemma inv_init : inv (init s0).
Proof.
  exists 0%nat. repeat split; simpl; try done.
  - intros Hp. apply elem_of_singleton in Hp. lia.
  - intros Hp. apply elem_of_singleton. lia.
Qed.

Lemma after_S d c fn :
  bodies c !! d = Some fn → after (S d) c = run_body fn (after d c).
Proof.
  intros Hfn. unfold after, serial. rewrite (take_S_r _ _ _ Hfn).
  by rewrite fold_left_app.
Qed.

Lemma inv_call fn c c' : inv c → fire (Call fn) c = Some c' → inv c'.
Proof.
  intros (d & Hlock & Hlen & Hd & Hres & Htasks & Hidle) [= <-].
  exists d. unfold inv_at. simpl.
  assert (Hafter : ∀ bs, take d (bodies c ++ bs) = take d (bodies c)).
  { intros bs. apply take_app_le. lia. }
  rewrite !length_app. simpl.
  split; [lia|]. split; [lia|]. split; [lia|]. split; [exact Hres|].
  split; [|lia].
  intros k t Hk. unfold task_inv, after. simpl. rewrite Hafter.
  apply lookup_app_Some in Hk as [Hk | [Hge Hk]].
  - destruct (Htasks k t Hk) as (fn' & Hfn' & Ht).
    exists fn'. split; [by apply lookup_app_l_Some|]. exact Ht.
  - destruct (k - length (tasks c))%nat as [|n] eqn:Hn; [|done].
    simpl in Hk. injection Hk as <-.
    assert (k = length (tasks c)) as -> by lia.
    exists fn. split.
    { rewrite <-Hlen. by apply list_lookup_middle. }
    split; [lia|]. split; [lia|]. split; [lia|]. split; [done|].
    intros <-. by apply Hidle.
Qed.

Lemma inv_resume k c c' : inv c → fire (Resume k) c = Some c' → inv c'.
Proof.
  intros (d & Hlock & Hlen & Hd & Hres & Htasks & Hidle). simpl.
  destruct (tasks c !! k) as [[prev rel fn| |]|] eqn:Hk; try done.
  case_bool_decide as Hprev; [|done]. intros [= <-].
  destruct (Htasks _ _ Hk) as (fn' & Hfn' & Hge & -> & -> & -> & Hstore).
  apply Hres in Hprev. assert (k = d) as -> by lia.
  assert (Hlt : (d < length (tasks c))%nat) by (by eapply lookup_lt_Some).
  exists d. unfold inv_at. simpl. rewrite length_insert.
  split; [done|]. split; [done|]. split; [done|]. split; [exact Hres|].
  split; [|lia].
  intros j t Hj. unfold task_inv, after. simpl.
  destruct (decide (j = d)) as [->|Hne].
  - rewrite list_lookup_insert_eq in Hj by done.
    injection Hj as <-. exists fn'. split; [done|].
    split; [done|]. split; [done|]. by rewrite Hstore.
  - rewrite list_lookup_insert_ne in Hj by done. by apply Htasks.
Qed.

Lemma inv_exec k c c' : inv c → fire (Exec k) c = Some c' → inv c'.
Proof.
  intros (d & Hlock & Hlen & Hd & Hres & Htasks & Hidle). simpl.
  destruct (tasks c !! k) as [[| rel [| |step next] |]|] eqn:Hk; try done.
  intros [= <-].
  destruct (Htasks _ _ Hk) as (fn & Hfn & <- & -> & Hrun).
  assert (Hlt : (k < length (tasks c))%nat) by (by eapply lookup_lt_Some).
  exists k. unfold inv_at. simpl. rewrite length_insert.
  split; [done|]. split; [done|]. split; [done|]. split; [exact Hres|].
  split; [|lia].
  intros j t Hj. unfold task_inv, after. simpl.
  destruct (decide (j = k)) as [->|Hne].
  - rewrite list_lookup_insert_eq in Hj by done.
    injection Hj as <-. exists fn. split; [done|].
    split; [done|]. split; [done|]. exact Hrun.
  - rewrite list_lookup_insert_ne in Hj by done.
    destruct (Htasks _ _ Hj) as (fn' & Hfn' & Ht). exists fn'. split; [done|].
    destruct t as [prev rel' fn''|rel' rest|rel' ok]; [|lia|done].
    destruct Ht as (? & ? & ? & ? & ?).
    split; [done|]. split; [done|]. split; [done|]. split; [done|]. lia.
Qed.

Lemma inv_finish k c c' : inv c → fire (Finish k) c = Some c' → inv c'.
Proof.
  intros (d & Hlock & Hlen & Hd & Hres & Htasks & Hidle). simpl.
  destruct (tasks c !! k) as [[| rel rest |]|] eqn:Hk; try done.
  destruct (Htasks _ _ Hk) as (fn & Hfn & <- & -> & Hrun).
  assert (Hlt : (k < length (tasks c))%nat) by (by eapply lookup_lt_Some).
  intros Hfire.
  assert (store c = after (S k) c
          ∧ ∃ ok, c' = mkConfig (store c) (stateLock c) ({[ S k ]} ∪ resolved c)
                         (<[k := Settled (S k) ok]> (tasks c)) (bodies c))
    as (Hstore & ok & ->).
  { rewrite (after_S _ _ _ Hfn), <-Hrun.
    destruct rest; try done; injection Hfire as <-; split; by eauto. }
  clear Hfire. exists (S k). unfold inv_at. simpl. rewrite length_insert.
  split; [done|]. split; [done|]. split; [lia|]. split; [|split; [|done]].
  - intros p. rewrite elem_of_union, elem_of_singleton, Hres. lia.
  - intros j t Hj. unfold task_inv. simpl.
    destruct (decide (j = k)) as [->|Hne].
    + rewrite list_lookup_insert_eq in Hj by done.
      injection Hj as <-. exists fn. split; [done|]. split; [lia|done].
    + rewrite list_lookup_insert_ne in Hj by done.
      destruct (Htasks _ _ Hj) as (fn' & Hfn' & Ht). exists fn'. split; [done|].
      destruct t as [prev rel' fn''|rel' rest'|rel' ok']; [|lia|].
      * destruct Ht as (? & ? & ? & ? & ?).
        split; [lia|]. split; [done|]. split; [done|]. split; [done|]. done.
      * destruct Ht. split; [lia|done].
Qed.

Lemma inv_fire ev c c' : inv c → fire ev c = Some c' → inv c'.
Proof.
  destruct ev; eauto using inv_call, inv_resume, inv_exec, inv_finish.
Qed.

Lemma inv_run (sched : list (Event St)) (c c' : Config) : inv c → run sched c = Some c' → inv c'.
Proof.
  revert c. induction sched as [|ev sched IH]; intros c Hinv; simpl.
  - by intros [= <-].
  - destruct (fire ev c) as [c1|] eqn:Hfire; [|done].
    apply IH. by eapply inv_fire.
Qed.

Lemma bodies_run (sched : list (Event St)) (c c' : Config) :
  run sched c = Some c' → bodies c' = bodies c ++ callbacks sched.
Proof.
  revert c. induction sched as [|ev sched IH]; intros c; simpl.
  - intros [= <-]. by rewrite app_nil_r.
  - destruct (fire ev c) as [c1|] eqn:Hfire; [|done].
    intros Hrun. rewrite (IH _ Hrun).
    destruct ev as [fn|k|k|k]; simpl in Hfire.
    + injection Hfire as <-. simpl. by rewrite <-app_assoc.
    + destruct (tasks c !! k) as [[]|]; try done.
      case_bool_decide; [|done]. by injection Hfire as <-.
    + destruct (tasks c !! k) as [[| ? [] |]|]; try done. by injection Hfire as <-.
    + destruct (tasks c !! k) as [[| ? [] |]|]; try done; by injection Hfire as <-.
Qed.

Lemma inv_unsettled_position d (c : Config) k t :
  inv_at d c → tasks c !! k = Some t → is_settled t = false → (d ≤ k)%nat.
Proof.
  intros (_ & _ & _ & _ & Htasks & _) Hk Ht.
  destruct (Htasks _ _ Hk) as (fn & _ & Hinv).
  destruct t; try done; simpl in Hinv; lia.
Qed.

Lemma inv_all_settled d (c : Config) :
  inv_at d c → (∀ k t, tasks c !! k = Some t → is_settled t = true) →
  d = length (tasks c).
Proof.
  intros Hinv Hall. pose proof Hinv as (_ & _ & Hd & _ & Htasks & _).
  destruct (decide (d = length (tasks c))) as [|Hne]; [done|].
  destruct (lookup_lt_is_Some_2 (tasks c) d) as [t Ht]; [lia|].
  pose proof (Hall _ _ Ht) as Hset.
  destruct (Htasks _ _ Ht) as (fn & _ & Hinv').
  destruct t; try done. simpl in Hinv'. lia.
Qed.

End Invariant.
End LockFacts.

(** C3: mutual exclusion and first-in first-out order of the state lock.
    Take any schedule of the event loop over any number of calls of
    [withStateLock], each with its own callback, and any configuration it
    reaches. At most one callback is running; a callback has started only
    when every call made before it has settled; every call that settled,
    by returning or by raising, has resolved its release promise, and when
    all have settled the promise in [stateLock] is resolved; as long as a
    call has not settled some step is enabled; and when all have settled
    the store is what the callbacks give when run alone, one after the
    other, in the order of the calls. *)
Theorem state_lock_serialises {St : Type} (s0 : St) (sched : list (Lock.Event St))
    (c : Lock.Config St) :
  Lock.run sched (Lock.init s0) = Some c →
  (∀ i j ti tj,
     Lock.tasks c !! i = Some ti → Lock.tasks c !! j = Some tj →
     Lock.is_running ti = true → Lock.is_running tj = true → i = j)
  ∧ (∀ i j ti tj,
       (i < j)%nat →
       Lock.tasks c !! i = Some ti → Lock.tasks c !! j = Some tj →
       Lock.has_started tj = true → Lock.is_settled ti = true)
  ∧ (∀ k rel ok,
       Lock.tasks c !! k = Some (Lock.Settled rel ok) → rel ∈ Lock.resolved c)
  ∧ ((∀ k t, Lock.tasks c !! k = Some t → Lock.is_settled t = true) →
     Lock.stateLock c ∈ Lock.resolved c)
  ∧ ((∃ k t, Lock.tasks c !! k = Some t ∧ Lock.is_settled t = false) →
     ∃ k c', Lock.fire (Lock.Resume k) c = Some c'
             ∨ Lock.fire (Lock.Exec k) c = Some c'
             ∨ Lock.fire (Lock.Finish k) c = Some c')
  ∧ Lock.bodies c = Lock.callbacks sched
  ∧ ((∀ k t, Lock.tasks c !! k = Some t → Lock.is_settled t = true) →
     Lock.store c = Lock.serial (Lock.callbacks sched) s0).
Proof.
  intros Hrun.
  pose proof (LockFacts.inv_run s0 sched _ _ (LockFacts.inv_init s0) Hrun) as [d Hinv].
  pose proof (LockFacts.bodies_run sched _ _ Hrun) as Hbodies. simpl in Hbodies.
  pose proof Hinv as (Hlock & Hlen & Hd & Hres & Htasks & Hidle).
  split; [|split; [|split; [|split; [|split; [|split; [done|]]]]]].
  - intros i j ti tj Hi Hj Hri Hrj.
    destruct (Htasks _ _ Hi) as (? & _ & Hti), (Htasks _ _ Hj) as (? & _ & Htj).
    destruct ti, tj; try done. simpl in *. lia.
  - intros i j ti tj Hlt Hi Hj Hsj.
    destruct (Htasks _ _ Hi) as (? & _ & Hti), (Htasks _ _ Hj) as (? & _ & Htj).
    destruct ti, tj; try done; simpl in *; lia.
  - intros k rel ok Hk. destruct (Htasks _ _ Hk) as (? & _ & Hlt & ->).
    apply Hres. lia.
  - intros Hall. apply Hres. rewrite Hlock.
    by rewrite <-(LockFacts.inv_all_settled s0 d c Hinv Hall).
  - intros (k & t & Hk & Ht).
    pose proof (LockFacts.inv_unsettled_position s0 d c k t Hinv Hk Ht) as Hdk.
    destruct (lookup_lt_is_Some_2 (Lock.tasks c) d) as [td Htd].
    { apply lookup_lt_Some in Hk. lia. }
    destruct (Htasks _ _ Htd) as (fn & _ & Hinvd). exists d.
    destruct td as [prev rel fn'|rel rest|rel ok]; simpl in Hinvd.
    + destruct Hinvd as (_ & -> & _). eexists. left. simpl. rewrite Htd.
      rewrite bool_decide_eq_true_2; [done|]. by apply Hres.
    + destruct rest as [| |step next].
      * eexists. right. right. simpl. by rewrite Htd.
      * eexists. right. right. simpl. by rewrite Htd.
      * eexists. right. left. simpl. by rewrite Htd.
    + lia.
  - intros Hall.
    pose proof (LockFacts.inv_all_settled s0 d c Hinv Hall) as ->.
    rewrite (Hidle eq_refl). unfold Lock.after. rewrite <-Hlen, firstn_all.
    by rewrite Hbodies.
Qed.

Section LockExamples.

(** The two increments under the lock, through [state_lock_serialises]:
    the counter ends at 2 and the lock is free. *)
Lemma state_lock_serialises_witness :
  ∃ c, Lock.run twoIncrements (Lock.init 0%nat) = Some c
       ∧ Lock.store c = 2%nat
       ∧ Lock.stateLock c ∈ Lock.resolved c.
Proof.
  destruct (Lock.run twoIncrements (Lock.init 0%nat)) as [c|] eqn:Hrun;
    [|vm_compute in Hrun; discriminate].
  exists c. split; [done|].
  destruct (state_lock_serialises 0%nat twoIncrements c Hrun)
    as (_ & _ & _ & Hfree & _ & _ & Hserial).
  assert (Hall : ∀ k t, Lock.tasks c !! k = Some t → Lock.is_settled t = true).
  { vm_compute in Hrun. injection Hrun as <-.
    intros [|[|k]] t; simpl; intros [= <-]; done. }
  split; [|by apply Hfree]. rewrite (Hserial Hall). reflexivity.
Defined.

(** The second callback cannot start while the first holds the lock. *)
Example second_waits :
  Lock.run [Lock.Call increment; Lock.Call increment; Lock.Resume 0; Lock.Exec 0;
            Lock.Resume 1] (Lock.init 0%nat) = None.
Proof. vm_compute. reflexivity. Qed.

End LockExamples.

(** * Further properties *)

#[local] Arguments wrapDataKey : simpl never.
#[local] Arguments unwrapDataKey : simpl never.
#[local] Arguments unlockWithPasskey : simpl never.
#[local] Arguments generateAndPersistDataKey : simpl never.

(** ** More on the codec: decoded states are stable *)

Section CodecStability.
Context `{Coercions}.
Import Codec.

(** An entry of the shape both decoders build, with components of the
    types they guarantee, is valid and is its own normal form. *)
Lemma built_entry_normal url title W A method reason fav tok I b :
  nonempty_string url = true → is_string title = true →
  is_finite_val W = true → is_finite_val A = true →
  method = "discard" ∨ method = "page" →
  is_string reason = true → is_string fav = true →
  is_string tok = true → is_finite_val I = true →
  let n := [("url", url); ("title", title); ("windowId", W);
            ("suspendedAt", A); ("method", JStr method);
            ("reason", reason); ("favIconUrl", fav)]
           ++ token_fields method tok I (JBool b) in
  valid_entry n ∧ norm_entry n = n.
Proof.
  intros Hurl Htitle HW HA Hm Hreason Hfav Htok HI n.
  assert (Hus : is_string url = true) by (by destruct url).
  assert (Hut : js_truthy url = true) by (by destruct url).
  split; [by destruct Hm as [-> | ->]|].
  destruct Hm as [-> | ->]; subst n; unfold norm_entry, normalizeEntry; simpl;
    rewrite Hus, Hut; simpl;
    rewrite !(string_or_empty_id title), !(string_or_empty_id reason),
      !(string_or_empty_id fav) by done;
    rewrite !(toFiniteNumber_id W), !(toFiniteNumber_id A) by done.
  - done.
  - rewrite (string_or_empty_id tok), !(toFiniteNumber_id I) by done.
    assert (Hp : ∀ fb', decodeMethod (JStr "page") fb' = "page") by done.
    rewrite Hp. simpl. by destruct b.
Qed.

Lemma decodeTuple_normal t k e :
  decodeTuple t = Some (k, e) → valid_entry e ∧ norm_entry e = e.
Proof.
  unfold decodeTuple.
  destruct (negb (isArray t) || _); [done|].
  destruct (toFiniteNumber (index t 0) (JNum NNaN)) as [| | |[z| | | |]| | |];
    try done.
  destruct (z <=? 0); [done|].
  destruct (negb (js_truthy (string_or_empty (index t 1)))) eqn:Hurl; [done|].
  intros [= <- <-].
  apply built_entry_normal;
    auto using string_or_empty_string, toFiniteNumber_finite.
  - apply nonempty_string_guard. by rewrite Hurl, string_or_empty_string.
  - apply decodeMethod_known. auto.
Qed.

Lemma normalizeEntry_normal x n :
  normalizeEntry x = Ok (Some n) → valid_entry n ∧ norm_entry n = n.
Proof.
  unfold normalizeEntry.
  destruct (negb (js_truthy x) || negb (is_object_type x)) eqn:Hguard; [done|].
  assert (Hget : ∀ k, get_prop x k = Ok (field x k)) by (by destruct x).
  rewrite !Hget. simpl.
  destruct (negb (is_string (field x "url")) || _) eqn:Hurl; [done|].
  simpl. intros [= <-].
  apply built_entry_normal;
    auto using string_or_empty_string, toFiniteNumber_finite, nonempty_string_guard.
  apply decodeMethod_known. case_match; auto.
Qed.

Lemma decodeTuples_normal tuples k e :
  decodeTuples tuples !! k = Some e → valid_entry e ∧ norm_entry e = e.
Proof.
  unfold decodeTuples.
  assert (Hacc : ∀ k e, (∅ : gmap string Entry) !! k = Some e →
                        valid_entry e ∧ norm_entry e = e)
    by (intros ??; by rewrite lookup_empty).
  revert Hacc k e. generalize (∅ : gmap string Entry).
  induction tuples as [|t ts IH]; intros acc Hacc k e; [apply Hacc|].
  simpl. apply IH. intros k' e'.
  destruct (decodeTuple t) as [[k0 e0]|] eqn:Ht; [|apply Hacc].
  rewrite lookup_insert. case_decide; [|apply Hacc].
  intros [= <-]. by eapply decodeTuple_normal.
Qed.

Lemma decodeLegacyEntries_normal es acc m :
  (∀ k e, acc !! k = Some e → valid_entry e ∧ norm_entry e = e) →
  decodeLegacyEntries es acc = Ok m →
  ∀ k e, m !! k = Some e → valid_entry e ∧ norm_entry e = e.
Proof.
  revert acc. induction es as [|[k0 x] es IH]; intros acc Hacc; simpl.
  - by intros [= <-].
  - destruct (normalizeEntry x) as [n|msg] eqn:Hn; simpl; [|done].
    apply IH. destruct n as [n|]; [|done].
    intros k e. rewrite lookup_insert. case_decide; [|apply Hacc].
    intros [= <-]. by eapply normalizeEntry_normal.
Qed.

(** Every entry of a decoded state is valid and in normal form. *)
Lemma decodeStateAny_normal raw st :
  decodeStateAny raw = Ok st →
  ∀ k e, suspendedTabs st !! k = Some e → valid_entry e ∧ norm_entry e = e.
Proof.
  unfold decodeStateAny.
  destruct (negb (js_truthy raw) || negb (is_object_type raw)) eqn:Hguard.
  { intros [= <-] k e. simpl. by rewrite lookup_empty. }
  assert (Hget : get_prop raw "v" = Ok (opt_prop raw "v")) by (by destruct raw).
  rewrite Hget. simpl.
  destruct (strict_eq (opt_prop raw "v") (JNum (NInt 2))).
  - intros [= <-] k e. simpl. apply decodeTuples_normal.
  - unfold decodeLegacyState. cbv zeta.
    destruct (negb (js_truthy (opt_prop raw "suspendedTabs")) || _).
    { intros [= <-] k e. simpl. by rewrite lookup_empty. }
    destruct (decodeLegacyEntries _ ∅) as [m|msg] eqn:Hm; simpl; [|done].
    intros [= <-]. simpl. eapply decodeLegacyEntries_normal; [|exact Hm].
    intros ??. by rewrite lookup_empty.
Qed.

(** [decodeStateAny] never raises. *)
Lemma decodeStateAny_ok raw : ∃ st, decodeStateAny raw = Ok st.
Proof.
  unfold decodeStateAny.
  destruct (negb (js_truthy raw) || negb (is_object_type raw)) eqn:Hguard;
    [by eexists|].
  assert (Hget : get_prop raw "v" = Ok (opt_prop raw "v")) by (by destruct raw).
  rewrite Hget. simpl.
  destruct (strict_eq (opt_prop raw "v") (JNum (NInt 2))); [by eexists|].
  unfold decodeLegacyState. cbv zeta.
  destruct (negb (js_truthy (opt_prop raw "suspendedTabs")) || _); [by eexists|].
  destruct (decodeLegacyEntries_spec (js_entries (opt_prop raw "suspendedTabs")) ∅)
    as (m & -> & _); [apply tabs_ok_empty|].
  by eexists.
Qed.

(** Encoding a valid state and decoding the result normalizes its
    entries. *)
Lemma encode_decode_valid st :
  valid_state st →
  ∃ raw st', encodeStateV2 st = Ok raw ∧ decodeStateAny raw = Ok st'
             ∧ suspendedTabs st' = norm_entry <$> suspendedTabs st.
Proof.
  intros Hst. unfold encodeStateV2.
  set (L := merge_sort key_order (map_to_list (suspendedTabs st))).
  assert (HL : L ≡ₚ map_to_list (suspendedTabs st)) by apply merge_sort_Permutation.
  destruct (encodeEntries_valid L) as (ts & Hts & Hdec).
  { intros k e Hin. apply Hst. apply elem_of_map_to_list. by rewrite <-HL. }
  rewrite Hts. simpl. eexists _, _. split; [reflexivity|].
  split; [reflexivity|]. simpl.
  rewrite decodeTuples_list_to_map, Hdec. by apply list_to_map_rev_fmap.
Qed.

Lemma fmap_norm_fixed (m : gmap string Entry) :
  (∀ k e, m !! k = Some e → norm_entry e = e) → norm_entry <$> m = m.
Proof.
  intros Hm. apply map_eq. intros k. rewrite lookup_fmap.
  destruct (m !! k) as [e|] eqn:Hk; simpl; [|done]. by rewrite (Hm k e Hk).
Qed.

End CodecStability.

(** X1: a decoded state is stable. Whatever payload was decoded, if the
    keys of the resulting state are tab ids (positive integers up to
    2^53 - 1, in decimal digits), then encoding that state does not raise
    and decoding the encoding gives the same state back, entry for
    entry. *)
Theorem decoded_state_stable `{Coercions} (raw : JsVal) (st : State) :
  Codec.decodeStateAny raw = Ok st →
  tab_id_keys (suspendedTabs st) →
  ∃ enc, Codec.encodeStateV2 st = Ok enc ∧ Codec.decodeStateAny enc = Ok st.
Proof.
  intros Hdec Hkeys.
  pose proof (decodeStateAny_normal raw st Hdec) as Hnorm.
  destruct (encode_decode_valid st) as (enc & st' & Henc & Hdec' & Hst').
  { intros k e Hke. split; [apply Hkeys; by eexists|by apply (Hnorm k e)]. }
  exists enc. split; [done|]. rewrite Hdec'. f_equal.
  destruct st as [m], st' as [m']. simpl in *. f_equal.
  rewrite Hst'. apply fmap_norm_fixed. intros k e Hke. by apply (Hnorm k e).
Qed.

Section CodecStabilityExamples.
#[local] Existing Instance plainCoercions.

(** A version 2 payload with a parked tab and a discarded one, through
    [decoded_state_stable]. *)
Lemma decoded_state_stable_witness :
  ∃ enc,
    Codec.decodeStateAny demoPayload = Ok demoDecoded
    ∧ Codec.encodeStateV2 demoDecoded = Ok enc
    ∧ Codec.decodeStateAny enc = Ok demoDecoded.
Proof.
  assert (Hdec : Codec.decodeStateAny demoPayload = Ok demoDecoded)
    by (vm_compute; reflexivity).
  destruct (decoded_state_stable demoPayload demoDecoded Hdec) as (enc & Henc & Hdec').
  - intros k [e He]. unfold demoDecoded in He. simpl in He.
    apply lookup_insert_Some in He as [[<- _]|[_ He]];
      [exists 7; split; [lia|reflexivity]|].
    apply lookup_insert_Some in He as [[<- _]|[_ He]];
      [exists 3; split; [lia|reflexivity]|].
    by rewrite lookup_empty in He.
  - by exists enc.
Defined.

End CodecStabilityExamples.

(** ** More on the state store *)

Section StoreMore.
Context `{Coercions} `{Crypto}.

(** What [loadState] returns and leaves behind, in every world. *)
Lemma loadState_result w :
  ∃ st w', loadState w = (Ok st, w') ∧ cachedState w' = Some st
           ∧ storage w' = storage w ∧ cryptoKey w' = cryptoKey w
           ∧ encryptionLocked w' = encryptionLocked w
           ∧ entropy w' = entropy w.
Proof.
  unfold loadState. munfold.
  destruct (stateIsLocked w); simpl; [ex_run|].
  destruct (cachedState w) as [st|] eqn:Hc; simpl; [ex_run|].
  destruct (local_state (storage w)) as [[c|encoded]|]; simpl.
  - destruct (cryptoKey w) as [key|] eqn:Hkey; simpl.
    + destruct (aes_decrypt key c) as [v|msg]; simpl.
      * destruct (decodeStateAny_ok v) as [st ->]. simpl. ex_run.
      * rewrite Hc. ex_run.
    + rewrite Hc. ex_run.
  - destruct (js_truthy encoded); simpl.
    + destruct (decodeStateAny_ok encoded) as [st ->]. simpl. ex_run.
    + ex_run.
  - ex_run.
Qed.


(** Reading back what [saveState] stored, with the cache dropped. *)
Lemma loadState_stored st raw w st' :
  stateIsWritable w = true →
  (∀ key, cryptoKey w = Some key →
          aes_decrypt key (aes_encrypt key (entropy w) raw) = Ok raw) →
  Codec.decodeStateAny raw = Ok st' →
  js_truthy raw = true →
  ∃ w3, loadState (handleStorageChanged (saved st raw w)).2 = (Ok st', w3)
        ∧ stateIsWritable w3 = true ∧ cachedState w3 = Some st'.
Proof.
  intros Hw Hdec Hraw Htruthy.
  destruct (writable_unlocked w Hw) as (Hcor & Hl & [key Hkey]).
  assert (Hlocked : encryptionLocked w = false).
  { unfold stateIsLocked in Hl. by apply orb_false_iff in Hl as [-> _]. }
  unfold handleStorageChanged, saved, loadState. munfold.
  unfold stateIsLocked, hasCryptoKey. rewrite Hkey.
  destruct (encryption_enabled (local_settings (storage w))); simpl;
    rewrite Hkey, Hlocked; simpl.
  - rewrite Hkey. simpl. rewrite (Hdec key Hkey). simpl. rewrite Hraw. simpl.
    eexists. split; [reflexivity|]. split; [|done].
    apply writable_iff. unfold stateWriteBlockedReason, stateIsCorrupt, stateIsLocked,
      hasCryptoKey. simpl. by rewrite Hkey, Hlocked.
  - rewrite Htruthy. simpl. rewrite Hraw. simpl.
    eexists. split; [reflexivity|]. split; [|done].
    apply writable_iff. unfold stateWriteBlockedReason, stateIsCorrupt, stateIsLocked,
      hasCryptoKey. simpl. by rewrite Hkey, Hlocked.
Qed.

Lemma encodeStateV2_truthy st raw : Codec.encodeStateV2 st = Ok raw → js_truthy raw = true.
Proof.
  unfold Codec.encodeStateV2.
  destruct (Codec.encodeEntries _) as [ts|msg]; simpl; [|done]. by intros [= <-].
Qed.

End StoreMore.


(** X3: what [saveState] stores, [loadState] reads back. On a writable
    world whose cipher decrypts what it encrypted, after [saveState(st)]
    and the storage-change event that drops the cache, [loadState] returns
    the decoding of the encoding of [st] and the state is still writable;
    for a valid state (non-empty string urls, ids that are positive
    integers up to 2^53 - 1) that is [st] with every entry normalized. *)
Theorem save_load_roundtrip `{Coercions} `{Crypto} (w : World) (st : State) :
  stateIsWritable w = true →
  (∀ key raw, cryptoKey w = Some key →
              aes_decrypt key (aes_encrypt key (entropy w) raw) = Ok raw) →
  ∃ raw st' w1 w3,
    Codec.encodeStateV2 st = Ok raw
    ∧ saveState st w = (Ok tt, w1)
    ∧ loadState (handleStorageChanged w1).2 = (Ok st', w3)
    ∧ Codec.decodeStateAny raw = Ok st'
    ∧ stateIsWritable w3 = true
    ∧ (valid_state st → suspendedTabs st' = norm_entry <$> suspendedTabs st).
Proof.
  intros Hw Hdec.
  destruct (saveState_writable st w Hw) as (raw & Henc & Hsave).
  destruct (decodeStateAny_ok raw) as [st' Hst'].
  destruct (loadState_stored st raw w st' Hw) as (w3 & Hload & Hw3 & _);
    [intros key Hkey; by apply Hdec|done|by eapply encodeStateV2_truthy|].
  exists raw, st', (saved st raw w), w3.
  split; [done|]. split; [done|]. split; [done|]. split; [done|]. split; [done|].
  intros Hvalid.
  destruct (encode_decode_valid st Hvalid) as (raw2 & st2 & Henc2 & Hdec2 & Htabs).
  congruence.
Qed.

Section StoreMoreExamples.
#[local] Existing Instance plainCoercions.
#[local] Existing Instance symbolicCrypto.

(** The state of the scenario saved and read back, through
    [save_load_roundtrip]. *)
Lemma save_load_roundtrip_witness :
  ∃ w1 w3, saveState demoState demoWorld = (Ok tt, w1)
           ∧ loadState (handleStorageChanged w1).2 = (Ok demoState, w3).
Proof.
  destruct (save_load_roundtrip demoWorld demoState)
    as (raw & st' & w1 & w3 & Henc & Hsave & Hload & Hdec & _ & _).
  - vm_compute. reflexivity.
  - intros key raw _. simpl. by rewrite Nat.eqb_refl.
  - exists w1, w3. split; [exact Hsave|]. rewrite Hload. do 2 f_equal.
    assert (Ok st' = Ok demoState) as [= ->]; [|done].
    rewrite <-Hdec. assert (Ok raw = Codec.encodeStateV2 demoState) as [= ->] by done.
    vm_compute. reflexivity.
Defined.

End StoreMoreExamples.

(** ** Tab removal and the outcomes of the token flow *)

Section FlowMore.
Context `{Coercions} `{Crypto}.

Lemma loadState_caches w st w0 :
  loadState w = (Ok st, w0) → cachedState w0 = Some st ∧ storage w0 = storage w.
Proof.
  intros Hload. destruct (loadState_result w) as (st' & w' & Hl & Hc & Hs & _).
  rewrite Hl in Hload. by injection Hload as <- <-.
Qed.

(** [handleTabRemoved] on a writable world. *)
Lemma handleTabRemoved_writable tabId w st w0 :
  stateIsWritable w = true →
  loadState w = (Ok st, w0) →
  stateIsWritable w0 = true →
  handleTabRemoved tabId w
  = if bool_decide (is_Some (suspendedTabs st !! number_key (NInt tabId)))
    then saveState (deleteEntry (number_key (NInt tabId)) st)
           (set_cachedState (Some (deleteEntry (number_key (NInt tabId)) st)) w0)
    else (Ok tt, w0).
Proof.
  intros Hw Hload Hw0. unfold handleTabRemoved. munfold.
  rewrite Hw. simpl. rewrite Hw. simpl. rewrite Hload. simpl.
  destruct (bool_decide _); simpl; [|done].
  destruct (saveState_writable (deleteEntry (number_key (NInt tabId)) st)
              (set_cachedState (Some (deleteEntry (number_key (NInt tabId)) st)) w0))
    as (raw & _ & ->); done.
Qed.

(** The responses of the finalize phase. *)
Lemma finalizeToken_response tabId w r w' :
  finalizeToken tabId w = (Ok r, w') → r = RespOk ∨ ∃ reason, r = RespLocked reason.
Proof.
  unfold finalizeToken, lockedMutationResponse. munfold.
  destruct (stateIsWritable w); simpl.
  - destruct (loadState w) as [[st|msg] w0]; simpl; [|done].
    destruct (saveState _ _) as [[[]|msg] w1]; simpl; [|done].
    intros [= <- _]. by left.
  - intros [= <- _]. right. by eexists.
Qed.

(** The flow on a writable world, phase by phase. *)
Lemma process_writable resume tabId token ttl now w st w0 :
  stateIsWritable w = true →
  loadState w = (Ok st, w0) →
  processUnsuspendTokenMessage resume tabId token ttl now w
  = match suspendedTabs st !! number_key (NInt tabId) with
    | None => (Ok (RespError "invalid-token"), w0)
    | Some e =>
        if negb (strict_eq (assoc e "token") token)
        then (Ok (RespError "invalid-token"), w0)
        else if js_truthy (assoc e "tokenUsed")
        then (Ok (RespError "used"), w0)
        else if tokenExpired e ttl (now w0)
        then (Ok (RespError "expired"), w0)
        else match saveState (reserved (number_key (NInt tabId)) st e)
                     (set_cachedState (Some (reserved (number_key (NInt tabId)) st e)) w0) with
             | (Throw msg, w1) => (Throw msg, w1)
             | (Ok _, w1) =>
                 match resume tabId (consume e) w1 with
                 | (Ok true, w2) => finalizeToken tabId w2
                 | (Ok false, w2) => (Ok (RespError "resume-failed"), w2)
                 | (Throw msg, w2) => (Throw msg, w2)
                 end
             end
    end.
Proof.
  intros Hw Hload. unfold processUnsuspendTokenMessage, reserveToken. munfold.
  rewrite Hw. simpl. rewrite Hw. simpl. rewrite Hload. simpl.
  destruct (suspendedTabs st !! number_key (NInt tabId)) as [e|]; simpl; [|done].
  destruct (strict_eq (assoc e "token") token); simpl; [|done].
  destruct (js_truthy (assoc e "tokenUsed")); simpl; [done|].
  destruct (tokenExpired e ttl (now w0)); simpl; [done|].
  unfold reserved, consume.
  destruct (saveState _ _) as [[[]|msg] w1]; simpl; [|done].
  destruct (resume tabId _ w1) as [[[]|msg] w2]; done.
Qed.

End FlowMore.

(** X4: [handleTabRemoved] drops the entry of the closed tab and swallows
    its own failures. It never raises; on a writable world the cached
    state afterwards is the loaded state without the entry of the tab; and
    when the tab had no entry nothing is written to storage. *)
Theorem handleTabRemoved_removes `{Coercions} `{Crypto} (tabId : Z) (w : World) :
  (handleTabRemoved tabId w).1 = Ok tt
  ∧ (∀ st w0,
       stateIsWritable w = true → loadState w = (Ok st, w0) →
       stateIsWritable w0 = true →
       ∃ w', handleTabRemoved tabId w = (Ok tt, w')
             ∧ cachedState w' = Some (deleteEntry (number_key (NInt tabId)) st)
             ∧ suspendedTabs (deleteEntry (number_key (NInt tabId)) st)
               !! number_key (NInt tabId) = None
             ∧ (suspendedTabs st !! number_key (NInt tabId) = None → w' = w0)).
Proof.
  split.
  - unfold handleTabRemoved. munfold.
    destruct (stateIsWritable w); simpl; [|done].
    match goal with |- (let (_, _) := ?m in _).1 = _ => destruct m as [[[]|msg] w1] end;
      done.
  - intros st w0 Hw Hload Hw0.
    rewrite (handleTabRemoved_writable tabId w st w0 Hw Hload Hw0).
    destruct (loadState_caches w st w0 Hload) as [Hc _].
    destruct (suspendedTabs st !! number_key (NInt tabId)) as [e|] eqn:He.
    + rewrite bool_decide_eq_true_2 by (by eexists).
      destruct (saveState_writable (deleteEntry (number_key (NInt tabId)) st)
                  (set_cachedState (Some (deleteEntry (number_key (NInt tabId)) st)) w0))
        as (raw & _ & ->); [done|].
      eexists. split; [reflexivity|]. split; [apply saved_cached|].
      split; [apply lookup_delete_eq|done].
    + rewrite bool_decide_eq_false_2 by (by intros [? ?]).
      exists w0. split; [done|]. unfold deleteEntry.
      rewrite (delete_id _ _ He). split; [by destruct st|].
      split; [done|done].
Qed.

(** X5: a rejected token writes nothing. Whenever the flow answers with an
    error other than [resume-failed], the error is [invalid-token], [used]
    or [expired], the resume action was not invoked, and the world is the
    one [loadState] left: storage is unchanged. *)
Theorem rejected_token_writes_nothing `{Coercions} `{Crypto}
    (resume : Z → Entry → M bool) (tabId : Z) (token : JsVal) (ttl : JsNum)
    (now : World → JsNum) (w w' : World) (err : string) :
  processUnsuspendTokenMessage resume tabId token ttl now w
  = (Ok (RespError err), w') →
  err ≠ "resume-failed" →
  err ∈ ["invalid-token"; "used"; "expired"]
  ∧ w' = (loadState w).2
  ∧ storage w' = storage w.
Proof.
  intros Hrun Herr.
  destruct (stateIsWritable w) eqn:Hw.
  2:{ apply not_true_iff_false in Hw. rewrite writable_iff in Hw.
      destruct (stateWriteBlockedReason w) as [r|] eqn:Hr; [|done].
      by rewrite (process_blocked resume tabId token ttl now w r Hr) in Hrun. }
  destruct (loadState_result w) as (st & w0 & Hload & _ & Hs & _).
  rewrite (process_writable resume tabId token ttl now w st w0 Hw Hload) in Hrun.
  rewrite Hload. simpl.
  assert (Hrej : ∀ e, (Ok (RespError e), w0) = (Ok (RespError err), w') →
                      e ∈ ["invalid-token"; "used"; "expired"] →
                      err ∈ ["invalid-token"; "used"; "expired"]
                      ∧ w' = w0 ∧ storage w' = storage w).
  { intros e [= <- <-] He. done. }
  destruct (suspendedTabs st !! number_key (NInt tabId)) as [e|];
    [|apply (Hrej _ Hrun); by repeat constructor].
  destruct (strict_eq (assoc e "token") token); simpl in Hrun;
    [|apply (Hrej _ Hrun); by repeat constructor].
  destruct (js_truthy (assoc e "tokenUsed")); [apply (Hrej _ Hrun); by repeat constructor|].
  destruct (tokenExpired e ttl (now w0)); [apply (Hrej _ Hrun); by repeat constructor|].
  destruct (saveState _ _) as [[[]|msg] w1]; [|done].
  destruct (resume tabId (consume e) w1) as [[[]|msg] w2]; [| |done].
  - apply finalizeToken_response in Hrun as [?|[? ?]]; done.
  - by injection Hrun as <- _.
Qed.

(** X6: only a valid token resumes a tab. Whenever the flow answers
    [{ ok: true }], the state loaded in the reserve phase held an entry for
    the item id whose token is strictly equal to the presented one, not
    yet used and not expired, and the resume action was invoked on that
    entry with [tokenUsed] set, after that was saved. *)
Theorem resumed_token_was_valid `{Coercions} `{Crypto}
    (resume : Z → Entry → M bool) (tabId : Z) (token : JsVal) (ttl : JsNum)
    (now : World → JsNum) (w w' : World) :
  processUnsuspendTokenMessage resume tabId token ttl now w = (Ok RespOk, w') →
  ∃ st w0 e w1 w2,
    loadState w = (Ok st, w0)
    ∧ suspendedTabs st !! number_key (NInt tabId) = Some e
    ∧ strict_eq (assoc e "token") token = true
    ∧ js_truthy (assoc e "tokenUsed") = false
    ∧ tokenExpired e ttl (now w0) = false
    ∧ saveState (reserved (number_key (NInt tabId)) st e)
        (set_cachedState (Some (reserved (number_key (NInt tabId)) st e)) w0) = (Ok tt, w1)
    ∧ resume tabId (consume e) w1 = (Ok true, w2)
    ∧ finalizeToken tabId w2 = (Ok RespOk, w').
Proof.
  intros Hrun.
  destruct (stateIsWritable w) eqn:Hw.
  2:{ apply not_true_iff_false in Hw. rewrite writable_iff in Hw.
      destruct (stateWriteBlockedReason w) as [r|] eqn:Hr; [|done].
      by rewrite (process_blocked resume tabId token ttl now w r Hr) in Hrun. }
  destruct (loadState_result w) as (st & w0 & Hload & _).
  rewrite (process_writable resume tabId token ttl now w st w0 Hw Hload) in Hrun.
  destruct (suspendedTabs st !! number_key (NInt tabId)) as [e|] eqn:He; [|done].
  destruct (strict_eq (assoc e "token") token) eqn:Htok; simpl in Hrun; [|done].
  destruct (js_truthy (assoc e "tokenUsed")) eqn:Hused; [done|].
  destruct (tokenExpired e ttl (now w0)) eqn:Hexp; [done|].
  destruct (saveState _ _) as [[[]|msg] w1] eqn:Hsave; [|done].
  destruct (resume tabId (consume e) w1) as [[[]|msg] w2] eqn:Hres; [|done|done].
  by exists st, w0, e, w1, w2.
Qed.

Section FlowMoreExamples.
#[local] Existing Instance plainCoercions.
#[local] Existing Instance symbolicCrypto.

(** Closing tab 1 of the scenario, through [handleTabRemoved_removes]. *)
Lemma handleTabRemoved_removes_witness :
  ∃ w', handleTabRemoved 1 demoWorld = (Ok tt, w')
        ∧ cachedState w' = Some (deleteEntry (number_key (NInt 1)) demoState).
Proof.
  destruct (proj2 (handleTabRemoved_removes 1 demoWorld) demoState demoWorld)
    as (w' & Hrun & Hc & _); [vm_compute; reflexivity..|].
  by exists w'.
Defined.

(** A token that is not the entry's, through
    [rejected_token_writes_nothing]. *)
Lemma rejected_token_writes_nothing_witness :
  storage (processUnsuspendTokenMessage resumeOk 1 (JStr "other") demoTtl demoNow
             demoWorld).2
  = storage demoWorld.
Proof.
  apply (rejected_token_writes_nothing resumeOk 1 (JStr "other") demoTtl demoNow
           demoWorld _ "invalid-token");
    [vm_compute; reflexivity|discriminate].
Defined.

(** The successful flow of the scenario, through
    [resumed_token_was_valid]. *)
Lemma resumed_token_was_valid_witness :
  ∃ st w0 e, loadState demoWorld = (Ok st, w0)
             ∧ suspendedTabs st !! number_key (NInt 1) = Some e
             ∧ strict_eq (assoc e "token") (JStr "t1") = true.
Proof.
  destruct (resumed_token_was_valid resumeOk 1 (JStr "t1") demoTtl demoNow demoWorld
              (processUnsuspendTokenMessage resumeOk 1 (JStr "t1") demoTtl demoNow
                 demoWorld).2)
    as (st & w0 & e & w1 & w2 & Hload & He & Ht & _); [vm_compute; reflexivity|].
  by exists st, w0, e.
Defined.

End FlowMoreExamples.

(** ** Key management *)

Section KeyFacts.
Context `{Coercions} `{Crypto}.

(** [unwrapDataKey] either raises and changes nothing, or installs the
    unwrapped key and clears the lock. *)
Lemma unwrapDataKey_cases passkey record w :
  (∃ msg, unwrapDataKey passkey record w = (Throw msg, w))
  ∨ (∃ key,
       isValidKeyRecord record = true
       ∧ unwrap_key (unwrapWrappingKey passkey record) (default "" (keyIV record))
           (default "" (encryptedKey record)) = Ok key
       ∧ unwrapDataKey passkey record w
         = (Ok key,
            set_encryptionLock false None
              (set_storage (set_session_cryptoKey (Some key) (storage w))
                 (set_cryptoKey (Some key) w)))).
Proof.
  unfold unwrapDataKey. munfold.
  destruct (isValidKeyRecord record); simpl; [|left; by eexists].
  destruct (unwrap_key _ _ _) as [key|msg]; simpl; [|left; by eexists].
  right. by exists key.
Qed.

Lemma unwrapDataKey_ok passkey record w key :
  isValidKeyRecord record = true →
  unwrap_key (unwrapWrappingKey passkey record) (default "" (keyIV record))
    (default "" (encryptedKey record)) = Ok key →
  unwrapDataKey passkey record w
  = (Ok key,
     set_encryptionLock false None
       (set_storage (set_session_cryptoKey (Some key) (storage w))
          (set_cryptoKey (Some key) w))).
Proof.
  intros Hvalid Hkey. unfold unwrapDataKey. kunfold. rewrite Hvalid. ksimpl.
  by rewrite Hkey.
Qed.

(** [wrapDataKey] with a key at hand. *)
Lemma wrapDataKey_some passkey w key :
  cryptoKey w = Some key →
  wrapDataKey passkey w
  = (Ok (mkWrapped
           (wrap_key
              (deriveWrappingKey passkey (random_base64 (entropy w))
                 (Some (encryption_iterations (local_settings (storage w)))) true)
              (random_base64 (S (entropy w))) key)
           (random_base64 (entropy w)) (random_base64 (S (entropy w)))
           (encryption_iterations (local_settings (storage w)))),
     set_entropy (S (S (entropy w))) w).
Proof. intros Hkey. unfold wrapDataKey. munfold. by rewrite Hkey. Qed.

(** The outcomes of [unlockWithPasskey]. *)
Lemma unlock_cases passkey w :
  ∃ resp w', unlockWithPasskey passkey w = (Ok resp, w')
    ∧ (resp = RespOk ∧ is_Some (cryptoKey w') ∧ encryptionLocked w' = false
         ∧ encryptionLockReason w' = None
       ∨ resp = RespError "bad-passkey"
         ∧ w' = set_encryptionLock true (Some "bad-passkey") w
       ∨ resp = RespError "not-locked" ∧ w' = w).
Proof.
  unfold unlockWithPasskey. kunfold.
  destruct (if encryption_cloudBackupEnabled _ then _ else _) as [record|];
    [|ex_run; auto].
  destruct (usingPasskey record); ksimpl; [|ex_run; auto].
  destruct (unwrapDataKey_cases passkey record w) as [[msg ->]|(key & _ & _ & ->)];
    ksimpl.
  { ex_run. auto. }
  destruct (_ <? MIN_ITERATIONS); ksimpl; [|ex_run; left; eauto].
  rewrite (wrapDataKey_some passkey _ key) by done. ksimpl.
  destruct (cloudBackupEnabled record); ksimpl; ex_run; left; eauto.
Qed.

(** [setPasskey] with a key at hand and encryption not locked. *)
Lemma setPasskey_some passkey key w :
  passkey ≠ "" → cryptoKey w = Some key → encryptionLocked w = false →
  setPasskey passkey w
  = (Ok RespOk,
     set_storage
       (set_local_keyRecord (Some (wrappedRecord passkey key w))
          (set_sync_keyRecord
             (if encryption_cloudBackupEnabled (local_settings (storage w))
              then Some (wrappedRecord passkey key w) else None)
             (storage w)))
       (set_entropy (S (S (entropy w))) w)).
Proof.
  intros Hp Hkey Hl. unfold setPasskey. apply String.eqb_neq in Hp. rewrite Hp.
  kunfold. rewrite Hl, Hkey. ksimpl.
  rewrite (wrapDataKey_some passkey w key Hkey). ksimpl.
  unfold wrappedRecord.
  by destruct (encryption_cloudBackupEnabled (local_settings (storage w))).
Qed.

Lemma or_iterations_some n d : n ≠ 0 → or_iterations (Some n) d = n.
Proof. intros Hn. unfold or_iterations. by apply Z.eqb_neq in Hn as ->. Qed.

End KeyFacts.

(** X7: the outcomes of [unlockWithPasskey]. It never raises. It answers
    [{ ok: true }] with a key installed and the lock cleared, so that the
    state is no longer locked; or [bad-passkey], and then the only change
    is that encryption is marked locked with that reason: the key in
    memory, the cached state and storage are as they were and the state is
    locked; or [not-locked], and then nothing changed at all. *)
Theorem unlockWithPasskey_outcomes `{Coercions} `{Crypto} (passkey : string)
    (w : World) :
  ∃ resp w', unlockWithPasskey passkey w = (Ok resp, w')
    ∧ (resp = RespOk ∧ is_Some (cryptoKey w') ∧ encryptionLocked w' = false
         ∧ encryptionLockReason w' = None ∧ stateIsLocked w' = false
       ∨ resp = RespError "bad-passkey"
         ∧ w' = set_encryptionLock true (Some "bad-passkey") w
         ∧ cryptoKey w' = cryptoKey w ∧ cachedState w' = cachedState w
         ∧ storage w' = storage w ∧ stateIsLocked w' = true
       ∨ resp = RespError "not-locked" ∧ w' = w).
Proof.
  destruct (unlock_cases passkey w)
    as (resp & w' & Hrun & [(-> & [key Hkey] & Hl & Hr)|[[-> ->]|[-> ->]]]).
  - exists RespOk, w'. split; [done|]. left.
    split; [done|]. split; [by eexists|]. split; [done|]. split; [done|].
    unfold stateIsLocked, hasCryptoKey. by rewrite Hl, Hkey.
  - eexists _, _. split; [done|]. right. left. by repeat split.
  - eexists _, _. split; [done|]. right. by right.
Qed.

(** X8: a passkey that was set unlocks. With a key at hand, encryption
    not locked and an iteration count in the settings that is at least the
    floor, [setPasskey] answers [{ ok: true }] and persists a wrapped
    record; if that record passes the record check and the host unwraps
    what it wrapped under the same wrapping key, then in any world that
    has these key records and settings (after a restart, say)
    [unlockWithPasskey] with the same passkey answers [{ ok: true }] and
    installs the same key. *)
Theorem passkey_roundtrip `{Coercions} `{Crypto} (passkey : string) (key : Key)
    (w : World) :
  passkey ≠ "" →
  cryptoKey w = Some key → encryptionLocked w = false →
  MIN_ITERATIONS <= encryption_iterations (local_settings (storage w)) →
  isValidKeyRecord (wrappedRecord passkey key w) = true →
  (let wk := mkWrappingKey passkey (random_base64 (entropy w))
               (encryption_iterations (local_settings (storage w))) in
   unwrap_key wk (random_base64 (S (entropy w)))
     (wrap_key wk (random_base64 (S (entropy w))) key) = Ok key) →
  ∃ w1, setPasskey passkey w = (Ok RespOk, w1)
        ∧ local_keyRecord (storage w1) = Some (wrappedRecord passkey key w)
        ∧ ∀ w2,
            local_keyRecord (storage w2) = local_keyRecord (storage w1) →
            sync_keyRecord (storage w2) = sync_keyRecord (storage w1) →
            local_settings (storage w2) = local_settings (storage w1) →
            ∃ w3, unlockWithPasskey passkey w2 = (Ok RespOk, w3)
                  ∧ cryptoKey w3 = Some key ∧ encryptionLocked w3 = false.
Proof.
  intros Hp Hkey Hl Hn Hvalid Hunwrap.
  rewrite (setPasskey_some passkey key w Hp Hkey Hl).
  eexists. split; [reflexivity|]. split; [done|].
  intros w2 Hlocal Hsync Hsettings. simpl in Hlocal, Hsync, Hsettings.
  set (n := encryption_iterations (local_settings (storage w))) in *.
  assert (Hn0 : n ≠ 0) by (unfold MIN_ITERATIONS in Hn; lia).
  assert (Hz : (n =? 0) = false) by (by apply Z.eqb_neq).
  assert (Hwk : unwrapWrappingKey passkey (wrappedRecord passkey key w)
                = mkWrappingKey passkey (random_base64 (entropy w)) n).
  { unfold unwrapWrappingKey, deriveWrappingKey, wrappedRecord, or_iterations.
    simpl. fold n. by rewrite !Hz. }
  assert (Henc : encryptedKey (wrappedRecord passkey key w)
                 = Some (wrap_key (mkWrappingKey passkey (random_base64 (entropy w)) n)
                           (random_base64 (S (entropy w))) key)).
  { unfold wrappedRecord, deriveWrappingKey, or_iterations. simpl. fold n.
    rewrite Hz. do 3 f_equal. unfold MIN_ITERATIONS in *. lia. }
  assert (Hload : (if encryption_cloudBackupEnabled (local_settings (storage w2))
                   then match sync_keyRecord (storage w2) with
                        | Some r => Some r
                        | None => local_keyRecord (storage w2)
                        end
                   else match local_keyRecord (storage w2) with
                        | Some r => Some r
                        | None => sync_keyRecord (storage w2)
                        end) = Some (wrappedRecord passkey key w)).
  { rewrite Hlocal, Hsync, Hsettings.
    by destruct (encryption_cloudBackupEnabled (local_settings (storage w))). }
  assert (Hu : unwrap_key (unwrapWrappingKey passkey (wrappedRecord passkey key w))
                 (default "" (keyIV (wrappedRecord passkey key w)))
                 (default "" (encryptedKey (wrappedRecord passkey key w))) = Ok key).
  { rewrite Hwk, Henc. exact Hunwrap. }
  unfold unlockWithPasskey. kunfold. rewrite Hload.
  change (usingPasskey (wrappedRecord passkey key w)) with true. ksimpl.
  rewrite (unwrapDataKey_ok passkey _ w2 key Hvalid Hu). ksimpl.
  rewrite ?Hsettings. fold n. rewrite Hz.
  assert (Hlt : (n <? MIN_ITERATIONS) = false) by (by apply Z.ltb_ge).
  rewrite Hlt. ksimpl. by eexists.
Qed.

(** X9: below the floor the stored count is not the one used. When the
    iteration count of the settings is positive and below the floor of
    150000, [setPasskey] wraps the key under a wrapping key derived with
    150000 iterations but records the count of the settings; the wrapping
    key [unwrapDataKey] derives for that record uses the recorded count,
    so it is another key than the one the record was wrapped under. *)
Theorem weak_iterations_mismatch `{Coercions} `{Crypto} (passkey : string)
    (key : Key) (w : World) :
  passkey ≠ "" →
  cryptoKey w = Some key → encryptionLocked w = false →
  0 < encryption_iterations (local_settings (storage w)) < MIN_ITERATIONS →
  ∃ w1 wk,
    setPasskey passkey w = (Ok RespOk, w1)
    ∧ local_keyRecord (storage w1) = Some (wrappedRecord passkey key w)
    ∧ encryptedKey (wrappedRecord passkey key w)
      = Some (wrap_key wk (random_base64 (S (entropy w))) key)
    ∧ wk_iterations wk = MIN_ITERATIONS
    ∧ iterations (wrappedRecord passkey key w)
      = Some (encryption_iterations (local_settings (storage w)))
    ∧ wk_iterations (unwrapWrappingKey passkey (wrappedRecord passkey key w))
      = encryption_iterations (local_settings (storage w))
    ∧ unwrapWrappingKey passkey (wrappedRecord passkey key w) ≠ wk.
Proof.
  intros Hp Hkey Hl Hn.
  rewrite (setPasskey_some passkey key w Hp Hkey Hl).
  set (n := encryption_iterations (local_settings (storage w))) in *.
  assert (Hn0 : n ≠ 0) by lia.
  assert (Hz : (n =? 0) = false) by (by apply Z.eqb_neq).
  assert (Hit : wk_iterations (unwrapWrappingKey passkey (wrappedRecord passkey key w)) = n).
  { unfold unwrapWrappingKey, deriveWrappingKey, wrappedRecord, or_iterations.
    simpl. fold n. by rewrite !Hz. }
  exists (set_storage
            (set_local_keyRecord (Some (wrappedRecord passkey key w))
               (set_sync_keyRecord
                  (if encryption_cloudBackupEnabled (local_settings (storage w))
                   then Some (wrappedRecord passkey key w) else None)
                  (storage w)))
            (set_entropy (S (S (entropy w))) w)),
    (deriveWrappingKey passkey (random_base64 (entropy w)) (Some n) true).
  split; [done|]. split; [done|]. split; [done|].
  assert (Hmax : wk_iterations
                   (deriveWrappingKey passkey (random_base64 (entropy w)) (Some n) true)
                 = MIN_ITERATIONS).
  { unfold deriveWrappingKey, or_iterations. simpl. rewrite Hz.
    unfold MIN_ITERATIONS in *. lia. }
  split; [done|]. split; [done|]. split; [done|].
  intros Heq. rewrite Heq, Hmax in Hit. unfold MIN_ITERATIONS in *. lia.
Qed.

Section KeyExamples.
#[local] Existing Instance plainCoercions.
#[local] Existing Instance authenticCrypto.

(** Setting a passkey with 600000 iterations, restarting and unlocking,
    through [passkey_roundtrip]. *)
Lemma passkey_roundtrip_witness :
  ∃ w1 w3, setPasskey "pw" (keyWorld 600000) = (Ok RespOk, w1)
           ∧ unlockWithPasskey "pw" (restarted w1) = (Ok RespOk, w3)
           ∧ cryptoKey w3 = Some 7%nat.
Proof.
  destruct (@passkey_roundtrip plainCoercions authenticCrypto "pw" 7%nat
              (keyWorld 600000))
    as (w1 & Hset & _ & Hunlock);
    [done|reflexivity|reflexivity|by vm_compute|vm_compute; reflexivity..|].
  assert (w1 = (setPasskey "pw" (keyWorld 600000)).2) as -> by (by rewrite Hset).
  destruct (Hunlock (restarted (setPasskey "pw" (keyWorld 600000)).2))
    as (w3 & Hu & Hk & _); [vm_compute; reflexivity..|].
  by eexists _, w3.
Defined.

(** Setting a passkey with 100000 iterations in the settings, through
    [weak_iterations_mismatch]; and what follows on this host: after a
    restart the passkey does not unlock. *)
Lemma weak_iterations_mismatch_witness :
  ∃ w1, setPasskey "pw" (keyWorld 100000) = (Ok RespOk, w1)
        ∧ wk_iterations
            (unwrapWrappingKey "pw" (@wrappedRecord authenticCrypto "pw" 7%nat (keyWorld 100000)))
          = 100000.
Proof.
  destruct (@weak_iterations_mismatch plainCoercions authenticCrypto "pw" 7%nat
              (keyWorld 100000))
    as (w1 & wk & Hset & _ & _ & _ & _ & Hit & _);
    [done|reflexivity|reflexivity|by vm_compute|].
  by exists w1.
Defined.

Example weak_passkey_does_not_unlock :
  (unlockWithPasskey "pw" (restarted (setPasskey "pw" (keyWorld 100000)).2)).1
  = Ok (RespError "bad-passkey").
Proof. vm_compute. reflexivity. Qed.

End KeyExamples.

(** ** Key management: restart, cloud backup and the sync area *)

Section KeyLifecycle.
Context `{Coercions} `{Crypto}.

Lemma generateAndPersistDataKey_result cloud w :
  ∃ w', generateAndPersistDataKey cloud w
        = (Ok (plaintextRecord (exportKeyBase64 (generateKey (entropy w))) false (clock w)),
           w')
        ∧ cryptoKey w' = Some (generateKey (entropy w))
        ∧ encryptionLocked w' = false ∧ encryptionLockReason w' = None
        ∧ sync_keyRecord (storage w') = None
        ∧ local_keyRecord (storage w')
          = Some (plaintextRecord (exportKeyBase64 (generateKey (entropy w))) false
                    (clock w))
        ∧ stateCorruptionReason w' = stateCorruptionReason w
        ∧ cachedState w' = cachedState w
        ∧ local_state (storage w') = local_state (storage w).
Proof.
  unfold generateAndPersistDataKey. kunfold.
  destruct cloud; ksimpl; [|by eexists].
  destruct (encryption_cloudBackupEnabled (local_settings (storage w))); ksimpl;
    by eexists.
Qed.

Lemma restoreKeyFromSession_result import_jwk w :
  ∃ w', restoreKeyFromSession import_jwk w = (Ok tt, w')
        ∧ storage w' = storage w
        ∧ (w' = w
           ∨ is_Some (cryptoKey w') ∧ encryptionLocked w' = false
             ∧ encryptionLockReason w' = None).
Proof.
  unfold restoreKeyFromSession. kunfold.
  destruct (session_cryptoKey (storage w)) as [jwk|]; ksimpl; [|eexists; eauto].
  destruct (import_jwk jwk) as [key|msg]; ksimpl; eexists; eauto 10.
Qed.

(** After [initializeEncryption]: a key and no lock, or no key and a lock
    with one of two reasons. *)
Lemma initializeEncryption_cases import_jwk w :
  ∃ w', initializeEncryption import_jwk w = (Ok tt, w')
        ∧ (is_Some (cryptoKey w') ∧ encryptionLocked w' = false
           ∧ encryptionLockReason w' = None
           ∨ cryptoKey w' = None ∧ encryptionLocked w' = true
             ∧ (encryptionLockReason w' = Some "passkey-required"
                ∨ encryptionLockReason w' = Some "corrupt-key")).
Proof.
  unfold initializeEncryption. kunfold.
  destruct (cryptoKey w) as [key|] eqn:Hkey.
  { rewrite bool_decide_eq_true_2 by (by eexists). ksimpl. rewrite Hkey.
    rewrite bool_decide_eq_true_2 by (by eexists). ksimpl.
    eexists. split; [reflexivity|]. left. ksimpl. rewrite Hkey. eauto. }
  rewrite bool_decide_eq_false_2 by (by intros [? ?]). ksimpl.
  destruct (restoreKeyFromSession_result import_jwk w)
    as (w1 & -> & Hs & [-> | ([key Hk] & Hl & Hr)]); ksimpl.
  2:{ rewrite Hk. rewrite bool_decide_eq_true_2 by (by eexists). ksimpl.
      eexists. split; [reflexivity|]. left. ksimpl. rewrite Hk. eauto. }
  rewrite Hkey. rewrite bool_decide_eq_false_2 by (by intros [? ?]). ksimpl.
  destruct (if encryption_cloudBackupEnabled _ then _ else _) as [record|]; ksimpl.
  2:{ destruct (generateAndPersistDataKey_result
                  (encryption_cloudBackupEnabled (local_settings (storage w))) w)
        as (w2 & -> & Hk2 & Hl2 & Hr2 & _). ksimpl.
      eexists. split; [reflexivity|]. left. rewrite Hk2. eauto. }
  destruct (usingPasskey record); ksimpl.
  { destruct (_ && _); ksimpl; eexists; (split; [reflexivity|]); right; ksimpl;
      rewrite Hkey; auto. }
  destruct (nonempty (dataKey record)); ksimpl.
  2:{ eexists; (split; [reflexivity|]); right; ksimpl; rewrite Hkey; auto. }
  destruct (importKeyBase64 _) as [key|msg]; ksimpl.
  2:{ eexists; (split; [reflexivity|]); right; ksimpl; rewrite Hkey; auto. }
  destruct (encryption_cloudBackupEnabled (local_settings (storage w)));
    destruct (cloudBackupEnabled record); ksimpl;
    eexists; (split; [reflexivity|]); left; ksimpl; eauto.
Qed.

End KeyLifecycle.

(** X10: what [initializeEncryption] leaves. It never raises, and
    afterwards either a key is installed, encryption is not locked and no
    lock reason is set, or no key is installed and encryption is locked
    with reason [passkey-required] or [corrupt-key]; so the lock flag
    alone tells whether the state is locked, and a lock always comes with
    its reason. *)
Theorem initializeEncryption_outcomes `{Coercions} `{Crypto}
    (import_jwk : Key → Res Key) (w : World) :
  ∃ w', initializeEncryption import_jwk w = (Ok tt, w')
        ∧ (is_Some (cryptoKey w') ∧ encryptionLocked w' = false
           ∧ encryptionLockReason w' = None
           ∨ cryptoKey w' = None ∧ encryptionLocked w' = true
             ∧ (encryptionLockReason w' = Some "passkey-required"
                ∨ encryptionLockReason w' = Some "corrupt-key"))
        ∧ stateIsLocked w' = encryptionLocked w'
        ∧ (stateIsLocked w' = true → is_Some (encryptionLockReason w')).
Proof.
  destruct (initializeEncryption_cases import_jwk w)
    as (w' & Hrun & [([key Hkey] & Hl & Hr)|(Hkey & Hl & Hr)]);
    exists w'; (split; [done|]); unfold stateIsLocked, hasCryptoKey;
    rewrite Hkey, Hl; simpl.
  - split; [left; split; [by eexists|done]|].
    by split.
  - split; [by right|]. split; [done|]. intros _. destruct Hr as [->| ->]; by eexists.
Qed.

Section SyncArea.
Context `{Coercions} `{Crypto}.

Lemma sync_step_refl w : sync_step w w.
Proof. by left. Qed.

Lemma sync_step_trans w1 w2 w3 : sync_step w1 w2 → sync_step w2 w3 → sync_step w1 w3.
Proof.
  unfold sync_step. intros [E1|[E1|E1]] [E2|[E2|E2]]; rewrite ?E2, ?E1; auto.
Qed.

Lemma sync_step_guarded w w' : sync_guarded w → sync_step w w' → sync_guarded w'.
Proof.
  unfold sync_guarded. intros Hw [E|[E|(r & E & Hp & Hc)]] r'; rewrite E; [auto|done|].
  by intros [= <-].
Qed.

Lemma saveStateInternal_sync st w :
  sync_keyRecord (storage (saveStateInternal st w).2) = sync_keyRecord (storage w).
Proof.
  unfold saveStateInternal. kunfold.
  destruct (nonempty (stateWriteBlockedReason w)); ksimpl; [done|].
  destruct (Codec.encodeStateV2 st); ksimpl; [|done].
  destruct (encryption_enabled _); ksimpl; [|done].
  by destruct (cryptoKey w).
Qed.

Lemma reconcile_sync w :
  sync_keyRecord (storage (reconcilePendingStateAfterUnlock w).2)
  = sync_keyRecord (storage w).
Proof.
  unfold reconcilePendingStateAfterUnlock. kunfold.
  assert (Hsave : ∀ st w0 (k : Res unit → World → Res unit * World),
            (∀ r w1, sync_keyRecord (storage (k r w1).2) = sync_keyRecord (storage w1)) →
            sync_keyRecord (storage (let (r, w1) := saveStateInternal st w0 in k r w1).2)
            = sync_keyRecord (storage w0)).
  { intros st w0 k Hk. pose proof (saveStateInternal_sync st w0) as Hs.
    destruct (saveStateInternal st w0) as [r w1]. simpl in Hs. by rewrite Hk. }
  destruct (local_state (storage w)) as [[c|encoded]|]; ksimpl.
  - destruct (cryptoKey w); ksimpl.
    + destruct (aes_decrypt _ c) as [v|]; ksimpl; [|done].
      destruct (Codec.decodeStateAny v); ksimpl; [|done].
      rewrite Hsave; [done|]. by intros [[]|] ?.
    + done.
  - destruct (js_truthy encoded); ksimpl.
    + destruct (Codec.decodeStateAny encoded); ksimpl; [|done].
      rewrite Hsave; [done|]. by intros [[]|] ?.
    + rewrite Hsave; [done|]. by intros [[]|] ?.
  - rewrite Hsave; [done|]. by intros [[]|] ?.
Qed.

Lemma unlock_sync passkey w : sync_step w (unlockWithPasskey passkey w).2.
Proof.
  unfold unlockWithPasskey, sync_step. kunfold.
  destruct (if encryption_cloudBackupEnabled _ then _ else _) as [record|]; [|auto].
  destruct (usingPasskey record) eqn:Hp; ksimpl; [|auto].
  destruct (unwrapDataKey_cases passkey record w) as [[msg ->]|(key & _ & _ & ->)];
    ksimpl; [auto|].
  destruct (_ <? MIN_ITERATIONS); ksimpl; [|auto].
  rewrite (wrapDataKey_some passkey _ key) by done. ksimpl.
  destruct (cloudBackupEnabled record) eqn:Hc; ksimpl; [|auto].
  right; right. eexists. split; [reflexivity|]. simpl. auto.
Qed.

Lemma unlockAndReconcile_sync passkey w : sync_step w (unlockAndReconcile passkey w).2.
Proof.
  unfold unlockAndReconcile. kunfold.
  pose proof (unlock_sync passkey w) as Hu.
  destruct (unlockWithPasskey passkey w) as [[resp|msg] w1]; ksimpl; [|done].
  destruct (response_ok resp); ksimpl; [|done].
  pose proof (reconcile_sync w1) as Hr.
  destruct (reconcilePendingStateAfterUnlock w1) as [[[]|msg] w2]; ksimpl;
    simpl in Hr; [|by eapply sync_step_trans; [exact Hu|left]].
  destruct (stateIsCorrupt w2); ksimpl; by eapply sync_step_trans; [exact Hu|left].
Qed.

Lemma retryImport_sync w : sync_step w (handleRetryImportKey w).2.
Proof.
  unfold handleRetryImportKey, retryImportPlaintextKey. kunfold.
  destruct (if encryption_cloudBackupEnabled _ then _ else _) as [record|];
    ksimpl; [|by left].
  destruct (usingPasskey record || _); ksimpl; [by left|].
  destruct (importKeyBase64 _) as [key|msg]; ksimpl; [|by left].
  pose proof (reconcile_sync
                (set_storage (set_session_cryptoKey (Some key) (storage w))
                   (set_encryptionLock false None (set_cryptoKey (Some key) w)))) as Hr.
  destruct (reconcilePendingStateAfterUnlock _) as [[[]|msg] w2]; ksimpl;
    simpl in Hr; left; by rewrite Hr.
Qed.

Lemma setPasskey_sync passkey w : sync_step w (setPasskey passkey w).2.
Proof.
  unfold setPasskey. destruct (String.eqb passkey ""); [by left|].
  kunfold. destruct (encryptionLocked w); ksimpl; [by left|].
  destruct (cryptoKey w) as [key|] eqn:Hkey; ksimpl; [|by left].
  rewrite (wrapDataKey_some passkey w key Hkey). ksimpl.
  destruct (encryption_cloudBackupEnabled (local_settings (storage w))) eqn:Hc;
    ksimpl; [|right; by left].
  right; right. eexists. split; [reflexivity|]. simpl. auto.
Qed.

Lemma removePasskey_sync w : sync_step w (removePasskey w).2.
Proof. unfold removePasskey, sync_step. kunfold. sync_cases. Qed.

Lemma setCloudBackup_sync enabled w : sync_step w (setCloudBackupEnabled enabled w).2.
Proof. unfold setCloudBackupEnabled, sync_step. kunfold. sync_cases. Qed.

Lemma initialize_sync import_jwk w : sync_step w (initializeEncryption import_jwk w).2.
Proof.
  destruct (initializeEncryption_cases import_jwk w) as (w' & Hrun & _).
  revert Hrun. unfold initializeEncryption. kunfold.
  destruct (bool_decide (is_Some (cryptoKey w))).
  { ksimpl. destruct (bool_decide _); ksimpl.
    - intros [= <-]. by left.
    - intros Hrun. rewrite Hrun. revert Hrun.
      destruct (if encryption_cloudBackupEnabled _ then _ else _) as [record|]; ksimpl.
      2:{ destruct (generateAndPersistDataKey_result
                      (encryption_cloudBackupEnabled (local_settings (storage w))) w)
            as (w2 & -> & _ & _ & _ & Hs & _). ksimpl. intros [= <-]. right. by left. }
      unfold sync_step. sync_cases; intros [= <-]; ksimpl; auto. }
  ksimpl.
  destruct (restoreKeyFromSession_result import_jwk w) as (w1 & -> & Hs & _). ksimpl.
  destruct (bool_decide _); ksimpl.
  { intros [= <-]. left. ksimpl. by rewrite Hs. }
  rewrite !Hs.
  destruct (if encryption_cloudBackupEnabled _ then _ else _) as [record|]; ksimpl.
  2:{ destruct (generateAndPersistDataKey_result
                  (encryption_cloudBackupEnabled (local_settings (storage w))) w1)
        as (w2 & -> & _ & _ & _ & Hs2 & _). ksimpl. intros _. right. by left. }
  intros _. unfold sync_step. rewrite <-Hs. sync_cases.
Qed.

Lemma reset_sync w : sync_step w (resetEncryption w).2.
Proof.
  unfold resetEncryption. kunfold.
  match goal with
  | |- context [generateAndPersistDataKey ?c ?w0] =>
      destruct (generateAndPersistDataKey_result c w0) as (w2 & -> & _ & _ & _ & Hs & _)
  end.
  ksimpl. unfold saveState. kunfold.
  pose proof (saveStateInternal_sync emptyState
                (set_cachedState (Some emptyState) (set_cachedState (Some emptyState) w2)))
    as Hsave.
  destruct (saveStateInternal _ _) as [[[]|msg] w3]; ksimpl; simpl in Hsave;
    right; left; by rewrite Hsave.
Qed.

Lemma run_key_op_sync op w : sync_step w (run_key_op op w).
Proof.
  destruct op; simpl;
    auto using initialize_sync, unlockAndReconcile_sync, retryImport_sync,
      setPasskey_sync, removePasskey_sync, setCloudBackup_sync, reset_sync.
Qed.

End SyncArea.

(** X11: a key kept in the clear never reaches the sync area. If the sync
    area holds no key record, or one that is wrapped under a passkey and
    marked for cloud backup, then the same is true after any sequence of
    key-management operations: initialization, unlocking (with the
    reconciliation that follows), retrying the import, setting and
    removing a passkey, switching cloud backup on or off, resetting. *)
Theorem sync_area_never_plaintext `{Coercions} `{Crypto} (ops : list KeyOp)
    (w : World) :
  sync_guarded w → sync_guarded (run_key_ops ops w).
Proof.
  revert w. induction ops as [|op ops IH]; intros w Hw; [done|].
  simpl. apply IH. eapply sync_step_guarded; [exact Hw|apply run_key_op_sync].
Qed.

(** X12: switching cloud backup. Switching it off always answers
    [{ ok: true }], stores the preference off and leaves no key record in
    the sync area. Switching it on when the record in effect is wrapped
    under a passkey answers [{ ok: true }], stores the preference on, and
    stores that record, marked for cloud backup, in both areas. *)
Theorem cloud_backup_switch `{Coercions} `{Crypto} (w : World) :
  (∃ w', setCloudBackupEnabled false w = (Ok RespOk, w')
         ∧ encryption_cloudBackupEnabled (local_settings (storage w')) = false
         ∧ sync_keyRecord (storage w') = None)
  ∧ (∀ r, (loadKeyRecord true w).1 = Ok (Some r) → usingPasskey r = true →
          ∃ w', setCloudBackupEnabled true w = (Ok RespOk, w')
                ∧ encryption_cloudBackupEnabled (local_settings (storage w')) = true
                ∧ sync_keyRecord (storage w') = Some (set_cloudBackupEnabled true r)
                ∧ local_keyRecord (storage w') = Some (set_cloudBackupEnabled true r)).
Proof.
  split.
  - unfold setCloudBackupEnabled. kunfold.
    destruct (local_keyRecord (storage w)) as [r|]; ksimpl; [by eexists|].
    destruct (sync_keyRecord (storage w)) as [r|]; ksimpl; [by eexists|].
    destruct (cryptoKey w); ksimpl; by eexists.
  - intros r Hload Hp. revert Hload. unfold setCloudBackupEnabled. kunfold.
    destruct (sync_keyRecord (storage w)) as [r0|]; ksimpl.
    + intros [= ->]. rewrite Hp. ksimpl.
      eexists. split; [reflexivity|]. ksimpl.
      unfold set_cloudBackupEnabled. by rewrite Hp.
    + destruct (local_keyRecord (storage w)) as [r0|]; ksimpl; [|done].
      intros [= ->]. rewrite Hp. ksimpl.
      eexists. split; [reflexivity|]. ksimpl.
      unfold set_cloudBackupEnabled. by rewrite Hp.
Qed.

(** X13: a key kept in the clear survives a restart. With a key at hand
    and encryption not locked, [removePasskey] answers [{ ok: true }],
    switches the cloud-backup preference off, empties the sync area and
    stores the exported key locally; if the host imports what it exported,
    then in any world with these key records and settings, no key in
    memory and none in the session, [initializeEncryption] installs that
    key again and leaves encryption unlocked. *)
Theorem plaintext_key_survives_restart `{Coercions} `{Crypto} (key : Key) (w : World) :
  cryptoKey w = Some key → encryptionLocked w = false →
  exportKeyBase64 key ≠ "" →
  importKeyBase64 (exportKeyBase64 key) = Ok key →
  ∃ w1, removePasskey w = (Ok RespOk, w1)
        ∧ encryption_cloudBackupEnabled (local_settings (storage w1)) = false
        ∧ sync_keyRecord (storage w1) = None
        ∧ local_keyRecord (storage w1)
          = Some (plaintextRecord (exportKeyBase64 key) false (clock w))
        ∧ ∀ import_jwk w2,
            cryptoKey w2 = None → session_cryptoKey (storage w2) = None →
            local_keyRecord (storage w2) = local_keyRecord (storage w1) →
            sync_keyRecord (storage w2) = sync_keyRecord (storage w1) →
            local_settings (storage w2) = local_settings (storage w1) →
            ∃ w3, initializeEncryption import_jwk w2 = (Ok tt, w3)
                  ∧ cryptoKey w3 = Some key ∧ encryptionLocked w3 = false.
Proof.
  intros Hkey Hl Hexp Himp.
  assert (Hrun : ∃ w1, removePasskey w = (Ok RespOk, w1)
                 ∧ encryption_cloudBackupEnabled (local_settings (storage w1)) = false
                 ∧ sync_keyRecord (storage w1) = None
                 ∧ local_keyRecord (storage w1)
                   = Some (plaintextRecord (exportKeyBase64 key) false (clock w))).
  { unfold removePasskey. kunfold. rewrite Hkey, Hl. ksimpl.
    destruct (encryption_cloudBackupEnabled (local_settings (storage w))) eqn:Hc;
      ksimpl; eexists; (split; [reflexivity|]); by ksimpl. }
  destruct Hrun as (w1 & Hrun & Hcloud & Hsync & Hlocal).
  exists w1. split; [done|]. split; [done|]. split; [done|]. split; [done|].
  intros import_jwk w2 Hk2 Hsess Hl2 Hs2 Hset2.
  rewrite Hlocal in Hl2. rewrite Hsync in Hs2.
  unfold initializeEncryption, restoreKeyFromSession. kunfold.
  rewrite Hk2. rewrite bool_decide_eq_false_2 by (by intros [? ?]). ksimpl.
  rewrite Hsess. ksimpl. rewrite Hk2.
  rewrite bool_decide_eq_false_2 by (by intros [? ?]). ksimpl.
  rewrite Hset2, Hcloud, Hl2. ksimpl.
  apply String.eqb_neq in Hexp. rewrite Hexp. ksimpl. rewrite Himp. ksimpl.
  by eexists.
Qed.

Section KeyLifecycleExamples.
#[local] Existing Instance plainCoercions.
#[local] Existing Instance authenticCrypto.

(** Setting a passkey, switching cloud backup on and removing the passkey
    again, through [sync_area_never_plaintext]; in between the sync area
    holds the wrapped record. *)
Lemma sync_area_never_plaintext_witness :
  sync_guarded
    (run_key_ops [OpSetPasskey "pw"; OpSetCloudBackup true; OpRemovePasskey]
       (keyWorld 600000)).
Proof.
  apply (@sync_area_never_plaintext plainCoercions authenticCrypto).
  intros r. vm_compute. discriminate.
Defined.

Example sync_holds_wrapped_record :
  usingPasskey
  <$> sync_keyRecord
        (storage (run_key_ops [OpSetPasskey "pw"; OpSetCloudBackup true]
                    (keyWorld 600000)))
  = Some true
  ∧ sync_keyRecord
      (storage (run_key_ops [OpSetPasskey "pw"; OpSetCloudBackup true; OpRemovePasskey]
                  (keyWorld 600000)))
    = None.
Proof. split; vm_compute; reflexivity. Qed.

(** Switching cloud backup on after a passkey was set, through
    [cloud_backup_switch]. *)
Lemma cloud_backup_switch_witness :
  ∃ w', setCloudBackupEnabled true (setPasskey "pw" (keyWorld 600000)).2
        = (Ok RespOk, w')
        ∧ sync_keyRecord (storage w')
          = Some (set_cloudBackupEnabled true (@wrappedRecord authenticCrypto "pw" 7%nat (keyWorld 600000))).
Proof.
  destruct (proj2 (@cloud_backup_switch plainCoercions authenticCrypto
                     (setPasskey "pw" (keyWorld 600000)).2)
              (@wrappedRecord authenticCrypto "pw" 7%nat (keyWorld 600000)))
    as (w' & Hrun & _ & Hsync & _); [vm_compute; reflexivity..|].
  by exists w'.
Defined.

(** Removing the passkey and restarting, through
    [plaintext_key_survives_restart]. *)
Lemma plaintext_key_survives_restart_witness :
  ∃ w1 w3, removePasskey (keyWorld 600000) = (Ok RespOk, w1)
           ∧ initializeEncryption (fun k => Ok k) (restarted w1) = (Ok tt, w3)
           ∧ cryptoKey w3 = Some 7%nat.
Proof.
  destruct (@plaintext_key_survives_restart plainCoercions authenticCrypto 7%nat
              (keyWorld 600000))
    as (w1 & Hrun & _ & _ & _ & Hinit);
    [reflexivity|reflexivity|done|vm_compute; reflexivity|].
  assert (w1 = (removePasskey (keyWorld 600000)).2) as -> by (by rewrite Hrun).
  destruct (Hinit (fun k => Ok k) (restarted (removePasskey (keyWorld 600000)).2))
    as (w3 & Hi & Hk & _); [vm_compute; reflexivity..|].
  by eexists _, w3.
Defined.

End KeyLifecycleExamples.

(** ** Unlocking and the state; the status report *)

Section UnlockFacts.
Context `{Coercions} `{Crypto}.



End UnlockFacts.


(** X15: the status report and the lock. [GET_ENCRYPTION_STATUS] changes
    nothing. When it reports [locked], the state is locked; when it does
    not, it reports no reason; when it reports [syncEligible], there is a
    key record and it is wrapped under a passkey. After
    [initializeEncryption] the report and the state lock agree. *)
Theorem status_reports_lock `{Coercions} `{Crypto} (w : World) :
  ∃ st, handleGetEncryptionStatus w = (Ok st, w)
        ∧ (status_locked st = true → stateIsLocked w = true)
        ∧ (status_locked st = false → status_reason st = None)
        ∧ (status_syncEligible st = true →
           status_usingPasskey st = true ∧ status_hasKeyRecord st = true)
        ∧ ∀ import_jwk st',
            (handleGetEncryptionStatus (initializeEncryption import_jwk w).2).1 = Ok st' →
            status_locked st' = stateIsLocked (initializeEncryption import_jwk w).2.
Proof.
  unfold handleGetEncryptionStatus. kunfold.
  eexists. split; [reflexivity|].
  set (record := if encryption_cloudBackupEnabled _ then _ else _).
  unfold getEncryptionStatusPayload, stateIsLocked, hasCryptoKey. simpl.
  split; [|split; [|split]].
  - destruct (encryptionLocked w); [done|]. simpl.
    intros [Hk _]%andb_true_iff. done.
  - by intros ->.
  - destruct record as [r|]; [|done].
    intros [_ ->]%andb_true_iff. split; [done|]. by apply bool_decide_eq_true_2.
  - intros import_jwk st'.
    destruct (initializeEncryption_cases import_jwk w)
      as (w' & -> & [([key Hk] & Hl & _) | (Hk & Hl & _)]); simpl;
      intros [= <-]; simpl; rewrite Hk, Hl; simpl; done.
Qed.

Section UnlockExamples.
#[local] Existing Instance plainCoercions.
#[local] Existing Instance authenticCrypto.

(** Unlocking after a restart on this host, evaluated: the state is
    writable afterwards. *)
Example unlock_after_restart :
  let w := restarted (setPasskey "pw" (keyWorld 600000)).2 in
  (unlockAndReconcile "pw" w).1 = Ok RespOk
  ∧ stateIsWritable (unlockAndReconcile "pw" w).2 = true
  ∧ (unlockAndReconcile "no" w).1 = Ok (RespError "bad-passkey").
Proof. repeat split; vm_compute; reflexivity. Qed.

End UnlockExamples.

(** ** Snapshots: pruning *)

Section PruneFacts.
Context `{Coercions} `{Crypto}.

Lemma insert_newest_first_perm s l : insert_newest_first s l ≡ₚ s :: l.
Proof.
  induction l as [|t r IH]; simpl; [done|].
  destruct (snap_timestamp s <? snap_timestamp t); [|done].
  rewrite IH. apply Permutation_swap.
Qed.

Lemma sort_newest_first_perm l : sort_newest_first l ≡ₚ l.
Proof.
  induction l as [|s l IH]; simpl; [done|].
  by rewrite insert_newest_first_perm, IH.
Qed.

Lemma insert_newest_first_sorted s l :
  newest_first l → newest_first (insert_newest_first s l).
Proof.
  unfold newest_first. induction 1 as [|t r Hr IH Ht]; simpl.
  { repeat constructor. }
  rewrite Forall_forall in Ht.
  destruct (Z.ltb_spec (snap_timestamp s) (snap_timestamp t)).
  - constructor; [done|].
    rewrite Forall_forall. intros x Hx.
    rewrite insert_newest_first_perm in Hx.
    apply elem_of_cons in Hx as [-> | Hx]; [lia|by apply Ht].
  - constructor.
    + constructor; [done|]. by rewrite Forall_forall.
    + constructor; [done|].
      rewrite Forall_forall. intros x Hx. specialize (Ht x Hx). simpl in *. lia.
Qed.

Lemma sort_newest_first_sorted l : newest_first (sort_newest_first l).
Proof.
  induction l as [|s l IH]; simpl; [constructor|].
  by apply insert_newest_first_sorted.
Qed.

(** Sorting a list that is newest first leaves it as it is. *)
Lemma sort_newest_first_id l : newest_first l → sort_newest_first l = l.
Proof.
  unfold newest_first. induction 1 as [|s l Hl IH Hs]; simpl; [done|].
  rewrite IH. destruct l as [|t r]; simpl; [done|].
  apply Forall_cons in Hs as [Ht _].
  destruct (Z.ltb_spec (snap_timestamp s) (snap_timestamp t)); [lia|done].
Qed.

Lemma filter_all {A} (P : A → Prop) `{∀ x, Decision (P x)} (l : list A) :
  Forall P l → filter P l = l.
Proof.
  induction 1 as [|x l Hx Hl IH]; [done|].
  rewrite filter_cons_True by done. by rewrite IH.
Qed.

Lemma filter_same_length {A} (P : A → Prop) `{∀ x, Decision (P x)} (l : list A) :
  length (filter P l) = length l → Forall P l.
Proof.
  induction l as [|x l IH]; [constructor|].
  rewrite filter_cons. destruct (decide (P x)) as [Hx|Hx]; simpl.
  - intros [= Hlen]. constructor; auto.
  - intros Hlen. pose proof (length_filter P l). lia.
Qed.

Lemma newest_first_take n l : newest_first l → newest_first (take n l).
Proof.
  unfold newest_first. intros Hl. rewrite <-(take_drop n l) in Hl.
  by apply StronglySorted_app_1_l in Hl.
Qed.

Lemma pruneSnapshots_retained now l : Forall (retained now) (pruneSnapshots now l).
Proof.
  unfold pruneSnapshots. rewrite Forall_forall. intros s Hs.
  apply (subseteq_take SNAPSHOT_MAX) in Hs.
  rewrite sort_newest_first_perm in Hs.
  by apply list_elem_of_filter in Hs as [Hs _].
Qed.

Lemma pruneSnapshots_sorted now l : newest_first (pruneSnapshots now l).
Proof. apply newest_first_take, sort_newest_first_sorted. Qed.

Lemma pruneSnapshots_length now l : (length (pruneSnapshots now l) ≤ SNAPSHOT_MAX)%nat.
Proof. unfold pruneSnapshots. rewrite length_take. lia. Qed.

Lemma pruneSnapshots_sub now l : pruneSnapshots now l ⊆+ l.
Proof.
  unfold pruneSnapshots.
  etrans; [apply sublist_submseteq, sublist_take|].
  etrans; [apply Permutation_submseteq, sort_newest_first_perm|].
  apply sublist_submseteq, sublist_filter.
Qed.

(** A list in pruned form is not changed by pruning. *)
Lemma pruneSnapshots_fixed now l :
  Forall (retained now) l → newest_first l → (length l ≤ SNAPSHOT_MAX)%nat →
  pruneSnapshots now l = l.
Proof.
  intros Hret Hsorted Hlen. unfold pruneSnapshots.
  rewrite (filter_all _ l) by done.
  rewrite sort_newest_first_id by done. by apply take_ge.
Qed.

(** When pruning drops nothing, nothing was expired and nothing was in
    excess. *)
Lemma pruneSnapshots_same_length now l :
  length (pruneSnapshots now l) = length l →
  Forall (retained now) l ∧ (length l ≤ SNAPSHOT_MAX)%nat.
Proof.
  unfold pruneSnapshots. rewrite length_take.
  rewrite (Permutation_length (sort_newest_first_perm _)).
  intros Hlen.
  pose proof (length_filter (λ item, snapshot_cutoff now <= snap_timestamp item) l) as Hf.
  split; [|lia].
  apply (filter_same_length (λ item, snapshot_cutoff now <= snap_timestamp item)). lia.
Qed.

End PruneFacts.

(** X16: what [pruneSnapshots] keeps. The result has at most 20
    snapshots, all within the retention period of 7 days, newest first,
    and it is a part of the input: nothing is invented or duplicated. *)
Theorem pruneSnapshots_bounds `{Crypto} (now : Z) (l : list Snapshot) :
  (length (pruneSnapshots now l) ≤ 20)%nat
  ∧ Forall (λ s, now - 604800000 <= snap_timestamp s) (pruneSnapshots now l)
  ∧ newest_first (pruneSnapshots now l)
  ∧ pruneSnapshots now l ⊆+ l.
Proof.
  split; [apply pruneSnapshots_length|].
  split; [apply pruneSnapshots_retained|].
  split; [apply pruneSnapshots_sorted|apply pruneSnapshots_sub].
Qed.

(** X17: pruning drops only what is expired or oldest. A snapshot of the
    input that is within the retention period and is not in the result
    was dropped because 20 snapshots were kept, none of them older than
    it. *)
Theorem pruneSnapshots_keeps_newest `{Crypto} (now : Z) (l : list Snapshot)
    (s : Snapshot) :
  s ∈ l → retained now s → s ∉ pruneSnapshots now l →
  length (pruneSnapshots now l) = 20%nat
  ∧ ∀ k, k ∈ pruneSnapshots now l → snap_timestamp s <= snap_timestamp k.
Proof.
  intros Hs Hret Hnot. unfold pruneSnapshots in *.
  set (sorted := sort_newest_first _) in *.
  assert (Hin : s ∈ sorted).
  { unfold sorted. rewrite sort_newest_first_perm. by apply list_elem_of_filter. }
  rewrite <-(take_drop SNAPSHOT_MAX sorted) in Hin.
  apply elem_of_app in Hin as [Hin|Hin]; [done|].
  split.
  - rewrite length_take. destruct (decide (length sorted ≤ SNAPSHOT_MAX)%nat) as [Hle|Hgt].
    + rewrite drop_ge in Hin by done. by apply elem_of_nil in Hin.
    + unfold SNAPSHOT_MAX in *. lia.
  - intros k Hk.
    pose proof (sort_newest_first_sorted
                  (filter (λ item, snapshot_cutoff now <= snap_timestamp item) l)) as Hsorted.
    fold sorted in Hsorted. unfold newest_first in Hsorted.
    rewrite <-(take_drop SNAPSHOT_MAX sorted) in Hsorted.
    by apply (StronglySorted_app_1_elem_of _ _ _ k s) in Hsorted.
Qed.

(** X18: pruning is idempotent, and more: a list that is already within
    the retention period, newest first and at most 20 long is returned as
    it is. *)
Theorem pruneSnapshots_idempotent `{Crypto} (now : Z) (l : list Snapshot) :
  pruneSnapshots now (pruneSnapshots now l) = pruneSnapshots now l
  ∧ (Forall (retained now) l → newest_first l → (length l ≤ 20)%nat →
     pruneSnapshots now l = l).
Proof.
  split; [|apply pruneSnapshots_fixed].
  apply pruneSnapshots_fixed;
    [apply pruneSnapshots_retained|apply pruneSnapshots_sorted|
     apply pruneSnapshots_length].
Qed.

Section PruneExamples.
#[local] Existing Instance symbolicCrypto.

(** The oldest of twenty-one snapshots, through
    [pruneSnapshots_keeps_newest]: twenty are kept, all newer. *)
Lemma pruneSnapshots_keeps_newest_witness :
  length (pruneSnapshots 100 manySnapshots) = 20%nat
  ∧ ∀ k, k ∈ pruneSnapshots 100 manySnapshots → 0 <= snap_timestamp k.
Proof.
  apply (pruneSnapshots_keeps_newest 100 manySnapshots
           (mkSnapshot "0" 0 0 (PPlain JNull))).
  - by left.
  - vm_compute. discriminate.
  - intros Hin. apply (list_elem_of_fmap_2 snap_timestamp) in Hin.
    vm_compute in Hin.
    repeat (apply elem_of_cons in Hin as [Hin|Hin]; [discriminate|]).
    by apply elem_of_nil in Hin.
Defined.

(** The result on the twenty-one snapshots, evaluated: the time stamps
    kept, in order. *)
Example pruneSnapshots_order :
  snap_timestamp <$> pruneSnapshots 100 manySnapshots
  = [20; 19; 18; 17; 16; 15; 14; 13; 12; 11; 10; 9; 8; 7; 6; 5; 4; 3; 2; 1].
Proof. vm_compute. reflexivity. Qed.

End PruneExamples.

(** ** Snapshots: the stored list and the cache of details *)

Section SnapshotStore.
Context `{Coercions} `{Crypto}.

Lemma find_snapshot_spec snapshotId l s :
  find_snapshot snapshotId l = Some s → s ∈ l ∧ snap_id s = snapshotId.
Proof.
  unfold find_snapshot. intros Hf. apply find_some in Hf as [Hin Heq].
  split; [by apply list_elem_of_In|by apply String.eqb_eq].
Qed.

(** [getSnapshotById]: what it returns, and what it leaves of the lock
    and of the cache. *)
Lemma getSnapshotById_cases snapshotId w :
  ∃ found w', getSnapshotById snapshotId w = (Ok found, w')
    ∧ (∀ s, found = Some s → snap_id s = snapshotId
            ∧ s ∈ pruneSnapshots (clock w) (default [] (local_backups (storage w))))
    ∧ stateIsLocked w' = stateIsLocked w
    ∧ (cache_ok (snapshotDetailsCache w) → cache_ok (snapshotDetailsCache w')).
Proof.
  unfold getSnapshotById. kunfold.
  set (stored := default [] (local_backups (storage w))).
  set (pruned := pruneSnapshots (clock w) stored).
  assert (Hfound : ∀ s, find_snapshot snapshotId pruned = Some s →
                        snap_id s = snapshotId ∧ s ∈ pruned).
  { intros s Hs. by apply find_snapshot_spec in Hs as [Hin Hid]. }
  destruct (Nat.eqb_spec (length pruned) (length stored)) as [Heq|Hne]; ksimpl.
  - eexists _, _. split; [reflexivity|]. split; [|done].
    intros s [= Hs]. by apply Hfound.
  - eexists _, _. split; [reflexivity|]. split; [|split; [done|]].
    + intros s [= Hs]. by apply Hfound.
    + intros _. split; [apply NoDup_nil_2|simpl; lia].
Qed.

End SnapshotStore.

(** X19: listing the snapshots prunes the stored list. [getSnapshots]
    never raises; it returns the summaries of the pruned list, newest
    first; afterwards the stored list has at most 20 snapshots, all within
    the retention period, and is a part of what was stored before; when
    pruning drops nothing the world is left as it is, and otherwise the
    pruned list is stored and the cache of snapshot details is emptied. *)
Theorem getSnapshots_prunes_storage `{Coercions} `{Crypto} (w : World) :
  let stored := default [] (local_backups (storage w)) in
  let pruned := pruneSnapshots (clock w) stored in
  ∃ w', getSnapshots w
        = (Ok ((λ b, (snap_id b, snap_timestamp b, snap_tabCount b)) <$> pruned), w')
        ∧ (length (default [] (local_backups (storage w'))) ≤ 20)%nat
        ∧ Forall (retained (clock w)) (default [] (local_backups (storage w')))
        ∧ default [] (local_backups (storage w')) ⊆+ stored
        ∧ (length pruned = length stored → w' = w)
        ∧ (length pruned ≠ length stored →
           local_backups (storage w') = Some pruned ∧ snapshotDetailsCache w' = []).
Proof.
  intros stored pruned. unfold getSnapshots. kunfold. fold stored. fold pruned.
  destruct (Nat.eqb_spec (length pruned) (length stored)) as [Heq|Hne]; ksimpl.
  - exists w. split; [done|]. fold stored.
    destruct (pruneSnapshots_same_length (clock w) stored Heq) as [Hret Hlen].
    split; [done|]. split; [done|]. split; [done|]. split; [done|]. done.
  - eexists. split; [reflexivity|]. ksimpl.
    split; [apply pruneSnapshots_length|].
    split; [apply pruneSnapshots_retained|].
    split; [apply pruneSnapshots_sub|]. split; [done|]. done.
Qed.

(** X20: looking a snapshot up by id. [getSnapshotById] never raises; a
    snapshot it returns has the id asked for, was stored, and is within
    the retention period, and it is still stored afterwards; an expired
    snapshot is never returned. *)
Theorem getSnapshotById_retained `{Coercions} `{Crypto} (snapshotId : string)
    (w : World) :
  ∃ found w', getSnapshotById snapshotId w = (Ok found, w')
    ∧ found = find_snapshot snapshotId
                (pruneSnapshots (clock w) (default [] (local_backups (storage w))))
    ∧ ∀ s, found = Some s →
           snap_id s = snapshotId
           ∧ s ∈ default [] (local_backups (storage w))
           ∧ retained (clock w) s
           ∧ s ∈ default [] (local_backups (storage w')).
Proof.
  unfold getSnapshotById. kunfold.
  set (stored := default [] (local_backups (storage w))).
  set (pruned := pruneSnapshots (clock w) stored).
  assert (Hfound : ∀ s, find_snapshot snapshotId pruned = Some s →
                        snap_id s = snapshotId ∧ s ∈ stored ∧ retained (clock w) s
                        ∧ s ∈ pruned).
  { intros s Hs. apply find_snapshot_spec in Hs as [Hin Hid].
    split; [done|]. split; [|split; [|done]].
    - eapply elem_of_submseteq; [exact Hin|apply pruneSnapshots_sub].
    - pose proof (pruneSnapshots_retained (clock w) stored) as Hret.
      rewrite Forall_forall in Hret. by apply Hret. }
  destruct (Nat.eqb_spec (length pruned) (length stored)) as [Heq|Hne]; ksimpl.
  - eexists _, _. split; [reflexivity|]. split; [done|].
    intros s Hs. destruct (Hfound s Hs) as (? & ? & ? & ?). fold stored. auto.
  - eexists _, _. split; [reflexivity|]. split; [done|].
    intros s Hs. destruct (Hfound s Hs) as (? & ? & ? & ?). ksimpl. auto.
Qed.

Section CacheFacts.
Context `{Coercions} `{Crypto}.

Implicit Types c : list (string * gmap string Entry).

Lemma cache_delete_keys c k x : x ∈ (cache_delete c k).*1 ↔ x ∈ c.*1 ∧ x ≠ k.
Proof.
  unfold cache_delete. induction c as [|[k' v'] c IH]; simpl.
  { rewrite elem_of_nil. tauto. }
  destruct (String.eqb_spec k' k) as [->|Hne]; simpl.
  - rewrite IH, elem_of_cons. split; [tauto|]. intros [[->|?] ?]; tauto.
  - rewrite !elem_of_cons, IH. split; [|tauto].
    intros [->|[? ?]]; [split; [by left|done]|tauto].
Qed.

Lemma cache_delete_NoDup c k : NoDup c.*1 → NoDup (cache_delete c k).*1.
Proof.
  unfold cache_delete. induction c as [|[k' v'] c IH]; simpl; [done|].
  intros [Hk Hc]%NoDup_cons.
  destruct (String.eqb k' k); simpl; [by apply IH|].
  apply NoDup_cons. split; [|by apply IH].
  intros Hin. apply (cache_delete_keys c k k') in Hin as [? _]. done.
Qed.

Lemma cache_delete_length c k : (length (cache_delete c k) ≤ length c)%nat.
Proof.
  unfold cache_delete. induction c as [|[k' v'] c IH]; simpl; [done|].
  destruct (String.eqb k' k); simpl; lia.
Qed.

Lemma cache_delete_absent c k : k ∉ c.*1 → cache_delete c k = c.
Proof.
  unfold cache_delete. induction c as [|[k' v'] c IH]; simpl; [done|].
  intros Hk. apply not_elem_of_cons in Hk as [Hne Hk].
  destruct (String.eqb_spec k' k) as [->|_]; [done|]. simpl. by rewrite IH.
Qed.

Lemma cache_set_keys c k v x : x ∈ (cache_set c k v).*1 ↔ x ∈ c.*1 ∨ x = k.
Proof.
  induction c as [|[k' v'] c IH]; simpl.
  { rewrite elem_of_cons, elem_of_nil. tauto. }
  destruct (String.eqb_spec k' k) as [->|Hne]; simpl.
  - rewrite !elem_of_cons. tauto.
  - rewrite !elem_of_cons, IH. tauto.
Qed.

Lemma cache_set_NoDup c k v : NoDup c.*1 → NoDup (cache_set c k v).*1.
Proof.
  induction c as [|[k' v'] c IH]; simpl.
  { intros _. apply NoDup_singleton. }
  intros [Hk Hc]%NoDup_cons.
  destruct (String.eqb_spec k' k) as [->|Hne]; simpl.
  - by apply NoDup_cons.
  - apply NoDup_cons. split; [|by apply IH].
    rewrite cache_set_keys. intros [?|?]; done.
Qed.

Lemma cache_set_absent c k v : k ∉ c.*1 → cache_set c k v = c ++ [(k, v)].
Proof.
  induction c as [|[k' v'] c IH]; simpl; [done|].
  intros Hk. apply not_elem_of_cons in Hk as [Hne Hk].
  destruct (String.eqb_spec k' k) as [->|_]; [done|]. by rewrite IH.
Qed.

Lemma cache_set_present_length c k v :
  k ∈ c.*1 → length (cache_set c k v) = length c.
Proof.
  induction c as [|[k' v'] c IH]; simpl.
  { by intros ?%elem_of_nil. }
  destruct (String.eqb_spec k' k) as [->|Hne]; simpl; [done|].
  intros [?|Hin]%elem_of_cons; [by subst|]. by rewrite IH.
Qed.

Lemma cache_get_set c k v : cache_get (cache_set c k v) k = Some v.
Proof.
  unfold cache_get. induction c as [|[k' v'] c IH]; simpl.
  { by rewrite String.eqb_refl. }
  destruct (String.eqb_spec k' k) as [->|Hne]; simpl.
  - by rewrite String.eqb_refl.
  - apply String.eqb_neq in Hne. by rewrite Hne.
Qed.

Lemma cache_get_set_other c k v k' :
  k' ≠ k → cache_get (cache_set c k v) k' = cache_get c k'.
Proof.
  intros Hne. unfold cache_get. induction c as [|[k0 v0] c IH]; simpl.
  { apply not_eq_sym in Hne. apply String.eqb_neq in Hne. by rewrite Hne. }
  destruct (String.eqb_spec k0 k) as [->|Hk]; simpl.
  - apply not_eq_sym in Hne. apply String.eqb_neq in Hne. by rewrite Hne.
  - destruct (String.eqb k0 k'); [done|apply IH].
Qed.

Lemma cache_get_absent c k : k ∉ c.*1 → cache_get c k = None.
Proof.
  unfold cache_get. induction c as [|[k' v'] c IH]; simpl; [done|].
  intros Hk. apply not_elem_of_cons in Hk as [Hne Hk].
  apply not_eq_sym in Hne. apply String.eqb_neq in Hne. rewrite Hne. by apply IH.
Qed.

Lemma cache_get_present c k v : cache_get c k = Some v → k ∈ c.*1.
Proof.
  intros Hget. destruct (decide (k ∈ c.*1)) as [|Hout]; [done|].
  by rewrite (cache_get_absent c k Hout) in Hget.
Qed.

(** The eviction loop on a cache without repeated ids: the oldest entries
    go until the limit is met. *)
Lemma evict_oldest_drop fuel c :
  NoDup c.*1 → (length c ≤ fuel)%nat →
  evict_oldest fuel c = drop (length c - SNAPSHOT_DETAILS_CACHE_LIMIT) c.
Proof.
  revert c. induction fuel as [|fuel IH]; intros c Hnd Hlen; simpl.
  { destruct c; [done|simpl in Hlen; lia]. }
  destruct (Nat.ltb_spec SNAPSHOT_DETAILS_CACHE_LIMIT (length c)) as [Hgt|Hle].
  - destruct c as [|[k v] c]; [simpl in Hgt; lia|].
    simpl in Hnd. apply NoDup_cons in Hnd as [Hk Hc].
    assert (Hdel : cache_delete ((k, v) :: c) k = c).
    { unfold cache_delete. simpl. rewrite String.eqb_refl. simpl.
      by apply cache_delete_absent. }
    rewrite Hdel. rewrite IH by (done || simpl in Hlen; lia).
    simpl length.
    replace (S (length c) - SNAPSHOT_DETAILS_CACHE_LIMIT)%nat
      with (S (length c - SNAPSHOT_DETAILS_CACHE_LIMIT))
      by (unfold SNAPSHOT_DETAILS_CACHE_LIMIT in *; simpl in *; lia).
    done.
  - replace (length c - SNAPSHOT_DETAILS_CACHE_LIMIT)%nat with 0%nat by lia. done.
Qed.

Lemma setCache_run snapshotId tabsMap w :
  setSnapshotDetailsCache snapshotId tabsMap w
  = (Ok tt,
     set_snapshotDetailsCache
       (evict_oldest
          (length (cache_set (snapshotDetailsCache w) snapshotId
                     (cloneSuspendedTabsMap tabsMap)))
          (cache_set (snapshotDetailsCache w) snapshotId
             (cloneSuspendedTabsMap tabsMap))) w).
Proof. reflexivity. Qed.

Lemma setCache_result snapshotId tabsMap w :
  NoDup (snapshotDetailsCache w).*1 →
  snapshotDetailsCache (setSnapshotDetailsCache snapshotId tabsMap w).2
  = drop (length (cache_set (snapshotDetailsCache w) snapshotId tabsMap)
          - SNAPSHOT_DETAILS_CACHE_LIMIT)
      (cache_set (snapshotDetailsCache w) snapshotId tabsMap).
Proof.
  intros Hnd. unfold setSnapshotDetailsCache, cloneSuspendedTabsMap. kunfold.
  apply evict_oldest_drop; [by apply cache_set_NoDup|done].
Qed.

Lemma drop_fst_NoDup {A B} (l : list (A * B)) n : NoDup l.*1 → NoDup (drop n l).*1.
Proof.
  intros Hnd. rewrite <-(take_drop n l), fmap_app in Hnd.
  by apply NoDup_app in Hnd as (_ & _ & ?).
Qed.

Lemma cache_delete_present_length c k :
  k ∈ c.*1 → (length (cache_delete c k) < length c)%nat.
Proof.
  unfold cache_delete. induction c as [|[k' v'] c IH]; simpl.
  { by intros ?%elem_of_nil. }
  destruct (String.eqb_spec k' k) as [->|Hne]; simpl.
  - intros _. pose proof (cache_delete_length c k). unfold cache_delete in *. lia.
  - intros [?|Hin]%elem_of_cons; [by subst|]. specialize (IH Hin). lia.
Qed.

(** A read that hits: the entry moves to the end. *)
Lemma readCache_hit snapshotId w v :
  cache_get (snapshotDetailsCache w) snapshotId = Some v →
  readSnapshotDetailsCache snapshotId w
  = (Ok (Some v),
     set_snapshotDetailsCache
       (cache_delete (snapshotDetailsCache w) snapshotId ++ [(snapshotId, v)]) w).
Proof.
  intros Hget. unfold readSnapshotDetailsCache, cloneSuspendedTabsMap. kunfold.
  rewrite Hget. ksimpl. rewrite cache_set_absent; [done|].
  rewrite cache_delete_keys. by intros [_ ?].
Qed.

Lemma readCache_miss snapshotId w :
  cache_get (snapshotDetailsCache w) snapshotId = None →
  readSnapshotDetailsCache snapshotId w = (Ok None, w).
Proof.
  intros Hget. unfold readSnapshotDetailsCache. kunfold. by rewrite Hget.
Qed.

Lemma elem_of_drop_fst {A B} (l : list (A * B)) n x :
  x ∈ (drop n l).*1 → x ∈ l.*1.
Proof. rewrite fmap_drop. apply subseteq_drop. Qed.

Lemma run_cache_op_ok op w :
  cache_ok (snapshotDetailsCache w) → cache_ok (snapshotDetailsCache (run_cache_op op w)).
Proof.
  intros [Hnd Hlen]. destruct op as [k v|k|]; unfold run_cache_op.
  - rewrite setCache_result by done. split.
    + by apply drop_fst_NoDup, cache_set_NoDup.
    + rewrite length_drop. lia.
  - destruct (cache_get (snapshotDetailsCache w) k) as [v|] eqn:Hget.
    + rewrite (readCache_hit k w v Hget). simpl.
      pose proof (cache_delete_present_length _ _ (cache_get_present _ _ _ Hget)).
      split.
      * rewrite fmap_app. apply NoDup_app. split; [by apply cache_delete_NoDup|].
        split; [|apply NoDup_singleton].
        intros x Hx [->|[]%elem_of_nil]%elem_of_cons.
        apply cache_delete_keys in Hx as [_ ?]. done.
      * rewrite length_app. simpl. lia.
    + by rewrite (readCache_miss k w Hget).
  - split; [apply NoDup_nil_2|simpl; lia].
Qed.

(** What was just stored is found, also after the eviction. *)
Lemma cache_get_after_set c k v :
  cache_ok c →
  cache_get (drop (length (cache_set c k v) - SNAPSHOT_DETAILS_CACHE_LIMIT)
               (cache_set c k v)) k = Some v.
Proof.
  intros [Hnd Hlen]. destruct (decide (k ∈ c.*1)) as [Hin|Hout].
  - rewrite (cache_set_present_length c k v Hin).
    replace (_ - _)%nat with 0%nat by lia. apply cache_get_set.
  - rewrite (cache_set_absent c k v Hout), length_app. simpl.
    destruct (decide (length c = SNAPSHOT_DETAILS_CACHE_LIMIT)) as [Hfull|Hroom].
    + replace (_ - _)%nat with 1%nat by lia.
      destruct c as [|[k0 v0] c']; [done|]. simpl. rewrite drop_0.
      simpl in Hout. apply not_elem_of_cons in Hout as [_ Hout].
      rewrite <-(cache_set_absent c' k v Hout). apply cache_get_set.
    + replace (_ - _)%nat with 0%nat by lia.
      rewrite drop_0, <-(cache_set_absent c k v Hout). apply cache_get_set.
Qed.

Lemma cache_get_moved c k v :
  cache_get (cache_delete c k ++ [(k, v)]) k = Some v.
Proof.
  rewrite <-(cache_set_absent (cache_delete c k) k v); [apply cache_get_set|].
  rewrite cache_delete_keys. by intros [_ ?].
Qed.

End CacheFacts.

(** X21: the cache of snapshot details stays small. From the empty cache,
    after any sequence of stores, reads and clears, the cache holds no
    snapshot id twice and at most 10 snapshots. *)
Theorem snapshot_cache_bounded `{Coercions} `{Crypto} (ops : list CacheOp) (w : World) :
  snapshotDetailsCache w = [] →
  NoDup (snapshotDetailsCache (run_cache_ops ops w)).*1
  ∧ (length (snapshotDetailsCache (run_cache_ops ops w)) ≤ 10)%nat.
Proof.
  intros Hempty.
  assert (Hok : cache_ok (snapshotDetailsCache w)).
  { rewrite Hempty. split; [apply NoDup_nil_2|simpl; lia]. }
  clear Hempty. revert w Hok.
  induction ops as [|op ops IH]; intros w Hok; [exact Hok|].
  simpl. apply IH. by apply run_cache_op_ok.
Qed.

(** X22: a stored entry is read back. With no id twice in the cache and
    at most 10 entries, after [setSnapshotDetailsCache(id, tabs)] a read of
    [id] returns [tabs], whatever was evicted to make room; the read moves
    [id] to the most recent place; and an id that was never stored is not
    found. *)
Theorem snapshot_cache_read_after_set `{Coercions} `{Crypto} (snapshotId : string)
    (tabsMap : gmap string Entry) (w : World) :
  NoDup (snapshotDetailsCache w).*1 →
  (length (snapshotDetailsCache w) ≤ 10)%nat →
  let w1 := (setSnapshotDetailsCache snapshotId tabsMap w).2 in
  (∃ w2, readSnapshotDetailsCache snapshotId w1 = (Ok (Some tabsMap), w2)
         ∧ last (snapshotDetailsCache w2) = Some (snapshotId, tabsMap))
  ∧ (∀ other, other ≠ snapshotId → other ∉ (snapshotDetailsCache w).*1 →
              readSnapshotDetailsCache other w1 = (Ok None, w1)).
Proof.
  intros Hnd Hlen w1.
  assert (Hc1 : snapshotDetailsCache w1
                = drop (length (cache_set (snapshotDetailsCache w) snapshotId tabsMap)
                        - SNAPSHOT_DETAILS_CACHE_LIMIT)
                    (cache_set (snapshotDetailsCache w) snapshotId tabsMap))
    by (by apply setCache_result).
  set (c := snapshotDetailsCache w) in *.
  assert (Hget : cache_get (snapshotDetailsCache w1) snapshotId = Some tabsMap).
  { rewrite Hc1. by apply cache_get_after_set. }
  split.
  - rewrite (readCache_hit snapshotId w1 tabsMap Hget). eexists. split; [reflexivity|].
    simpl. apply last_snoc.
  - intros other Hne Hout. apply readCache_miss, cache_get_absent.
    rewrite Hc1. intros Hin.
    apply elem_of_drop_fst in Hin. apply cache_set_keys in Hin as [?|?]; done.
Qed.

(** X23: the least recently used entry is the one evicted. With no id
    twice in the cache: storing a new id in a cache of 10 drops the entry
    at the front and appends the new one; a read that hits moves the entry
    read to the end, so that it is the last to be evicted; storing an id
    that is already cached replaces its value where it stands, without
    moving it. *)
Theorem snapshot_cache_lru `{Coercions} `{Crypto} (snapshotId : string)
    (tabsMap : gmap string Entry) (w : World) :
  NoDup (snapshotDetailsCache w).*1 →
  (length (snapshotDetailsCache w) = 10%nat → snapshotId ∉ (snapshotDetailsCache w).*1 →
   snapshotDetailsCache (setSnapshotDetailsCache snapshotId tabsMap w).2
   = drop 1 (snapshotDetailsCache w) ++ [(snapshotId, tabsMap)])
  ∧ (∀ v, cache_get (snapshotDetailsCache w) snapshotId = Some v →
          snapshotDetailsCache (readSnapshotDetailsCache snapshotId w).2
          = cache_delete (snapshotDetailsCache w) snapshotId ++ [(snapshotId, v)])
  ∧ ((length (snapshotDetailsCache w) ≤ 10)%nat → snapshotId ∈ (snapshotDetailsCache w).*1 →
     (snapshotDetailsCache (setSnapshotDetailsCache snapshotId tabsMap w).2).*1
     = (snapshotDetailsCache w).*1).
Proof.
  intros Hnd. split; [|split].
  - intros Hfull Hout. rewrite setCache_result by done.
    rewrite (cache_set_absent _ snapshotId tabsMap Hout), length_app, Hfull. simpl.
    destruct (snapshotDetailsCache w) as [|[k v] c]; [done|]. simpl. by rewrite drop_0.
  - intros v Hget. by rewrite (readCache_hit snapshotId w v Hget).
  - intros Hlen Hin. rewrite setCache_result by done.
    rewrite (cache_set_present_length _ snapshotId tabsMap Hin).
    replace (_ - _)%nat with 0%nat by (unfold SNAPSHOT_DETAILS_CACHE_LIMIT; lia).
    rewrite drop_0. clear Hlen.
    induction (snapshotDetailsCache w) as [|[k v] c IH]; simpl in *.
    { by apply elem_of_nil in Hin. }
    apply NoDup_cons in Hnd as [Hk Hc].
    destruct (String.eqb_spec k snapshotId) as [->|Hne]; simpl; [done|].
    apply elem_of_cons in Hin as [?|Hin]; [by subst|]. f_equal. by apply IH.
Qed.

(** X24: a repeated request for snapshot details gets the same answer.
    With no id twice in the cache and at most 10 entries, when
    [GET_SNAPSHOT_DETAILS] answers with the tabs of a snapshot, the same
    request made again answers with the same tabs, this time from the
    cache: storage is not touched. *)
Theorem snapshot_details_repeat `{Coercions} `{Crypto} (snapshotId : string)
    (tabs : gmap string Entry) (w w1 : World) :
  NoDup (snapshotDetailsCache w).*1 →
  (length (snapshotDetailsCache w) ≤ 10)%nat →
  handleGetSnapshotDetails snapshotId w = (Ok (DetailsTabs tabs), w1) →
  ∃ w2, handleGetSnapshotDetails snapshotId w1 = (Ok (DetailsTabs tabs), w2)
        ∧ storage w2 = storage w1.
Proof.
  intros Hnd Hlen.
  assert (Hhit : ∀ w0, stateIsLocked w0 = false →
                       cache_get (snapshotDetailsCache w0) snapshotId = Some tabs →
                       ∃ w2, handleGetSnapshotDetails snapshotId w0
                             = (Ok (DetailsTabs tabs), w2)
                             ∧ storage w2 = storage w0).
  { intros w0 Hl Hget. unfold handleGetSnapshotDetails, try_catch_with. kunfold.
    rewrite Hl. ksimpl. rewrite (readCache_hit snapshotId w0 tabs Hget). ksimpl.
    by eexists. }
  unfold handleGetSnapshotDetails at 1. unfold try_catch_with. kunfold.
  destruct (stateIsLocked w) eqn:Hl; ksimpl; [done|].
  destruct (cache_get (snapshotDetailsCache w) snapshotId) as [v|] eqn:Hget.
  - rewrite (readCache_hit snapshotId w v Hget). ksimpl. intros [= <- <-].
    apply Hhit; [done|]. simpl. apply cache_get_moved.
  - rewrite (readCache_miss snapshotId w Hget). ksimpl.
    destruct (getSnapshotById_cases snapshotId w) as (found & w0 & -> & Hfound & Hw0).
    ksimpl. destruct found as [s|]; ksimpl; [|done].
    destruct (getSnapshotData (Some s) w0) as [[st|msg] w0'] eqn:Hdata; ksimpl; [|done].
    assert (Hw0' : w0' = w0).
    { revert Hdata. unfold getSnapshotData. kunfold.
      destruct (snap_data s) as [c|encoded]; ksimpl.
      - destruct (cryptoKey w0); ksimpl; [|done].
        destruct (aes_decrypt _ c); ksimpl; [|done].
        destruct (Codec.decodeStateAny _); by intros [= _ <-].
      - destruct (js_truthy encoded); ksimpl; [|done].
        destruct (Codec.decodeStateAny _); by intros [= _ <-]. }
    subst w0'. destruct Hw0 as (Hl0 & Hok0).
    destruct (Hfound s eq_refl) as [Hid _]. rewrite Hid.
    rewrite setCache_run. ksimpl. intros [= <- <-].
    destruct (Hok0 (conj Hnd Hlen)) as [Hnd0 Hlen0].
    apply Hhit; [by rewrite <-Hl|]. simpl. unfold cloneSuspendedTabsMap.
    rewrite evict_oldest_drop; [|by apply cache_set_NoDup|done].
    by apply cache_get_after_set.
Qed.

Section SnapshotExamples.
#[local] Existing Instance plainCoercions.
#[local] Existing Instance symbolicCrypto.

(** Twelve stores into the empty cache, through [snapshot_cache_bounded];
    and what is left, evaluated: the ten most recent, oldest first. *)
Lemma snapshot_cache_bounded_witness :
  (length (snapshotDetailsCache (run_cache_ops twelveStores demoWorld)) ≤ 10)%nat.
Proof. apply (snapshot_cache_bounded twelveStores demoWorld). reflexivity. Defined.

Example twelve_stores_keep_ten :
  (snapshotDetailsCache (run_cache_ops twelveStores demoWorld)).*1
  = ["2"; "3"; "4"; "5"; "6"; "7"; "8"; "9"; "10"; "11"].
Proof. vm_compute. reflexivity. Qed.

(** A read refreshes: after ten stores, a read of snapshot 0 and one more
    store, snapshot 1 is the one evicted. *)
Example read_refreshes :
  (snapshotDetailsCache
     (run_cache_ops
        (take 10 twelveStores ++ [CacheRead "0"; CacheSet "new" ∅]) demoWorld)).*1
  = ["2"; "3"; "4"; "5"; "6"; "7"; "8"; "9"; "0"; "new"].
Proof. vm_compute. reflexivity. Qed.

(** Storing and reading the tabs of the scenario, through
    [snapshot_cache_read_after_set]. *)
Lemma snapshot_cache_read_after_set_witness :
  ∃ w2, readSnapshotDetailsCache "s1"
          (setSnapshotDetailsCache "s1" (suspendedTabs demoState) demoWorld).2
        = (Ok (Some (suspendedTabs demoState)), w2).
Proof.
  destruct (snapshot_cache_read_after_set "s1" (suspendedTabs demoState) demoWorld)
    as [(w2 & Hread & _) _]; [apply NoDup_nil_2|simpl; lia|].
  by exists w2.
Defined.

(** A hit on a cache of ten, through [snapshot_cache_lru]. *)
Lemma snapshot_cache_lru_witness :
  let w := run_cache_ops (take 10 twelveStores) demoWorld in
  (snapshotDetailsCache (readSnapshotDetailsCache "3" w).2).*1
  = ["0"; "1"; "2"; "4"; "5"; "6"; "7"; "8"; "9"; "3"].
Proof.
  intros w.
  assert (Hnd : NoDup (snapshotDetailsCache w).*1).
  { apply (snapshot_cache_bounded (take 10 twelveStores) demoWorld). reflexivity. }
  rewrite (proj1 (proj2 (snapshot_cache_lru "3" ∅ w Hnd)) ∅);
    vm_compute; reflexivity.
Defined.

(** The details of the stored snapshot asked for twice, through
    [snapshot_details_repeat]. *)
Lemma snapshot_details_repeat_witness :
  ∃ w2, handleGetSnapshotDetails "s1" (handleGetSnapshotDetails "s1" snapshotWorld).2
        = (Ok (DetailsTabs (suspendedTabs demoState)), w2).
Proof.
  destruct (snapshot_details_repeat "s1" (suspendedTabs demoState) snapshotWorld
              (handleGetSnapshotDetails "s1" snapshotWorld).2)
    as (w2 & Hrun & _).
  - apply NoDup_nil_2.
  - simpl. lia.
  - vm_compute. reflexivity.
  - by exists w2.
Defined.

Example expired_snapshot_not_found :
  (handleGetSnapshotDetails "s1"
     (set_storage (storage snapshotWorld)
        (mkWorld (Some 7%nat) false None None None [] demoStorage 0 700000000))).1
  = Ok (DetailsError "not-found").
Proof. vm_compute. reflexivity. Qed.

End SnapshotExamples.

(** ** Validation against the open tabs *)

Section ValidationFacts.
Context `{Coercions} `{Crypto}.

Lemma tab_id_key_number z :
  0 < z ≤ 9007199254740991 →
  StringToNumber (int_key z) = NInt z ∧ number_key (NInt z) = int_key z.
Proof.
  intros Hz. split.
  - apply (ToNumber_int_key z). lia.
  - unfold number_key.
    destruct (Z.ltb_spec (Z.abs z) (10 ^ 21)) as [_|Hbig]; [done|]. lia.
Qed.

Lemma tab_lookup_elem_of tabs n tab : tab_lookup tabs n = Some tab → tab ∈ tabs.
Proof.
  destruct n; simpl; try done.
  intros Hlast%last_Some_elem_of. by apply list_elem_of_filter in Hlast as [_ ?].
Qed.

(** One turn of the loop on the key of a tab id. *)
Lemma validate_step host tabs z rest st c e :
  0 < z ≤ 9007199254740991 →
  urls_known tabs →
  suspendedTabs st !! int_key z = Some e →
  validate_entries host tabs (int_key z :: rest) st c
  = if confirmed host tabs (int_key z) e
    then validate_entries host tabs rest st c
    else validate_entries host tabs rest (deleteEntry (int_key z) st) true.
Proof.
  intros Hz Hurls He. destruct (tab_id_key_number z Hz) as [Hnum Hkey].
  simpl. unfold confirmed. rewrite Hnum, Hkey, He.
  destruct (tab_lookup tabs (NInt z)) as [tab|] eqn:Htab; [|done].
  destruct (tab_incognito tab); simpl; [done|].
  destruct (isSafeUrl host (assoc e "url")); simpl; [|done].
  destruct (strict_eq (assoc e "method") (JStr "discard")).
  { by destruct (tab_discarded tab). }
  destruct (strict_eq (assoc e "method") (JStr "page")); [|done].
  apply tab_lookup_elem_of in Htab.
  unfold urls_known in Hurls. rewrite Forall_forall in Hurls.
  destruct (Hurls tab Htab) as [url ->].
  by destruct (String.prefix (suspended_page host) url).
Qed.

(** Filtering a map on some of its keys, one key at a time. *)
Lemma filter_keys_nil (P : string → Entry → bool) (m : gmap string Entry) :
  filter (fun p => p.1 ∈ @nil string → P p.1 p.2 = true) m = m.
Proof. apply map_filter_id. intros i x _ Hi. by apply elem_of_nil in Hi. Qed.

Lemma filter_keys_keep (P : string → Entry → bool) (m : gmap string Entry)
    (k : string) (rest : list string) (e : Entry) :
  m !! k = Some e → P k e = true →
  filter (fun p => p.1 ∈ k :: rest → P p.1 p.2 = true) m
  = filter (fun p => p.1 ∈ rest → P p.1 p.2 = true) m.
Proof.
  intros He HP. apply map_filter_ext. intros i x Hix. simpl. split.
  - intros Hp Hi. apply Hp. by right.
  - intros Hp [->|Hi]%elem_of_cons; [|by apply Hp].
    rewrite Hix in He. by injection He as ->.
Qed.

Lemma filter_keys_drop (P : string → Entry → bool) (m : gmap string Entry)
    (k : string) (rest : list string) (e : Entry) :
  m !! k = Some e → P k e = false →
  filter (fun p => p.1 ∈ k :: rest → P p.1 p.2 = true) m
  = filter (fun p => p.1 ∈ rest → P p.1 p.2 = true) (delete k m)
  ∧ filter (fun p => p.1 ∈ k :: rest → P p.1 p.2 = true) m ≠ m.
Proof.
  intros He HP. split.
  - trans (filter (fun p => p.1 ∈ k :: rest → P p.1 p.2 = true) (delete k m)).
    + symmetry. apply map_filter_delete_not.
      intros y Hy Hp. simpl in Hp. rewrite He in Hy. injection Hy as <-.
      rewrite Hp in HP; [done|left].
    + apply map_filter_ext. intros i x Hix. simpl.
      apply lookup_delete_Some in Hix as [Hne Hix]. split.
      * intros Hp Hi. apply Hp. by right.
      * intros Hp [->|Hi]%elem_of_cons; [done|by apply Hp].
  - intros Heq.
    assert (Hlook : filter (fun p => p.1 ∈ k :: rest → P p.1 p.2 = true) m !! k
                    = Some e) by (by rewrite Heq).
    apply map_lookup_filter_Some in Hlook as [_ Hp]. simpl in Hp.
    rewrite Hp in HP; [done|left].
Qed.

Lemma filter_keys_all (P : string → Entry → bool) (m : gmap string Entry)
    (ks : list string) :
  (∀ k, is_Some (m !! k) → k ∈ ks) →
  filter (fun p => p.1 ∈ ks → P p.1 p.2 = true) m
  = filter (fun p => P p.1 p.2 = true) m.
Proof.
  intros Hks. apply map_filter_ext. intros i x Hix. simpl. split; [|done].
  intros Hp. apply Hp. apply Hks. by eexists.
Qed.

(** The loop over distinct keys of tab ids that are in the state: the
    entries under these keys that the open tabs do not confirm are
    deleted, and [changed] is set when one is. *)
Lemma validate_entries_spec host tabs ks :
  urls_known tabs →
  NoDup ks →
  (∀ k, k ∈ ks → ∃ z, 0 < z ≤ 9007199254740991 ∧ k = int_key z) →
  ∀ st c,
    (∀ k, k ∈ ks → is_Some (suspendedTabs st !! k)) →
    ∃ c',
      validate_entries host tabs ks st c
      = (Ok c',
         mkState (filter (fun p => p.1 ∈ ks → confirmed host tabs p.1 p.2 = true)
                    (suspendedTabs st)))
      ∧ (c' = c
         ∧ filter (fun p => p.1 ∈ ks → confirmed host tabs p.1 p.2 = true)
             (suspendedTabs st) = suspendedTabs st
         ∨ c' = true
           ∧ filter (fun p => p.1 ∈ ks → confirmed host tabs p.1 p.2 = true)
               (suspendedTabs st) ≠ suspendedTabs st).
Proof.
  intros Hurls Hnd Hks. induction ks as [|k rest IH]; intros st c Hin.
  { exists c. rewrite (filter_keys_nil (confirmed host tabs)).
    destruct st. simpl. split; [done|]. by left. }
  apply NoDup_cons in Hnd as [Hk Hnd].
  destruct (Hks k) as (z & Hz & ->); [left|].
  destruct (Hin (int_key z)) as [e He]; [left|].
  rewrite (validate_step host tabs z rest st c e Hz Hurls He).
  assert (Hrest : ∀ k, k ∈ rest → ∃ z, 0 < z ≤ 9007199254740991 ∧ k = int_key z)
    by (intros j Hj; apply Hks; by right).
  destruct (confirmed host tabs (int_key z) e) eqn:Hconf.
  - destruct (IH Hnd Hrest st c) as (c' & Hrun & Hc').
    { intros j Hj. apply Hin. by right. }
    exists c'.
    by rewrite (filter_keys_keep (confirmed host tabs) _ _ rest e He Hconf).
  - destruct (IH Hnd Hrest (deleteEntry (int_key z) st) true) as (c' & Hrun & Hc').
    { intros j Hj. simpl. rewrite lookup_delete_ne by (by intros <-).
      apply Hin. by right. }
    destruct (filter_keys_drop (confirmed host tabs) _ _ rest e He Hconf)
      as [Hsame Hne].
    exists c'. rewrite Hrun, Hsame. split; [done|]. right.
    split; [by destruct Hc' as [[-> _]|[-> _]]|]. by rewrite <-Hsame.
Qed.

Lemma state_entries_keys st k :
  k ∈ (state_entries st).*1 ↔ is_Some (suspendedTabs st !! k).
Proof.
  unfold state_entries. rewrite merge_sort_Permutation.
  rewrite list_elem_of_fmap. split.
  - intros [[j e] [-> Hin%elem_of_map_to_list]]. by eexists.
  - intros [e He]. exists (k, e). split; [done|]. by apply elem_of_map_to_list.
Qed.

Lemma state_entries_NoDup st : NoDup (state_entries st).*1.
Proof.
  unfold state_entries. rewrite merge_sort_Permutation. apply NoDup_fst_map_to_list.
Qed.

Lemma state_entries_nil st : (state_entries st).*1 = [] ↔ suspendedTabs st = ∅.
Proof.
  split.
  - intros Hnil. apply map_eq. intros k. rewrite lookup_empty.
    destruct (suspendedTabs st !! k) as [e|] eqn:He; [|done].
    assert (Hk : k ∈ (state_entries st).*1) by (apply state_entries_keys; by eexists).
    rewrite Hnil in Hk. by apply elem_of_nil in Hk.
  - intros Hempty. unfold state_entries.
    apply Permutation_nil_r. rewrite merge_sort_Permutation.
    by rewrite Hempty, map_to_list_empty.
Qed.

(** The loop of [validateState] on a state whose keys are tab ids. *)
Lemma validate_entries_state host tabs st :
  urls_known tabs →
  tab_id_keys (suspendedTabs st) →
  validate_entries host tabs (state_entries st).*1 st false
    = (Ok false, st) ∧ confirmed_part host tabs st = st
  ∨ validate_entries host tabs (state_entries st).*1 st false
    = (Ok true, confirmed_part host tabs st) ∧ confirmed_part host tabs st ≠ st.
Proof.
  intros Hurls Hkeys.
  destruct (validate_entries_spec host tabs (state_entries st).*1 Hurls
              (state_entries_NoDup st)) with (st := st) (c := false)
    as (c & Hrun & Hc).
  { intros k Hk. apply Hkeys. by apply state_entries_keys. }
  { intros k Hk. by apply state_entries_keys. }
  pose proof (filter_keys_all (confirmed host tabs) (suspendedTabs st)
                (state_entries st).*1) as Hsame.
  rewrite Hsame in Hrun, Hc by (intros k Hk; by apply state_entries_keys). unfold confirmed_part. destruct st as [m]. simpl in *.
  destruct Hc as [[-> Heq]|[-> Hne]].
  - left. by rewrite Hrun, Heq.
  - right. split; [done|]. by intros [= Heq].
Qed.

Lemma confirmed_part_lookup host tabs st k e :
  suspendedTabs (confirmed_part host tabs st) !! k = Some e
  ↔ suspendedTabs st !! k = Some e ∧ confirmed host tabs k e = true.
Proof. unfold confirmed_part. simpl. rewrite map_lookup_filter_Some. naive_solver. Qed.

(** [validateState] on a writable world. *)
Lemma validateState_run host tabs st w :
  tab_id_keys (suspendedTabs st) →
  urls_known tabs →
  stateIsWritable w = true →
  tabs_query host w = (Ok tabs, w) →
  (confirmed_part host tabs st = st ∧ validateState host st w = (Ok tt, w))
  ∨ (confirmed_part host tabs st ≠ st
     ∧ ∃ raw, Codec.encodeStateV2 (confirmed_part host tabs st) = Ok raw
              ∧ validateState host st w
                = (Ok tt, saved (confirmed_part host tabs st) raw w)).
Proof.
  intros Hkeys Hurls Hw Hquery.
  unfold validateState.
  destruct (decide ((state_entries st).*1 = [])) as [Hnil|Hne].
  - rewrite bool_decide_eq_true_2 by done. left. split; [|done].
    apply state_entries_nil in Hnil. unfold confirmed_part. destruct st as [m].
    simpl in *. subst m. by rewrite map_filter_empty.
  - rewrite bool_decide_eq_false_2 by done.
    cbv [bind]. rewrite Hquery.
    destruct (validate_entries_state host tabs st Hurls Hkeys)
      as [[-> Heq]|[-> Hne']].
    + by left.
    + right. split; [done|].
      destruct (saveState_writable (confirmed_part host tabs st) w Hw)
        as (raw & Hraw & Hsave).
      exists raw. by rewrite Hsave.
Qed.

End ValidationFacts.

(** X25: [validateState] keeps exactly the entries that the open tabs
    confirm. On a writable world, for a state whose keys are tab ids and
    open tabs that report their urls, it does not raise; the state it
    leaves is the part of the given one whose entries have an open tab
    that is not incognito, a safe url, and a tab that is discarded (method
    discard) or shows the suspended page (method page). When every entry
    is confirmed nothing is written and the world is unchanged; otherwise
    the pruned state is saved and cached. *)
Theorem validateState_prunes `{Coercions} `{Crypto} (host : Host) (tabs : list Tab)
    (st : State) (w : World) :
  tab_id_keys (suspendedTabs st) →
  urls_known tabs →
  stateIsWritable w = true →
  tabs_query host w = (Ok tabs, w) →
  ∃ st' w',
    validateState host st w = (Ok tt, w')
    ∧ (∀ k e, suspendedTabs st' !! k = Some e
              ↔ suspendedTabs st !! k = Some e ∧ confirmed host tabs k e = true)
    ∧ (st' = st → w' = w)
    ∧ (st' ≠ st →
       ∃ raw, Codec.encodeStateV2 st' = Ok raw ∧ w' = saved st' raw w
              ∧ cachedState w' = Some st').
Proof.
  intros Hkeys Hurls Hw Hquery.
  exists (confirmed_part host tabs st).
  destruct (validateState_run host tabs st w Hkeys Hurls Hw Hquery)
    as [[Heq Hrun]|(Hne & raw & Hraw & Hrun)].
  - exists w. split; [done|]. split; [apply confirmed_part_lookup|].
    split; [done|]. intros Hne. by destruct Hne.
  - exists (saved (confirmed_part host tabs st) raw w).
    split; [done|]. split; [apply confirmed_part_lookup|].
    split; [by intros Heq|].
    intros _. exists raw. split; [done|]. split; [done|]. apply saved_cached.
Qed.

Section ValidationExamples.
#[local] Existing Instance plainCoercions.
#[local] Existing Instance symbolicCrypto.

(** The crowded state of the scenario, through [validateState_prunes]:
    the run does not raise. *)
Lemma validateState_prunes_witness :
  ∃ w', validateState demoHost crowdedState crowdedWorld = (Ok tt, w').
Proof.
  destruct (validateState_prunes demoHost demoTabs crowdedState crowdedWorld)
    as (st' & w' & Hrun & _).
  - intros k [e He]. unfold crowdedState in He. simpl in He.
    apply lookup_insert_Some in He as [[<- _]|[_ He]];
      [exists 1; split; [lia|reflexivity]|].
    apply lookup_insert_Some in He as [[<- _]|[_ He]];
      [exists 2; split; [lia|reflexivity]|].
    apply lookup_insert_Some in He as [[<- _]|[_ He]];
      [exists 3; split; [lia|reflexivity]|].
    apply lookup_insert_Some in He as [[<- _]|[_ He]];
      [exists 4; split; [lia|reflexivity]|].
    apply lookup_insert_Some in He as [[<- _]|[_ He]];
      [exists 5; split; [lia|reflexivity]|].
    by rewrite lookup_empty in He.
  - unfold urls_known, demoTabs. repeat constructor; by eexists.
  - reflexivity.
  - reflexivity.
  - by exists w'.
Defined.

(** Of the five entries the validation keeps two: the tab on the
    suspended page and the discarded tab. *)
Example validation_keeps_two :
  (suspendedTabs <$> cachedState (validateState demoHost crowdedState crowdedWorld).2)
  = Some (<[ "1" := demoEntry ]>
          (<[ "2" := discardedEntry "https://example.net/" ]> ∅)).
Proof. vm_compute. reflexivity. Qed.

End ValidationExamples.

(** ** Restoring a snapshot *)

Section RestoreFacts.
Context `{Coercions} `{Crypto}.

Lemma getSnapshotData_world snapshot w : (getSnapshotData snapshot w).2 = w.
Proof.
  unfold getSnapshotData. destruct snapshot as [s|]; [|done].
  destruct (snap_data s) as [c|encoded]; kunfold.
  - destruct (cryptoKey w); simpl; [|done]. by destruct (aes_decrypt _ _).
  - by destruct (js_truthy encoded).
Qed.


Lemma saved_backups st raw w :
  local_backups (storage (saved st raw w)) = local_backups (storage w).
Proof.
  unfold saved. destruct (encryption_enabled _); [destruct (cryptoKey w)|]; done.
Qed.

Lemma saved_details st raw w :
  snapshotDetailsCache (saved st raw w) = snapshotDetailsCache w.
Proof.
  unfold saved. destruct (encryption_enabled _); [destruct (cryptoKey w)|]; done.
Qed.

(** What [validateState] can do to the world, for any state: it leaves
    everything but the cache, or it saves a state on a writable world. *)
Lemma validateState_cases host st w :
  query_outside host →
  ∃ r w', validateState host st w = (r, w')
    ∧ ((∃ c, w' = set_cachedState c w)
       ∨ (r = Ok tt ∧ stateIsWritable w = true
          ∧ ∃ st' raw, w' = saved st' raw w)).
Proof.
  intros Hq. unfold validateState.
  assert (Hself : ∃ c, w = set_cachedState c w).
  { exists (cachedState w). by destruct w. }
  destruct (bool_decide _); [eexists _, _; split; [reflexivity|]; by left|].
  cbv [bind]. specialize (Hq w).
  destruct (tabs_query host w) as [[tabs|msg] w0]; simpl in Hq; subst w0;
    [|eexists _, _; split; [reflexivity|]; by left].
  destruct (validate_entries host tabs (state_entries st).*1 st false)
    as [[[|]|msg] st'].
  - destruct (stateWriteBlockedReason w) as [r|] eqn:Hr.
    + rewrite (saveState_blocked st' w r Hr). eexists _, _. split; [reflexivity|].
      left. by eexists.
    + apply writable_iff in Hr.
      destruct (saveState_writable st' w Hr) as (raw & _ & ->).
      eexists _, _. split; [reflexivity|]. right. split; [done|]. split; [done|].
      by eexists _, _.
  - eexists _, _. split; [reflexivity|]. by left.
  - cbv [modify throw]. eexists _, _. split; [reflexivity|]. left. by eexists.
Qed.

Lemma set_cachedState_blocked c w :
  stateWriteBlockedReason (set_cachedState c w) = stateWriteBlockedReason w.
Proof. done. Qed.

Lemma set_cachedState_twice c c' w :
  set_cachedState c (set_cachedState c' w) = set_cachedState c w.
Proof. done. Qed.

(** [restoreSnapshot] on an unlocked world: it returns, or it raises with
    storage as it was. *)
Lemma restoreSnapshot_cases host snapshotId w :
  query_outside host →
  stateIsLocked w = false →
  ∃ r w', restoreSnapshot host snapshotId w = (r, w')
    ∧ (find_snapshot snapshotId (default [] (local_backups (storage w))) = None →
       r = Throw "Snapshot not found" ∧ w' = w)
    ∧ ((r = Ok true ∧ stateIsWritable w = true ∧ stateIsWritable w' = true)
       ∨ ((∃ msg, r = Throw msg) ∧ storage w' = storage w)).
Proof.
  intros Hq Hl. unfold restoreSnapshot. vunfold.
  destruct (find_snapshot snapshotId (default [] (local_backups (storage w))))
    as [s|]; vsimpl; [|eexists _, _; split; [reflexivity|]; split; [done|]; right; eauto].
  rewrite Hl, andb_false_r.
  pose proof (getSnapshotData_world (Some s) w) as Hdata.
  destruct (getSnapshotData (Some s) w) as [[rst|msg] w0]; simpl in Hdata; subst w0;
    [|eexists _, _; split; [reflexivity|]; split; [done|]; right; eauto].
  destruct (validateState_cases host rst (set_cachedState (Some rst) w) Hq)
    as (r & w2 & -> & Hcases).
  destruct Hcases as [[c ->]|(-> & Hw & st' & raw & ->)].
  - rewrite set_cachedState_twice.
    destruct r as [[]|msg]; [|eexists _, _; split; [reflexivity|]; split; [done|]; right; eauto].
    destruct (stateWriteBlockedReason w) as [reason|] eqn:Hr.
    + rewrite (saveState_blocked _ (set_cachedState c w) reason)
        by (by rewrite set_cachedState_blocked).
      eexists _, _. split; [reflexivity|]. split; [done|]. right. eauto.
    + apply writable_iff in Hr.
      destruct (saveState_writable (default emptyState (cachedState (set_cachedState c w)))
                  (set_cachedState c w)) as (raw & _ & ->); [done|].
      eexists _, _. split; [reflexivity|]. split; [done|]. left.
      split; [done|]. split; [done|].
      change (stateIsWritable (saved (default emptyState (cachedState (set_cachedState c w)))
                                 raw (set_cachedState c w)) = true).
      by apply saved_writable.
  - assert (Hw2 : stateIsWritable (saved st' raw (set_cachedState (Some rst) w)) = true)
      by (by apply saved_writable).
    destruct (saveState_writable
                (default emptyState
                   (cachedState (saved st' raw (set_cachedState (Some rst) w))))
                (saved st' raw (set_cachedState (Some rst) w)) Hw2) as (raw' & _ & ->).
    eexists _, _. split; [reflexivity|]. split; [done|]. left.
    split; [done|]. split; [done|].
    change (stateIsWritable
              (saved (default emptyState
                        (cachedState (saved st' raw (set_cachedState (Some rst) w))))
                 raw' (saved st' raw (set_cachedState (Some rst) w))) = true).
    by apply saved_writable.
Qed.


End RestoreFacts.


(** X27: a restore that fails leaves storage alone. [RESTORE_SNAPSHOT]
    never raises; unless it answers [{ ok: true }] storage is as it was;
    it answers [{ ok: true }] only when the state was writable, so never
    while the state is marked corrupt; while the state is locked it
    answers locked with the lock reason and changes nothing; and for an
    id that no stored snapshot has it answers [Snapshot not found] and
    changes nothing. *)
Theorem restore_failure_keeps_storage `{Coercions} `{Crypto} (host : Host)
    (snapshotId : string) (w : World) :
  query_outside host →
  ∃ r w',
    handleRestoreSnapshot host snapshotId w = (Ok r, w')
    ∧ (r = RestoreOk ∨ storage w' = storage w)
    ∧ (r = RestoreOk → stateIsWritable w = true ∧ stateIsWritable w' = true)
    ∧ (stateIsLocked w = true → r = RestoreLocked (encryptionLockReason w) ∧ w' = w)
    ∧ (stateIsLocked w = false →
       find_snapshot snapshotId (default [] (local_backups (storage w))) = None →
       r = RestoreError "Snapshot not found" ∧ w' = w).
Proof.
  intros Hq. unfold handleRestoreSnapshot. vunfold.
  destruct (stateIsLocked w) eqn:Hl; simpl.
  { eexists _, _. split; [reflexivity|]. split; [by right|]. by repeat split. }
  destruct (restoreSnapshot_cases host snapshotId w Hq Hl)
    as (r & w' & -> & Hnone & Hcases).
  destruct Hcases as [(-> & Hw & Hw')|[[msg ->] Hst]]; simpl.
  - eexists _, _. split; [reflexivity|]. split; [by left|]. split; [done|].
    split; [done|]. intros _ Hfind. by destruct (Hnone Hfind).
  - eexists _, _. split; [reflexivity|]. split; [by right|]. split; [done|].
    split; [done|]. intros _ Hfind. destruct (Hnone Hfind) as [[= ->] ->]. done.
Qed.

Section RestoreExamples.
#[local] Existing Instance plainCoercions.
#[local] Existing Instance symbolicCrypto.


(** A world of the scenario on which the browser answers, through
    [restore_failure_keeps_storage]: the id is unknown. *)
Lemma restore_failure_keeps_storage_witness :
  ∃ r w', handleRestoreSnapshot demoHost "s9" restoreWorld = (Ok r, w')
          ∧ (r = RestoreOk ∨ storage w' = storage restoreWorld).
Proof.
  destruct (restore_failure_keeps_storage demoHost "s9" restoreWorld)
    as (r & w' & Hrun & Hst & _); [done|].
  by exists r, w'.
Defined.

(** While the state is marked corrupt the restore is refused with the
    blocking reason and storage stays, yet the cache now holds the
    snapshot's state. *)
Example restore_on_corrupt_state :
  let out := handleRestoreSnapshot demoHost "s1" corruptRestoreWorld in
  out.1 = Ok (RestoreError "corrupt-state")
  ∧ storage out.2 = storage corruptRestoreWorld
  ∧ cachedState corruptRestoreWorld = Some emptyState
  ∧ cachedState out.2 = Some demoState.
Proof. repeat split; vm_compute; reflexivity. Qed.

End RestoreExamples.

(** ** Resuming *)

Section ResumeFacts.
Context `{Coercions} `{Crypto}.

Lemma resumeSuspendedTab_outside api z e focus reload w :
  api_outside api →
  ∃ b, resumeSuspendedTab api z (Some e) focus reload w = (Ok b, w).
Proof.
  intros (Hactivate & Hreload & Hnavigate). unfold resumeSuspendedTab.
  destruct (strict_eq (assoc e "method") (JStr "discard")); [|apply Hnavigate].
  destruct focus; [apply Hactivate|].
  destruct reload; [apply Hreload|by eexists].
Qed.

Lemma resumeSuspendedTabAt_outside api n e focus reload w :
  api_outside api →
  ∃ b, resumeSuspendedTabAt api n e focus reload w = (Ok b, w).
Proof.
  intros Hapi. unfold resumeSuspendedTabAt.
  destruct n; try (destruct (_ && _); by eexists).
  by apply resumeSuspendedTab_outside.
Qed.

Lemma resume_fails_run api k e w :
  api_outside api →
  resumeSuspendedTabAt api (StringToNumber k) e false true w
  = (Ok (negb (resume_fails api w k e)), w).
Proof.
  intros Hapi. unfold resume_fails.
  destruct (resumeSuspendedTabAt_outside api (StringToNumber k) e false true w Hapi)
    as [b ->].
  simpl. by rewrite negb_involutive.
Qed.

Lemma resume_entries_cons api k e rest st w :
  resume_entries api ((k, e) :: rest) st w
  = match resumeSuspendedTabAt api (StringToNumber k) e false true w with
    | (Ok resumed, w') =>
        resume_entries api rest
          (if resumed then deleteEntry (number_key (StringToNumber k)) st
           else st) w'
    | (Throw msg, w') => (Throw msg, w')
    end.
Proof. done. Qed.

Lemma state_entries_elem_of st k e :
  (k, e) ∈ state_entries st ↔ suspendedTabs st !! k = Some e.
Proof.
  unfold state_entries. rewrite merge_sort_Permutation. apply elem_of_map_to_list.
Qed.

(** The loop of [RESUME_ALL] over distinct entries of the state whose keys
    are tab ids: the entries that were resumed are deleted. *)
Lemma resume_entries_spec api w es :
  api_outside api →
  NoDup es.*1 →
  (∀ k e, (k, e) ∈ es → ∃ z, 0 < z ≤ 9007199254740991 ∧ k = int_key z) →
  ∀ st,
    (∀ k e, (k, e) ∈ es → suspendedTabs st !! k = Some e) →
    resume_entries api es st w
    = (Ok (mkState (filter (fun p => p.1 ∈ es.*1 → resume_fails api w p.1 p.2 = true)
                      (suspendedTabs st))), w).
Proof.
  intros Hapi Hnd Hks. induction es as [|[k e] rest IH]; intros st Hin.
  { rewrite fmap_nil, (filter_keys_nil (resume_fails api w)). by destruct st. }
  rewrite fmap_cons in Hnd. apply NoDup_cons in Hnd as [Hk Hnd].
  destruct (Hks k e) as (z & Hz & ->); [left|].
  destruct (tab_id_key_number z Hz) as [Hnum Hkey].
  assert (He : suspendedTabs st !! int_key z = Some e) by (apply Hin; left).
  assert (Hrest : ∀ k e, (k, e) ∈ rest
                         → ∃ z, 0 < z ≤ 9007199254740991 ∧ k = int_key z)
    by (intros j x Hj; apply (Hks j x); by right).
  rewrite resume_entries_cons, (resume_fails_run api (int_key z) e w Hapi).
  rewrite Hnum, Hkey, fmap_cons. cbn [fst].
  destruct (resume_fails api w (int_key z) e) eqn:Hres; cbn [negb].
  - rewrite (filter_keys_keep (resume_fails api w) (suspendedTabs st) (int_key z)
               rest.*1 e He Hres).
    apply (IH Hnd Hrest st). intros j x Hj. apply Hin. by right.
  - destruct (filter_keys_drop (resume_fails api w) (suspendedTabs st) (int_key z)
                rest.*1 e He Hres) as [Hsame _].
    rewrite Hsame. apply (IH Hnd Hrest (deleteEntry (int_key z) st)).
    intros j x Hj. simpl. rewrite lookup_delete_ne; [apply Hin; by right|].
    intros <-. apply Hk. apply list_elem_of_fmap. by exists (int_key z, x).
Qed.

(** The entries of a state that [RESUME_ALL] does not resume. *)
Lemma resume_entries_state api w st :
  api_outside api →
  tab_id_keys (suspendedTabs st) →
  resume_entries api (state_entries st) st w
  = (Ok (mkState (filter (fun p => resume_fails api w p.1 p.2 = true)
                    (suspendedTabs st))), w).
Proof.
  intros Hapi Hkeys.
  rewrite (resume_entries_spec api w (state_entries st) Hapi
             (state_entries_NoDup st)).
  - by rewrite (filter_keys_all (resume_fails api w)
                  (suspendedTabs st) (state_entries st).*1)
      by (intros k Hk; by apply state_entries_keys).
  - intros k e Hin%state_entries_elem_of. apply Hkeys. by eexists.
  - intros k e Hin. by apply state_entries_elem_of.
Qed.

End ResumeFacts.

(** X28: [RESUME_ALL] removes exactly the entries whose tab was resumed.
    While writes are blocked it answers the locked response and changes
    nothing. On a writable world whose state has tab ids as keys, with
    browser calls that leave the extension's variables alone, it answers
    [{ ok: true }] and saves a state that holds exactly the entries whose
    resume failed, each as it was. *)
Theorem resume_all_keeps_failures `{Coercions} `{Crypto} (api : TabsApi) (w : World) :
  api_outside api →
  (stateIsWritable w = false →
   handleResumeAll api w = (Ok (lockedMutationResponse false w), w))
  ∧ (stateIsWritable w = true →
     ∀ st w0,
       loadState w = (Ok st, w0) →
       stateIsWritable w0 = true →
       tab_id_keys (suspendedTabs st) →
       ∃ st' raw,
         handleResumeAll api w = (Ok RespOk, saved st' raw w0)
         ∧ Codec.encodeStateV2 st' = Ok raw
         ∧ cachedState (saved st' raw w0) = Some st'
         ∧ ∀ k e, suspendedTabs st' !! k = Some e
                  ↔ suspendedTabs st !! k = Some e
                    ∧ resume_fails api w0 k e = true).
Proof.
  intros Hapi. split.
  { intros Hw. unfold handleResumeAll. vunfold. by rewrite Hw. }
  intros Hw st w0 Hload Hw0 Hkeys.
  set (st' := mkState (filter (fun p => resume_fails api w0 p.1 p.2 = true)
                         (suspendedTabs st))).
  destruct (saveState_writable st' w0 Hw0) as (raw & Hraw & Hsave).
  exists st', raw. split.
  { unfold handleResumeAll. vunfold. rewrite Hw. simpl. rewrite Hw. simpl.
    rewrite Hload. simpl.
    rewrite (resume_entries_state api w0 st Hapi Hkeys).
    fold st'. by rewrite Hsave. }
  split; [done|]. split; [apply saved_cached|].
  intros k e. unfold st'. simpl. by rewrite map_lookup_filter_Some.
Qed.

(** X29: [RESUME_TAB] removes the entry only when the tab was resumed. On
    a writable world, with browser calls that leave the extension's
    variables alone, it answers [{ ok: true }] in every case; the entry
    of the tab is deleted and the state saved when its resume succeeded,
    and nothing is written when the resume failed, when the tab has no
    entry, or when the id is not an integer. *)
Theorem resume_tab_removes_on_success `{Coercions} `{Crypto}
    (api : TabsApi) (tabId : JsVal) (w w0 : World) (st : State) :
  api_outside api →
  stateIsWritable w = true →
  loadState w = (Ok st, w0) →
  stateIsWritable w0 = true →
  ∃ w',
    handleResumeTab api tabId w = (Ok RespOk, w')
    ∧ match tabId with
      | JNum (NInt z) =>
          match suspendedTabs st !! number_key (NInt z) with
          | Some e =>
              match (resumeSuspendedTab api z (Some e) true false w0).1 with
              | Ok true =>
                  ∃ raw,
                    Codec.encodeStateV2 (deleteEntry (number_key (NInt z)) st)
                    = Ok raw
                    ∧ w' = saved (deleteEntry (number_key (NInt z)) st) raw w0
                    ∧ ∀ st', cachedState w' = Some st' →
                             suspendedTabs st' !! number_key (NInt z) = None
              | _ => w' = w0
              end
          | None => w' = w0
          end
      | _ => w' = w
      end.
Proof.
  intros Hapi Hw Hload Hw0. unfold handleResumeTab. vunfold. rewrite Hw. vsimpl.
  destruct tabId as [| | |n| | |]; try (by eexists).
  destruct n as [z| | | |]; try (by eexists).
  vunfold. rewrite Hw. vsimpl. rewrite Hload.
  destruct (suspendedTabs st !! number_key (NInt z)) as [e|] eqn:He.
  - destruct (resumeSuspendedTab_outside api z e true false w0 Hapi) as [b Hb].
    rewrite Hb. vsimpl. destruct b.
    + destruct (saveState_writable (deleteEntry (number_key (NInt z)) st) w0 Hw0)
        as (raw & Hraw & Hsave).
      rewrite Hsave. eexists. split; [done|].
      exists raw. split; [done|]. split; [done|].
      intros st'. rewrite saved_cached. intros [= <-]. simpl.
      apply lookup_delete_eq.
    + by eexists.
  - destruct Hapi as (Hactivate & _). destruct (Hactivate z w0) as [b ->].
    by eexists.
Qed.

Section ResumeExamples.
#[local] Existing Instance plainCoercions.
#[local] Existing Instance symbolicCrypto.

Lemma evenTabsApi_outside : api_outside evenTabsApi.
Proof. repeat split; intros; by eexists. Qed.

Lemma crowdedState_keys : tab_id_keys (suspendedTabs crowdedState).
Proof.
  intros k [e He]. unfold crowdedState in He. simpl in He.
  apply lookup_insert_Some in He as [[<- _]|[_ He]];
    [exists 1; split; [lia|reflexivity]|].
  apply lookup_insert_Some in He as [[<- _]|[_ He]];
    [exists 2; split; [lia|reflexivity]|].
  apply lookup_insert_Some in He as [[<- _]|[_ He]];
    [exists 3; split; [lia|reflexivity]|].
  apply lookup_insert_Some in He as [[<- _]|[_ He]];
    [exists 4; split; [lia|reflexivity]|].
  apply lookup_insert_Some in He as [[<- _]|[_ He]];
    [exists 5; split; [lia|reflexivity]|].
  by rewrite lookup_empty in He.
Qed.

(** The crowded state with tab calls that succeed on even ids, through
    [resume_all_keeps_failures]. *)
Lemma resume_all_keeps_failures_witness :
  ∃ st' raw,
    handleResumeAll evenTabsApi crowdedWorld
    = (Ok RespOk, saved st' raw crowdedWorld)
    ∧ suspendedTabs st' !! "2" = None
    ∧ suspendedTabs st' !! "3" = Some (discardedEntry "https://example.com/").
Proof.
  destruct (proj2 (resume_all_keeps_failures evenTabsApi crowdedWorld
                     evenTabsApi_outside) eq_refl crowdedState crowdedWorld)
    as (st' & raw & Hrun & _ & _ & Hst').
  - reflexivity.
  - reflexivity.
  - apply crowdedState_keys.
  - exists st', raw. split; [done|]. split.
    + destruct (suspendedTabs st' !! "2") as [e|] eqn:He; [|done].
      apply Hst' in He as [He Hres]. vm_compute in He. injection He as <-.
      vm_compute in Hres. discriminate.
    + apply Hst'. split; vm_compute; reflexivity.
Defined.

(** Tab 2 resumed by [RESUME_TAB], through
    [resume_tab_removes_on_success]. *)
Lemma resume_tab_removes_on_success_witness :
  ∃ w', handleResumeTab evenTabsApi (JNum (NInt 2)) crowdedWorld
        = (Ok RespOk, w').
Proof.
  destruct (resume_tab_removes_on_success evenTabsApi (JNum (NInt 2))
              crowdedWorld crowdedWorld crowdedState evenTabsApi_outside)
    as (w' & Hrun & _); [reflexivity..|].
  by exists w'.
Defined.

(** Of the five entries [RESUME_ALL] leaves the three whose tab id is
    odd; [RESUME_TAB] for tab 1 leaves all five. *)
Example resume_all_leaves_odd :
  (suspendedTabs <$> cachedState (handleResumeAll evenTabsApi crowdedWorld).2)
  = Some (<[ "1" := demoEntry ]>
          (<[ "3" := discardedEntry "https://example.com/" ]>
           (<[ "5" := discardedEntry "javascript:alert(1)" ]> ∅))).
Proof. vm_compute. reflexivity. Qed.

Example resume_tab_failure_keeps_entry :
  handleResumeTab evenTabsApi (JNum (NInt 1)) crowdedWorld
  = (Ok RespOk, crowdedWorld).
Proof. vm_compute. reflexivity. Qed.

End ResumeExamples.

(** ** Taking a snapshot *)

Section SnapshotFacts.
Context `{Coercions} `{Crypto}.

(** A snapshot newer than all the others goes first. *)
Lemma sort_newest_first_newest (s : Snapshot) (r l : list Snapshot) :
  Forall (fun b => snap_timestamp b < snap_timestamp s) l →
  foldr insert_newest_first (s :: r) l = s :: foldr insert_newest_first r l.
Proof.
  induction 1 as [|x l Hx _ IH]; [done|]. simpl. rewrite IH. simpl.
  destruct (Z.ltb_spec (snap_timestamp x) (snap_timestamp s)); [done|lia].
Qed.

Lemma pruneSnapshots_newest now (s : Snapshot) (existing : list Snapshot) :
  snap_timestamp s = now →
  Forall (fun b => snap_timestamp b < now) existing →
  ∃ rest, pruneSnapshots now (existing ++ [s]) = s :: rest.
Proof.
  intros Hs Hold. unfold pruneSnapshots, sort_newest_first.
  rewrite filter_app, (filter_cons_True _ s), filter_nil
    by (unfold snapshot_cutoff, SNAPSHOT_RETENTION_DAYS; lia).
  rewrite foldr_app. simpl. rewrite sort_newest_first_newest.
  - by eexists.
  - rewrite Hs. apply Forall_forall. intros x [_ Hx]%list_elem_of_filter.
    rewrite Forall_forall in Hold. by apply Hold.
Qed.

(** The snapshot of a state that is not empty, built and stored on a
    writable world. *)
Lemma storeSnapshot_run host st raw w :
  stateIsWritable w = true →
  suspendedTabs st ≠ ∅ →
  Codec.encodeStateV2 st = Ok raw →
  ∃ s w',
    storeSnapshot host st w = (Ok tt, w')
    ∧ snap_timestamp s = clock w
    ∧ snap_tabCount s = size (suspendedTabs st)
    ∧ (snap_data s = PPlain raw
       ∨ ∃ key n, cryptoKey w' = Some key
                  ∧ snap_data s = PEncrypted (aes_encrypt key n raw))
    ∧ local_backups (storage w')
      = Some (pruneSnapshots (clock w)
                (default [] (local_backups (storage w)) ++ [s]))
    ∧ local_state (storage w') = local_state (storage w)
    ∧ snapshotDetailsCache w' = []
    ∧ cachedState w' = cachedState w.
Proof.
  intros Hw Hne Hraw. destruct (writable_unlocked w Hw) as (_ & Hl & [key Hkey]).
  unfold storeSnapshot. rewrite bool_decide_eq_false_2 by done.
  kunfold. rewrite Hraw. simpl. rewrite Hl, andb_false_r.
  destruct (encryption_enabled (local_settings (storage w))); simpl.
  - rewrite Hkey. simpl.
    exists (mkSnapshot (random_uuid host (S (entropy w))) (clock w)
              (size (suspendedTabs st)) (PEncrypted (aes_encrypt key (entropy w) raw))).
    eexists. split; [reflexivity|]. simpl.
    split; [done|]. split; [done|]. split; [|done].
    right. by exists key, (entropy w).
  - exists (mkSnapshot (random_uuid host (entropy w)) (clock w)
              (size (suspendedTabs st)) (PPlain raw)).
    eexists. split; [reflexivity|]. simpl.
    split; [done|]. split; [done|]. split; [by left|done].
Qed.

Lemma saved_clock st raw w : clock (saved st raw w) = clock w.
Proof.
  unfold saved. destruct (encryption_enabled _); [destruct (cryptoKey w)|]; done.
Qed.

End SnapshotFacts.

(** X30: a snapshot just taken reads back. On a writable world whose
    state has tab ids as keys and keeps at least one entry that the open
    tabs confirm, with every stored snapshot older than the clock and a
    cipher that decrypts what it encrypted, [createSnapshot] does not
    raise; it puts first in the stored list a snapshot stamped with the
    clock and counting the confirmed entries, and [getSnapshotData] of
    that snapshot decodes the encoding of exactly the confirmed part of
    the state. *)
Theorem snapshot_reads_back `{Coercions} `{Crypto} (host : Host) (tabs : list Tab)
    (st : State) (w w0 : World) :
  stateIsWritable w = true →
  loadState w = (Ok st, w0) →
  stateIsWritable w0 = true →
  tab_id_keys (suspendedTabs st) →
  urls_known tabs →
  (∀ w, tabs_query host w = (Ok tabs, w)) →
  suspendedTabs (confirmed_part host tabs st) ≠ ∅ →
  Forall (fun b => snap_timestamp b < clock w0)
    (default [] (local_backups (storage w0))) →
  (∀ key n raw, aes_decrypt key (aes_encrypt key n raw) = Ok raw) →
  ∃ w' s rest raw,
    createSnapshot host w = (Ok tt, w')
    ∧ local_backups (storage w') = Some (s :: rest)
    ∧ snap_timestamp s = clock w0
    ∧ snap_tabCount s = size (suspendedTabs (confirmed_part host tabs st))
    ∧ Codec.encodeStateV2 (confirmed_part host tabs st) = Ok raw
    ∧ getSnapshotData (Some s) w' = (Codec.decodeStateAny raw, w')
    ∧ cachedState w' = Some (confirmed_part host tabs st).
Proof.
  intros Hw Hload Hw0 Hkeys Hurls Hquery Hne Hold Hdec.
  destruct (loadState_result w) as (st2 & w2 & Hload2 & Hcached & _).
  rewrite Hload in Hload2. injection Hload2 as <- <-.
  destruct (encodeStateV2_total (confirmed_part host tabs st)) as [raw Hraw].
  assert (Hstate :
    ∃ w1, (let! loaded := loadState in validateState host loaded ;; readCache) w
          = (Ok (confirmed_part host tabs st), w1)
          ∧ stateIsWritable w1 = true
          ∧ clock w1 = clock w0
          ∧ local_backups (storage w1) = local_backups (storage w0)
          ∧ cachedState w1 = Some (confirmed_part host tabs st)).
  { cbv [bind]. rewrite Hload.
    destruct (validateState_run host tabs st w0 Hkeys Hurls Hw0 (Hquery _))
      as [[Heq ->]|(_ & raw1 & _ & ->)].
    - exists w0. cbv [readCache gets]. rewrite Hcached, Heq. done.
    - exists (saved (confirmed_part host tabs st) raw1 w0).
      cbv [readCache gets]. rewrite saved_cached. simpl.
      split; [done|]. split; [by apply saved_writable|].
      split; [apply saved_clock|]. split; [apply saved_backups|done]. }
  destruct Hstate as (w1 & Hstate & Hw1 & Hclock & Hbackups & Hcache).
  destruct (storeSnapshot_run host (confirmed_part host tabs st) raw w1 Hw1 Hne Hraw)
    as (s & w' & Hstore & Hts & Hcount & Hdata & Hstored & _ & _ & Hcache').
  rewrite Hclock in Hts, Hstored. rewrite Hbackups in Hstored.
  destruct (pruneSnapshots_newest (clock w0) s
              (default [] (local_backups (storage w0))) Hts Hold) as [rest Hrest].
  exists w', s, rest, raw. split.
  { unfold createSnapshot. cbv [try_catch withStateLock].
    change ((let! state := (let! loaded := loadState in
                            validateState host loaded ;; readCache) in
             storeSnapshot host state) w)
      with (match (let! loaded := loadState in
                   validateState host loaded ;; readCache) w with
            | (Ok state, w1) => storeSnapshot host state w1
            | (Throw e, w1) => (Throw e, w1)
            end).
    by rewrite Hstate, Hstore. }
  split; [by rewrite Hstored, Hrest|]. split; [done|]. split; [done|].
  split; [done|]. split; [|by rewrite Hcache'].
  unfold getSnapshotData.
  destruct Hdata as [->|(key & n & Hkey & ->)].
  - by rewrite (encodeStateV2_truthy _ raw Hraw).
  - kunfold. rewrite Hkey. simpl. by rewrite Hdec.
Qed.

Section SnapshotExamples.
#[local] Existing Instance plainCoercions.
#[local] Existing Instance symbolicCrypto.

(** The crowded state of the scenario, through [snapshot_reads_back]: the
    snapshot counts the two entries that the open tabs confirm. *)
Lemma snapshot_reads_back_witness :
  ∃ w' s rest,
    createSnapshot demoHost crowdedWorld = (Ok tt, w')
    ∧ local_backups (storage w') = Some (s :: rest)
    ∧ snap_tabCount s = 2%nat.
Proof.
  destruct (snapshot_reads_back demoHost demoTabs crowdedState crowdedWorld
              crowdedWorld)
    as (w' & s & rest & raw & Hrun & Hstored & _ & Hcount & _).
  - reflexivity.
  - reflexivity.
  - reflexivity.
  - apply crowdedState_keys.
  - unfold urls_known, demoTabs. repeat constructor; by eexists.
  - done.
  - intros Hempty.
    assert (Hlook : suspendedTabs (confirmed_part demoHost demoTabs crowdedState)
                    !! "1" = Some demoEntry) by (vm_compute; reflexivity).
    by rewrite Hempty in Hlook.
  - by constructor.
  - intros key n raw. simpl. by rewrite Nat.eqb_refl.
  - exists w', s, rest. split; [done|]. split; [done|]. rewrite Hcount.
    vm_compute. reflexivity.
Defined.

(** With nothing suspended no snapshot is made, and nothing is stored. *)
Example empty_state_no_snapshot :
  createSnapshot demoHost
    (@set_cachedState symbolicCrypto (Some emptyState) demoWorld)
  = (Ok tt, @set_cachedState symbolicCrypto (Some emptyState) demoWorld).
Proof. vm_compute. reflexivity. Qed.

End SnapshotExamples.

(** ** The one-shot contract of the resume token *)

Section OneShotFacts.
Context `{Coercions} `{Crypto}.






Lemma handleStorageChanged_twice w :
  (handleStorageChanged (handleStorageChanged w).2).2 = (handleStorageChanged w).2.
Proof. done. Qed.

Lemma handleStorageChanged_storage w : storage (handleStorageChanged w).2 = storage w.
Proof. done. Qed.








End OneShotFacts.


Section OneShotExamples.
#[local] Existing Instance plainCoercions.
#[local] Existing Instance symbolicCrypto.





End OneShotExamples.
